(** * JSONParser.h: a shallow embedding of the value model, the serializer
      and the recursive-descent parser, with the properties of the
      specification stated over it.

    Layout:
    - [outcome]: how a C++ call can end (value, exception, undefined
      behaviour).
    - [Std]: the parts of the C and C++ standard libraries the header calls
      ([std::string], [std::to_string], [std::stod], [std::isdigit], the
      file streams) and the arithmetic of [long double], [long] and [int]
      that it relies on.
    - [JSON]: [namespace JSON] of the header, function by function.
    - the vocabulary of the statements, the lemmas about the cursor, about
      each lexer and about the serializer, and the properties of the
      specification (C1 to C10).
    - further properties of the code (X1 to X26): the members of [Value],
      the lexers, arrays and objects, files, what [parse()] never does,
      and the texts outside JSON that it accepts.

    Platform: LP64 with glibc and libstdc++ on x86-64 ([long] has 64 bits,
    [long double] carries a 64-bit significand, [char] is a byte). *)

From Stdlib Require Import ZArith NArith String Ascii List Bool Lia.
From Stdlib Require Import DecimalString DecimalN DecimalPos DecimalFacts.
From Stdlib Require Import Floats.SpecFloat.
From stdpp Require Import base gmap strings list fin_maps.

#[local] Open Scope string_scope.
#[local] Open Scope Z_scope.
#[local] Set Warnings "-register-all".
#[local] Arguments String.append !_ _ : simpl nomatch.

(* ===================================================================== *)
(** * Outcomes of a call *)
(* ===================================================================== *)

(** The exceptions of <stdexcept> that the library calls of the header can
    raise. *)
Inductive exn : Set :=
| std_out_of_range
| std_invalid_argument
| std_length_error.

(** A call returns, leaves through an exception, or has no defined
    behaviour. [OutOfFuel] belongs to the embedding only: the recursion of
    the parser is bounded by a counter, and [OutOfFuel] says the counter ran
    out (see [JSON.parseElement] and [JSON.while]). *)
Inductive outcome (A : Type) : Type :=
| Return (a : A)
| Throw (e : exn)
| Undefined
| OutOfFuel.

Arguments Return {A} a.
Arguments Throw {A} e.
Arguments Undefined {A}.
Arguments OutOfFuel {A}.

Definition obind {A B} (m : outcome A) (k : A -> outcome B) : outcome B :=
  match m with
  | Return a => k a
  | Throw e => Throw e
  | Undefined => Undefined
  | OutOfFuel => OutOfFuel
  end.

Notation "'let!' x ':=' m 'in' k" := (obind m (fun x => k))
  (at level 10, x pattern, m at level 100, k at level 200,
   format "'[v' 'let!'  x  ':='  m  'in' '/' k ']'").

(* ===================================================================== *)
(** * The standard library, as far as the header uses it *)
(* ===================================================================== *)

Module Std.

(** ** Characters and strings *)

(** The double quote, written by its code so that no literal needs an
    escape. *)
Definition dquote : ascii := "034"%char.
Definition NUL : ascii := "000"%char.
Definition LF : ascii := "010"%char.

Definition str1 (c : ascii) : string := String c EmptyString.

(** [std::string(count, ch)] for a count that is already a [size_t]. *)
Fixpoint replicate_char (n : nat) (c : ascii) : string :=
  match n with
  | O => EmptyString
  | S n' => String c (replicate_char n' c)
  end.

(** ** Machine integers *)

Definition INT_MIN : Z := - 2 ^ 31.
Definition INT_MAX : Z := 2 ^ 31 - 1.
Definition LONG_MIN : Z := - 2 ^ 63.
Definition LONG_MAX : Z := 2 ^ 63 - 1.

(** The bound of [max_size()] of every [std::vector]. *)
Definition PTRDIFF_MAX : Z := 2 ^ 63 - 1.

(** Conversion of a signed integer to [size_t]: reduction modulo 2^64. *)
Definition to_size_t (z : Z) : Z := z mod 2 ^ 64.

(** Signed multiplication in [int]: overflow is undefined. *)
Definition int_mul (a b : Z) : outcome Z :=
  let r := a * b in
  if (INT_MIN <=? r) && (r <=? INT_MAX) then Return r else Undefined.

(** [std::string(n, ' ')] where [n] is an [int]: the count is converted to
    [size_t]; a negative [n] becomes a count above [max_size()] and the
    constructor throws [std::length_error]. *)
Definition string_of_spaces (n : Z) : outcome string :=
  if n <? 0 then Throw std_length_error
  else Return (replicate_char (Z.to_nat n) " "%char).

(** [s.substr(pos, len)] for arguments that are not negative (the header
    passes a cursor position and a count of characters):
    [std::out_of_range] when [pos > s.size()], otherwise at most [len]
    characters from [pos]. *)
Definition substr (s : string) (pos len : Z) : outcome string :=
  if Z.of_nat (String.length s) <? pos then Throw std_out_of_range
  else Return (substring (Z.to_nat pos) (Z.to_nat len) s).

(** [std::isdigit] in the "C" locale. (For a [char] with a negative value
    the C standard leaves the call undefined; glibc answers 0 there, which
    is what this definition does for the bytes above 127.) *)
Definition isdigit (c : ascii) : bool :=
  let n := N_of_ascii c in ((48 <=? n) && (n <=? 57))%N.

(** ** Decimal text of integers *)

Definition string_of_N (n : N) : string :=
  NilEmpty.string_of_uint (N.to_uint n).

(** [std::to_string(long)]. *)
Definition to_string_long (z : Z) : string :=
  match z with
  | Zneg p => String "-" (string_of_N (Npos p))
  | _ => string_of_N (Z.to_N z)
  end.

(** ** [long double]

    A finite [long double] is a dyadic rational [mant * 2 ^ expo]. Every
    operation the header applies to one (conversion from [bool] and from
    [double], truncation to [long], the test [num - lnum == 0], conversion
    to [bool], printing with [%Lf]) is a function of that real value, so
    the embedding keeps the value itself, in lowest terms: [mant] is odd, or
    [mant = 0] and [expo = 0]. The sign of a zero is not kept: none of these
    operations can tell the two zeros apart. Infinities and NaN are left
    out: the header cannot parse one, and printing one is undefined (the
    cast to [long]). *)
Record ldouble : Set := LD { mant : Z; expo : Z }.

Fixpoint strip_zeros (m : positive) (e : Z) : positive * Z :=
  match m with
  | xO m' => strip_zeros m' (e + 1)
  | _ => (m, e)
  end.

(** The number [m * 2 ^ e] in lowest terms. *)
Definition ld_make (m e : Z) : ldouble :=
  match m with
  | Z0 => LD 0 0
  | Zpos p => let '(p', e') := strip_zeros p e in LD (Zpos p') e'
  | Zneg p => let '(p', e') := strip_zeros p e in LD (Zneg p') e'
  end.

Definition ld_canonical (x : ldouble) : Prop :=
  ld_make (mant x) (expo x) = x.

Definition ld_zero : ldouble := LD 0 0.

(** Conversion of an integer ([bool], [long]) to [long double]; exact for
    every [long] since the significand has 64 bits. *)
Definition ld_of_Z (z : Z) : ldouble := ld_make z 0.

(** [x - y]. The machine rounds the difference, but a rounded difference is
    zero exactly when the operands are equal, and the header only compares
    the difference with zero; the embedding computes the exact difference. *)
Definition ld_sub (x y : ldouble) : ldouble :=
  let e := Z.min (expo x) (expo y) in
  ld_make (mant x * 2 ^ (expo x - e) - mant y * 2 ^ (expo y - e)) e.

Definition ld_is_zero (x : ldouble) : bool := mant x =? 0.

(** The integer part of the value, rounded toward zero. *)
Definition ld_trunc (x : ldouble) : Z :=
  if 0 <=? expo x then mant x * 2 ^ expo x
  else Z.quot (mant x) (2 ^ (- expo x)).

(** [static_cast<long>(x)]: the truncated value when [long] can hold it,
    undefined otherwise. *)
Definition ld_to_long (x : ldouble) : outcome Z :=
  let t := ld_trunc x in
  if (LONG_MIN <=? t) && (t <=? LONG_MAX) then Return t else Undefined.

(** Division rounded to the nearest integer, ties to even. *)
Definition div_nearest_even (a b : Z) : Z :=
  let q := a / b in
  let r := a mod b in
  match 2 * r ?= b with
  | Lt => q
  | Gt => q + 1
  | Eq => if Z.even q then q else q + 1
  end.

(** The text of [n] padded with zeros on the left up to [width]. *)
Definition pad_zeros (width : nat) (n : N) : string :=
  let s := string_of_N n in
  replicate_char (width - String.length s) "0"%char +:+ s.

(** [std::to_string(long double)], which the standard defines as
    [sprintf(buf, "%Lf", x)]: fixed notation with six digits after the
    point, the value rounded to nearest (ties to even) at the sixth. *)
Definition to_string_ldouble (x : ldouble) : string :=
  let a := Z.abs (mant x) in
  let k := if 0 <=? expo x then a * 2 ^ expo x * 10 ^ 6
           else div_nearest_even (a * 10 ^ 6) (2 ^ (- expo x)) in
  (if mant x <? 0 then "-" else EmptyString)
  +:+ string_of_N (Z.to_N (k / 10 ^ 6)) +:+ "."
  +:+ pad_zeros 6 (Z.to_N (k mod 10 ^ 6)).

(** ** [std::stod]

    [std::stod(str)] calls [strtod] on the text: it throws
    [std::invalid_argument] when no conversion could be performed and
    [std::out_of_range] when [strtod] reports [ERANGE]; otherwise it returns
    the [double] nearest to the decimal value read (ties to even). The
    [double] is then stored in a [long double], which holds it exactly.

    [strtod] reads the longest initial part of the text that has the form
    of a number and ignores what follows. Only the decimal form is
    embedded: the hexadecimal form and the words for infinity and NaN need a
    letter that the scanner of [parseNumber] never hands over. *)

Definition isspace (c : ascii) : bool :=
  let n := N_of_ascii c in ((n =? 32) || ((9 <=? n) && (n <=? 13)))%N.

Fixpoint skip_space (s : string) : string :=
  match s with
  | String c s' => if isspace c then skip_space s' else s
  | EmptyString => s
  end.

(** The longest run of digits at the head of [s]: the number they add to
    [acc] read as the digits before them, how many they are, and the rest
    of the text. *)
Fixpoint scan_digits (s : string) (acc : N) (count : nat) : N * nat * string :=
  match s with
  | String c s' =>
      if isdigit c
      then scan_digits s' (10 * acc + (N_of_ascii c - 48))%N (S count)
      else (acc, count, s)
  | EmptyString => (acc, count, s)
  end.

Definition scan_sign (s : string) : bool * string :=
  match s with
  | String "-" s' => (true, s')
  | String "+" s' => (false, s')
  | _ => (false, s)
  end.

(** The exponent part: [e] or [E], an optional sign and at least one digit;
    when the digits are missing nothing of it is read. *)
Definition scan_exponent (s : string) : Z :=
  match s with
  | String c s' =>
      if (N_of_ascii c =? 101)%N || (N_of_ascii c =? 69)%N then
        let '(eneg, s'') := scan_sign s' in
        let '(ev, en, _) := scan_digits s'' 0%N 0%nat in
        if (en =? 0)%nat then 0
        else if eneg then - Z.of_N ev else Z.of_N ev
      else 0
  | EmptyString => 0
  end.

(** The decimal number at the head of [s] as [(neg, m, e)], standing for
    [(-1)^neg * m * 10^e]; [None] when there is no digit to read. *)
Definition strtod_decimal (s : string) : option (bool * N * Z) :=
  let '(neg, s1) := scan_sign (skip_space s) in
  let '(m1, n1, s2) := scan_digits s1 0%N 0%nat in
  let '(m2, n2, s3) :=
    match s2 with
    | String "." s2' => scan_digits s2' m1 0%nat
    | _ => (m1, 0%nat, s2)
    end in
  if (n1 + n2 =? 0)%nat then None
  else Some (neg, m2, scan_exponent s3 - Z.of_nat n2).

(** The binary64 number nearest to [m * 10^e] (IEEE 754 rounding to
    nearest, ties to even, as the Standard Library specifies it). *)
Definition round_binary64 (neg : bool) (m : positive) (e : Z) : spec_float :=
  if 0 <=? e then binary_round 53 1024 neg (m * Z.to_pos (10 ^ e)) 0
  else SFdiv 53 1024 (S754_finite neg m 0)
                     (S754_finite false (Z.to_pos (10 ^ (- e))) 0).

(** Whether [mr * 2^er] is [m * 10^e] exactly. *)
Definition same_value (m : positive) (e : Z) (mr : positive) (er : Z) : bool :=
  Zpos mr * 2 ^ Z.max er 0 * 10 ^ Z.max (- e) 0
  =? Zpos m * 10 ^ Z.max e 0 * 2 ^ Z.max (- er) 0.

(** Whether [m * 10^e] is tiny, as glibc decides it on x86-64 (after
    rounding): rounded to 53 bits with no bound on the exponent, the
    value is below 2^-1022, the least normal [double]. That is, the value
    is below 2^-1022 - 2^-1076, the middle between that number and the
    one before it among the numbers of 53 bits. *)
Definition tiny (m : positive) (e : Z) : bool :=
  if 0 <=? e then false
  else Zpos m * 2 ^ 1076 <? (2 ^ 54 - 1) * 10 ^ (- e).

(** [ERANGE] is reported on overflow and, as glibc does, when the value is
    tiny and the result is not exact. *)
Definition stod (s : string) : outcome ldouble :=
  match strtod_decimal s with
  | None => Throw std_invalid_argument
  | Some (_, N0, _) => Return ld_zero
  | Some (neg, Npos m, e) =>
      match round_binary64 neg m e with
      | S754_finite sg mr er =>
          if tiny m e && negb (same_value m e mr er)
          then Throw std_out_of_range
          else Return (ld_make (if sg then Zneg mr else Zpos mr) er)
      | _ => Throw std_out_of_range
      end
  end.

(** ** More of [std::string] *)

(** The first [n] characters of [s], and what follows them. *)
Fixpoint string_take (n : nat) (s : string) : string :=
  match n, s with
  | S n', String c s' => String c (string_take n' s')
  | _, _ => EmptyString
  end.

Fixpoint string_drop (n : nat) (s : string) : string :=
  match n, s with
  | S n', String _ s' => string_drop n' s'
  | _, _ => s
  end.

(** [s.append(str, subpos, sublen)]: [s] followed by
    [str.substr(subpos, sublen)]. *)
Definition string_append (s str : string) (subpos sublen : Z)
  : outcome string :=
  let! piece := substr str subpos sublen in Return (s +:+ piece).

(** ** File streams

    The files are a finite map from names to contents. [files] holds the
    files that exist, each of which the process can read and write;
    [creatable] tells at which other names it can create one. Writing is
    taken to succeed once the file is open (the header does not test the
    stream after it has written). *)
Record FileSystem : Type := mkFileSystem {
  files : gmap string string;
  creatable : string -> bool }.

(** [std::ofstream stream(filename)]: the file is created, or emptied if
    it exists. [None] when [is_open()] is false. *)
Definition ofstream_open (fs : FileSystem) (filename : string)
  : option FileSystem :=
  if bool_decide (is_Some (files fs !! filename)) || creatable fs filename
  then Some (mkFileSystem (<[filename := EmptyString]> (files fs))
                          (creatable fs))
  else None.

(** [stream << text] on the file opened under [filename]. *)
Definition ofstream_write (fs : FileSystem) (filename text : string)
  : FileSystem :=
  mkFileSystem
    (<[filename := default EmptyString (files fs !! filename) +:+ text]>
       (files fs))
    (creatable fs).

(** An open [std::fstream] that is only read: the characters not yet
    read, the count of the last [read], and whether [fail()] holds. *)
Record fstream : Set := mkStream {
  unread : string;
  gcount : nat;
  failbit : bool }.

(** [std::fstream stream(filename)], which opens for reading and writing:
    the file has to exist. [None] when [is_open()] is false. *)
Definition fstream_open (fs : FileSystem) (filename : string)
  : option fstream :=
  match files fs !! filename with
  | Some data => Some (mkStream data 0 false)
  | None => None
  end.

(** [stream.read(&buf[0], n)] for a buffer of at least [n] characters: up
    to [n] characters go from the stream to the head of the buffer;
    [gcount()] is their number, and the stream fails when they are fewer
    than [n]. A stream that has failed reads nothing. The result is the
    buffer and the stream after the call. *)
Definition stream_read (n : nat) (buf : string) (s : fstream)
  : string * fstream :=
  if failbit s then (buf, mkStream (unread s) 0 true)
  else
    let got := string_take n (unread s) in
    let k := String.length got in
    (got +:+ string_drop k buf,
     mkStream (string_drop n (unread s)) k (k <? n)%nat).

End Std.

(* ===================================================================== *)
(** * namespace JSON *)
(* ===================================================================== *)

Module JSON.
Import Std.

Inductive ValueType : Set :=
| ValueType_Object
| ValueType_Array
| ValueType_String
| ValueType_Number
| ValueType_Boolean
| ValueType_Null
| ValueType_Unknown.

#[global] Instance ValueType_eq_dec : EqDecision ValueType.
Proof. solve_decision. Defined.

(** ** class Value

    The five data members, as the class declares them. [obj] is the
    [std::unordered_map]: a finite map, whose order of iteration is not
    part of its value (see [getRepresentation]).

    Left out of the embedding: [toNumber], a conversion to [double] that
    nothing else in the header uses. *)
Inductive Value : Type :=
  mkValue (type : ValueType) (obj : gmap string Value) (arr : list Value)
          (str : string) (num : ldouble).

Definition type (v : Value) : ValueType := let 'mkValue t _ _ _ _ := v in t.
Definition obj (v : Value) : gmap string Value := let 'mkValue _ o _ _ _ := v in o.
Definition arr (v : Value) : list Value := let 'mkValue _ _ a _ _ := v in a.
Definition str (v : Value) : string := let 'mkValue _ _ _ s _ := v in s.
Definition num (v : Value) : ldouble := let 'mkValue _ _ _ _ n := v in n.

(** The constructors: a member that is not named keeps its default. *)
Definition Value_default : Value :=
  mkValue ValueType_Unknown ∅ [] EmptyString ld_zero.
Definition Value_of_type (t : ValueType) : Value :=
  mkValue t ∅ [] EmptyString ld_zero.

Definition makeObject (o : gmap string Value) : Value :=
  mkValue ValueType_Object o [] EmptyString ld_zero.
Definition makeArray (a : list Value) : Value :=
  mkValue ValueType_Array ∅ a EmptyString ld_zero.
Definition makeString (s : string) : Value :=
  mkValue ValueType_String ∅ [] s ld_zero.
Definition makeNumber (n : ldouble) : Value :=
  mkValue ValueType_Number ∅ [] EmptyString n.
Definition makeBoolean (b : bool) : Value :=
  let v := makeNumber (ld_of_Z (if b then 1 else 0)) in
  mkValue ValueType_Boolean (obj v) (arr v) (str v) (num v).
Definition makeNull : Value := Value_of_type ValueType_Null.

Definition toObject (v : Value) : gmap string Value := obj v.
Definition toArray (v : Value) : list Value := arr v.
Definition toString (v : Value) : string := str v.
Definition toBoolean (v : Value) : bool := negb (ld_is_zero (num v)).
Definition getType (v : Value) : ValueType := type v.

(** [operator[](std::string)] used as [v[key] = x]: insert or overwrite. *)
Definition assign_key (v : Value) (key : string) (x : Value) : Value :=
  mkValue (type v) (<[key := x]> (obj v)) (arr v) (str v) (num v).

(** [operator[](int)]. [std::vector::operator[]] does not check its
    argument: the reference it returns denotes element [idx] when [idx],
    converted to [size_t], is below [arr.size()], and the call is undefined
    otherwise. The reference is embedded as the position it denotes;
    [deref] reads through it and [assign_idx] writes through it. *)
Definition subscript_idx (v : Value) (idx : Z) : outcome nat :=
  if to_size_t idx <? Z.of_nat (length (arr v))
  then Return (Z.to_nat (to_size_t idx))
  else Undefined.

Definition deref (v : Value) (i : nat) : option Value := arr v !! i.

Definition assign_idx (v : Value) (i : nat) (x : Value) : Value :=
  mkValue (type v) (obj v) (<[i := x]> (arr v)) (str v) (num v).

Definition pushToArray (v : Value) (x : Value) : Value :=
  if decide (getType v = ValueType_Array)
  then mkValue (type v) (obj v) (arr v ++ [x])%list (str v) (num v)
  else v.

(** ** getRepresentation *)

(** The order in which [begin() .. end()] walks an [unordered_map] is
    unspecified, and two maps of equal content need not be walked alike
    (the order of libstdc++ follows the history of the insertions). The
    embedding takes the order as an argument, [begin_to_end]: for every
    place of the tree, given by the steps that lead to it from the root,
    the order in which the map at that place is walked. It is handed the
    map of the children already rendered. All that the statements assume
    of it is that at every place it lists every entry once
    ([walks_every_entry]). *)
Inductive step : Type :=
| at_index (i : nat)
| at_key (key : string).

Definition walk : Type :=
  list step -> gmap string (outcome string) -> list (string * outcome string).

(** The orders of the places at and below the child reached by [s]. *)
Definition inside (s : step) (begin_to_end : walk) : walk :=
  fun path => begin_to_end (s :: path).

(** [f] on the elements of a vector with their indices, counted from [i],
    and on the entries of a map with their keys. *)
Fixpoint map_indexed {A B} (f : nat -> A -> B) (i : nat) (l : list A)
  : list B :=
  match l with
  | [] => []
  | x :: l' => f i x :: map_indexed f (S i) l'
  end.

Definition map_with_key {A B} (f : string -> A -> B) (m : gmap string A)
  : gmap string B :=
  map_fold (fun key x acc => <[key := f key x]> acc) ∅ m.

Definition indentation (indent depth : Z) : outcome string :=
  let! n := int_mul indent depth in string_of_spaces n.

(** One turn of either [for] loop: the text so far, the line break and
    the indentation of pretty mode, what the body [item] appends, and the
    comma unless this is the last turn. *)
Definition for_body (indent depth : Z) (repr : string)
    (item : outcome string) (last : bool) : outcome string :=
  let! repr1 :=
    (if 0 <? indent
     then let! sp := indentation indent (depth + 1) in
          Return (repr +:+ str1 LF +:+ sp)
     else Return repr) in
  let! r := item in
  Return (repr1 +:+ r +:+ (if last then EmptyString else ",")).

(** The tail common to both containers. *)
Definition close_container (indent depth : Z) (repr : string)
    (closer : string) : outcome string :=
  let repr1 := if 0 <? indent then repr +:+ str1 LF else repr in
  let! sp := indentation indent depth in
  Return (repr1 +:+ sp +:+ closer).

Fixpoint for_each {A} (body : string -> A -> bool -> outcome string)
    (l : list A) (repr : string) : outcome string :=
  match l with
  | [] => Return repr
  | x :: l' =>
      let! repr' := body repr x (match l' with [] => true | _ => false end) in
      for_each body l' repr'
  end.

Fixpoint getRepresentation (begin_to_end : walk) (v : Value)
    (indent depth : Z) {struct v} : outcome string :=
  match type v with
  | ValueType_Null => Return "null"
  | ValueType_Boolean => Return (if toBoolean v then "true" else "false")
  | ValueType_String => Return (str1 dquote +:+ toString v +:+ str1 dquote)
  | ValueType_Number =>
      let! lnum := ld_to_long (num v) in
      if ld_is_zero (ld_sub (num v) (ld_of_Z lnum))
      then Return (to_string_long lnum)
      else Return (to_string_ldouble (num v))
  | ValueType_Array =>
      let! repr :=
        for_each
          (fun repr x last =>
             for_body indent depth repr x last)
          (map_indexed
             (fun i x =>
                getRepresentation (inside (at_index i) begin_to_end) x
                  indent (depth + 1))
             0 (toArray v))
          "[" in
      close_container indent depth repr "]"
  | ValueType_Object =>
      let! repr :=
        for_each
          (fun repr kv last =>
             for_body indent depth repr
               (let! r := snd kv in
                Return (str1 dquote +:+ fst kv +:+ str1 dquote +:+ ":"
                        +:+ (if 0 <? indent then " " else EmptyString)
                        +:+ r))
               last)
          (begin_to_end []
             (map_with_key
                (fun key x =>
                   getRepresentation (inside (at_key key) begin_to_end) x
                     indent (depth + 1))
                (toObject v)))
          "{" in
      close_container indent depth repr "}"
  | ValueType_Unknown => Return EmptyString
  end.

(** ** class Parser *)

(** The data members, and [cout]: the lines the parser has written to
    [std::cout], oldest first.

    [currIdx] is an [int] that the header compares with [content.size()],
    a [size_t]. The constructor moves it from -1 to 0 before any
    comparison and it only grows afterwards, so the conversion that the
    comparison applies never changes it, and the embedding compares the
    integers as they are. A [content] of more than [INT_MAX] characters,
    on which [++currIdx] would overflow, is outside the embedding. *)
Record Parser : Type := mkParser {
  content : string;
  currIdx : Z;
  currChar : ascii;
  currLine : Z;
  isOk : bool;
  cout : list string }.

Definition set_cursor (i : Z) (c : ascii) (p : Parser) : Parser :=
  mkParser (content p) i c (currLine p) (isOk p) (cout p).
Definition set_currLine (l : Z) (p : Parser) : Parser :=
  mkParser (content p) (currIdx p) (currChar p) l (isOk p) (cout p).
Definition set_isOk (b : bool) (p : Parser) : Parser :=
  mkParser (content p) (currIdx p) (currChar p) (currLine p) b (cout p).
Definition print (line : string) (p : Parser) : Parser :=
  mkParser (content p) (currIdx p) (currChar p) (currLine p) (isOk p)
           (cout p ++ [line])%list.

(** A member function: it reads and updates the parser, and ends as a
    call can end. *)
Definition M (A : Type) : Type := Parser -> outcome (A * Parser).

Definition ret {A} (a : A) : M A := fun p => Return (a, p).
Definition bind {A B} (m : M A) (k : A -> M B) : M B :=
  fun p => let! r := m p in k (fst r) (snd r).
Definition gets {A} (f : Parser -> A) : M A := fun p => Return (f p, p).
Definition modify (f : Parser -> Parser) : M unit := fun p => Return (tt, f p).
Definition lift {A} (o : outcome A) : M A := fun p => let! a := o in Return (a, p).
Definition when (b : bool) (m : M unit) : M unit := if b then m else ret tt.

Notation "x <- m ;; k" := (bind m (fun x => k))
  (at level 100, m at level 99, k at level 200, right associativity).
Notation "m ;; k" := (bind m (fun _ => k))
  (at level 100, k at level 200, right associativity).

(** [while (cond) body], where the body says whether it reached its end
    ([Continue]) or left through [break]. [L] holds the local variables the
    loop updates. The loop runs for at most [n] turns; every loop of the
    header tests [isEOF()] and moves the cursor in each turn it completes,
    and [n] is taken above the number of characters left (see [turns]), so
    that the bound is never reached ([parse_terminates]). *)
Inductive flow (L : Type) : Type := Continue (l : L) | Break (l : L).
Arguments Continue {L} l.
Arguments Break {L} l.

Fixpoint while {L} (n : nat) (cond : L -> Parser -> bool)
    (body : L -> M (flow L)) (l : L) : M L :=
  match n with
  | O => fun _ => OutOfFuel
  | S n' =>
      c <- gets (cond l);;
      if c then
        f <- body l;;
        match f with
        | Continue l' => while n' cond body l'
        | Break l' => ret l'
        end
      else ret l
  end.

Definition size (p : Parser) : Z := Z.of_nat (String.length (content p)).

(** The characters from the cursor to the end of [content]. *)
Definition remaining (p : Parser) : nat :=
  Z.to_nat (size p - currIdx p).

Definition turns : M nat := gets (fun p => S (remaining p)).

Definition advance_state (p : Parser) : Parser :=
  let i := currIdx p + 1 in
  if i <? size p
  then match String.get (Z.to_nat i) (content p) with
       | Some c => set_cursor i c p
       | None => set_cursor i (currChar p) p
       end
  else set_cursor i (currChar p) p.

Definition advance : M unit := modify advance_state.

Definition isEOF (p : Parser) : bool := size p <=? currIdx p.

Definition isWhitespace (c : ascii) : bool :=
  let n := N_of_ascii c in
  ((n =? 32) || (n =? 10) || (n =? 13) || (n =? 9))%N.

Definition skipWhitespace : M unit :=
  n <- turns;;
  while n
    (fun _ p => negb (isEOF p) && isWhitespace (currChar p))
    (fun _ =>
       c <- gets currChar;;
       when (Ascii.eqb c LF) (modify (fun p => set_currLine (currLine p + 1) p));;
       advance;;
       ret (Continue tt))
    tt.

Definition validateIdentifier (identifier : string) : M bool :=
  start <- gets currIdx;;
  n <- turns;;
  len <- while n
    (fun len p => negb (isEOF p)
                  && negb (len =? Z.of_nat (String.length identifier)))
    (fun len => advance;; ret (Continue (len + 1)))
    0;;
  text <- gets content;;
  sub <- lift (substr text start len);;
  ret (String.eqb sub identifier).

Definition reportError (msg : string) : M unit :=
  modify (fun p =>
    set_isOk false
      (print ("[ERROR] At line " +:+ to_string_long (currLine p) +:+ ": "
              +:+ msg +:+ str1 LF) p)).

Definition consume (c : ascii) (msg : string) : M bool :=
  ch <- gets currChar;;
  if negb (Ascii.eqb ch c) then
    reportError msg;;
    ret false
  else
    advance;;
    ret true.

Definition parseString : M string :=
  c <- gets currChar;;
  when (Ascii.eqb c dquote) advance;;
  start <- gets currIdx;;
  n <- turns;;
  len <- while n
    (fun _ p => negb (isEOF p) && negb (Ascii.eqb (currChar p) dquote))
    (fun len => advance;; ret (Continue (len + 1)))
    0;;
  consume dquote ("Expected '" +:+ str1 dquote +:+ "' for string end");;
  text <- gets content;;
  lift (substr text start len).

(** The characters the scanner of [parseNumber] accepts. *)
Definition isNumberChar (c : ascii) : bool :=
  isdigit c || Ascii.eqb c "+" || Ascii.eqb c "-" || Ascii.eqb c "."
  || Ascii.eqb c "e".

(** The locals of the scanning loop of [parseNumber]. *)
Record numberScan : Set := mkScan {
  scan_len : Z;
  floatingPoint : bool;
  exponent : bool }.

Definition parseNumber : M Value :=
  start <- gets currIdx;;
  n <- turns;;
  sc <- while n
    (fun _ p => negb (isEOF p) && isNumberChar (currChar p))
    (fun sc =>
       c <- gets currChar;;
       if Ascii.eqb c "." && floatingPoint sc then
         reportError "invalid number: duplicate floating point";;
         ret (Break sc)
       else
         let sc1 := if Ascii.eqb c "."
                    then mkScan (scan_len sc) true (exponent sc) else sc in
         if Ascii.eqb c "e" && exponent sc1 then
           reportError "invalid number: duplicate exponent symbol";;
           ret (Break sc1)
         else
           let sc2 := if Ascii.eqb c "e"
                      then mkScan (scan_len sc1) (floatingPoint sc1) true
                      else sc1 in
           advance;;
           ret (Continue (mkScan (scan_len sc2 + 1) (floatingPoint sc2)
                                 (exponent sc2))))
    (mkScan 0 false false);;
  text <- gets content;;
  (* try { ... } catch (const std::out_of_range&) { ... } *)
  fun p =>
    match (let! tok := substr text start (scan_len sc) in stod tok) with
    | Return d => Return (makeNumber d, p)
    | Throw std_out_of_range =>
        Return (makeNumber (ld_of_Z 0),
                print ("[WARNING] At line " +:+ to_string_long (currLine p)
                       +:+ ": number overflow" +:+ str1 LF) p)
    | Throw e => Throw e
    | Undefined => Undefined
    | OutOfFuel => OutOfFuel
    end.

(** [parseArray] and [parseObject] call [parseElement] back; they take it
    as the argument [element]. *)
Definition parseArray (element : M Value) : M Value :=
  c <- gets currChar;;
  when (Ascii.eqb c "[") advance;;
  skipWhitespace;;
  n <- turns;;
  a <- while n
    (fun _ p => negb (isEOF p) && negb (Ascii.eqb (currChar p) "]"))
    (fun a =>
       skipWhitespace;;
       x <- element;;
       let a' := (a ++ [x])%list in
       skipWhitespace;;
       c <- gets currChar;;
       if negb (Ascii.eqb c ",") then ret (Break a')
       else advance;; ret (Continue a'))
    [];;
  consume "]" "Expected ']' for array end";;
  ret (makeArray a).

Definition parseObject (element : M Value) : M Value :=
  c <- gets currChar;;
  when (Ascii.eqb c "{") advance;;
  skipWhitespace;;
  n <- turns;;
  o <- while n
    (fun _ p => negb (isEOF p) && negb (Ascii.eqb (currChar p) "}"))
    (fun o =>
       skipWhitespace;;
       name <- parseString;;
       skipWhitespace;;
       c <- gets currChar;;
       if negb (Ascii.eqb c ":") then
         reportError "Expected ':' for value assignment";;
         ret (Break o)
       else
         advance;;
         skipWhitespace;;
         x <- element;;
         skipWhitespace;;
         let o' := assign_key o name x in
         c <- gets currChar;;
         if negb (Ascii.eqb c ",") then ret (Break o')
         else advance;; ret (Continue o'))
    (makeObject ∅);;
  consume "}" "Expected '}' for object end";;
  ret o.

(** [parseElement]. Each [case] of the [switch] either returns a value
    ([Some]) or leaves the [switch] through [break] ([None]) and reaches the
    error report below it. [fuel] bounds the depth of the calls. *)
Fixpoint parseElement (fuel : nat) : M Value :=
  match fuel with
  | O => fun _ => OutOfFuel
  | S fuel' =>
      c <- gets currChar;;
      r <- (if Ascii.eqb c "{" then
              v <- parseObject (parseElement fuel');; ret (Some v)
            else if Ascii.eqb c "[" then
              v <- parseArray (parseElement fuel');; ret (Some v)
            else if Ascii.eqb c dquote then
              s <- parseString;; ret (Some (makeString s))
            else if Ascii.eqb c "t" then
              b <- validateIdentifier "true";;
              ret (if b then Some (makeBoolean true) else None)
            else if Ascii.eqb c "f" then
              b <- validateIdentifier "false";;
              ret (if b then Some (makeBoolean false) else None)
            else if Ascii.eqb c "n" then
              b <- validateIdentifier "null";;
              ret (if b then Some makeNull else None)
            else if Ascii.eqb c "+" || Ascii.eqb c "-" || isdigit c then
              v <- parseNumber;; ret (Some v)
            else if isWhitespace c then
              skipWhitespace;; ret None
            else ret None);;
      match r with
      | Some v => ret v
      | None =>
          c' <- gets currChar;;
          reportError ("Unexpected character: '" +:+ str1 c' +:+ "'");;
          ret Value_default
      end
  end.

(** [Parser(content)]: the members' initial values, then [advance()]. *)
Definition Parser_new (text : string) : Parser :=
  advance_state (mkParser text (-1) NUL 1 true []).

(** [parse()]. No call of [parseElement] is nested deeper than the number
    of characters of [content], which is what the fuel is set to
    ([parse_terminates]). *)
Definition parse : M Value :=
  modify (set_isOk true);;
  p <- gets id;;
  parseElement (S (String.length (content p))).

Definition isOK (p : Parser) : bool := isOk p.

(** ** The rest of the two classes *)

(** [operator[](std::string)] on its own, as in [v[key]] read or bound to a
    reference: [std::unordered_map::operator[]] inserts a [Value()] under
    a key that is missing. The call is embedded as the value after it, the
    reference as the key it denotes; [deref_key] reads through it and
    [assign_key] writes through it. *)
Definition subscript_key (v : Value) (key : string) : Value :=
  match obj v !! key with
  | Some _ => v
  | None =>
      mkValue (type v) (<[key := Value_default]> (obj v)) (arr v) (str v)
              (num v)
  end.

Definition deref_key (v : Value) (key : string) : option Value :=
  obj v !! key.

(** The line both file functions write when the file cannot be opened. *)
Definition open_error (filename : string) : string :=
  "[ERROR] Failed to open file " +:+ str1 dquote +:+ filename
  +:+ str1 dquote +:+ str1 LF.

(** [saveToFile(filename, indent)]: whether it succeeded, the files after
    the call, and what it wrote to [std::cout]. *)
Definition saveToFile
    (begin_to_end : walk)
    (v : Value) (filename : string) (indent : Z) (fs : FileSystem)
  : outcome (bool * FileSystem * list string) :=
  match ofstream_open fs filename with
  | None => Return (false, fs, [open_error filename])
  | Some fs1 =>
      let! text := getRepresentation begin_to_end v indent 0 in
      Return (true, ofstream_write fs1 filename text, [])
  end.

Definition readSize : nat := Z.to_nat 4096.

(** The loop of [fromFile], given [n] turns: the stream, the buffer and
    the text read so far, as they are when [read] fails. *)
Fixpoint fromFile_loop (n : nat) (stream : fstream) (buf out : string)
  : outcome (fstream * string * string) :=
  match n with
  | O => OutOfFuel
  | S n' =>
      let '(buf1, stream1) := stream_read readSize buf stream in
      if failbit stream1 then Return (stream1, buf1, out)
      else
        let! out1 := string_append out buf1 0 (Z.of_nat (gcount stream1)) in
        fromFile_loop n' stream1 buf1 out1
  end.

(** [Parser::fromFile(filename)]. Every turn of the loop but the last
    takes [readSize] characters from the stream, so the loop has ended
    after as many turns as the file has characters, and one more. The line
    written to [std::cout] when the file cannot be opened is kept in the
    [cout] of the parser returned. *)
Definition fromFile (fs : FileSystem) (filename : string) : outcome Parser :=
  match fstream_open fs filename with
  | None =>
      Return (set_isOk false (print (open_error filename)
                                (Parser_new EmptyString)))
  | Some stream =>
      let! r := fromFile_loop (S (String.length (unread stream))) stream
                  (replicate_char readSize NUL) EmptyString in
      let '(stream1, buf1, out1) := r in
      let! out2 := string_append out1 buf1 0 (Z.of_nat (gcount stream1)) in
      Return (Parser_new out2)
  end.

End JSON.

Import Std JSON.

(* ===================================================================== *)
(** * Vocabulary of the statements *)
(* ===================================================================== *)

(** ** Where the parser stands *)

(** The last character of [s], or [d] when [s] is empty. *)
Fixpoint last_char (s : string) (d : ascii) : ascii :=
  match s with
  | EmptyString => d
  | String c s' => last_char s' c
  end.

(** The first character of [s], or [d] when [s] is empty. *)
Definition head_or (s : string) (d : ascii) : ascii :=
  match s with
  | String c _ => c
  | EmptyString => d
  end.

(** [at_pos p pre suf]: the parser has read [pre] and stands before [suf];
    unless [suf] is empty, [currChar] is its first character. At the end of
    the input [currChar] is whatever it was before: [advance] leaves it. *)
Definition at_pos (p : Parser) (pre suf : string) : Prop :=
  content p = pre +:+ suf
  /\ currIdx p = Z.of_nat (String.length pre)
  /\ currChar p = head_or suf (currChar p).

(** The parser [p] once it has advanced over [s], with [rest] left to
    read. *)
Definition after (p : Parser) (s rest : string) : Parser :=
  set_cursor (currIdx p + Z.of_nat (String.length s))
             (head_or rest (last_char s (currChar p))) p.

(** ** Reports *)

(** The parser once [reportError msg] has run. *)
Definition reported (msg : string) (p : Parser) : Parser :=
  set_isOk false
    (print ("[ERROR] At line " +:+ to_string_long (currLine p) +:+ ": "
            +:+ msg +:+ str1 LF) p).

(** The line that [reportError msg] writes when the parser is on line 1. *)
Definition error_line (msg : string) : string :=
  "[ERROR] At line 1: " +:+ msg +:+ str1 LF.

(** The parser has failed and [line] is among what it wrote. *)
Definition failed_with (line : string) (p : Parser) : Prop :=
  isOk p = false /\ line ∈ cout p.

(** The message of [parseString] for a missing closing quote. *)
Definition string_end_msg : string :=
  "Expected '" +:+ str1 dquote +:+ "' for string end".

(** The line [parseNumber] writes when the conversion is out of range. *)
Definition overflow_warning (p : Parser) : string :=
  "[WARNING] At line " +:+ to_string_long (currLine p)
  +:+ ": number overflow" +:+ str1 LF.

(** ** Strings *)

Fixpoint String_forallb (f : ascii -> bool) (s : string) : bool :=
  match s with
  | EmptyString => true
  | String c s' => f c && String_forallb f s'
  end.

(** No character of [s] is the double quote. *)
Definition no_quote (s : string) : bool :=
  String_forallb (fun c => negb (Ascii.eqb c dquote)) s.

(** [parseString] past the optional opening quote: the statements of the
    header that follow [int start = currIdx;]. *)
Definition parseString_from (start : Z) : M string :=
  n <- turns;;
  len <- while n
    (fun _ p => negb (isEOF p) && negb (Ascii.eqb (currChar p) dquote))
    (fun len => advance;; ret (Continue (len + 1)))
    0;;
  consume dquote string_end_msg;;
  text <- gets content;;
  lift (substr text start len).

(** ** Numeric tokens *)

(** [scans tok fp ex]: the scanning loop of [parseNumber], started with the
    flags [fp] and [ex], runs over the whole of [tok] without a report:
    every character is one the loop accepts, and neither a second point
    nor a second [e] occurs. *)
Fixpoint scans (tok : string) (fp ex : bool) : bool :=
  match tok with
  | EmptyString => true
  | String c t =>
      isNumberChar c
      && negb (Ascii.eqb c "." && fp)
      && negb (Ascii.eqb c "e" && ex)
      && scans t (if Ascii.eqb c "." then true else fp)
                 (if Ascii.eqb c "e" then true else ex)
  end.

(** The scanning loop stops before [rest]: the input ends there, or the
    next character is not one the loop accepts. *)
Definition ends_number (rest : string) : Prop :=
  match rest with
  | EmptyString => True
  | String c _ => isNumberChar c = false
  end.

(** The characters on which [parseElement] calls [parseNumber]. *)
Definition starts_number (c : ascii) : bool :=
  Ascii.eqb c "+" || Ascii.eqb c "-" || isdigit c.

(** What [parseNumber] makes of the conversion of its token, in the state
    [q] reached by the scan. *)
Definition number_result (r : outcome ldouble) (q : Parser)
  : outcome (Value * Parser) :=
  match r with
  | Return d => Return (makeNumber d, q)
  | Throw std_out_of_range =>
      Return (makeNumber (ld_of_Z 0), print (overflow_warning q) q)
  | Throw e => Throw e
  | Undefined => Undefined
  | OutOfFuel => OutOfFuel
  end.

(** The number that the digits of [d] add to [acc], read as the digits
    before them. *)
Fixpoint uint_horner (d : Decimal.uint) (acc : N) : N :=
  match d with
  | Decimal.Nil => acc
  | Decimal.D0 d' => uint_horner d' (10 * acc + 0)%N
  | Decimal.D1 d' => uint_horner d' (10 * acc + 1)%N
  | Decimal.D2 d' => uint_horner d' (10 * acc + 2)%N
  | Decimal.D3 d' => uint_horner d' (10 * acc + 3)%N
  | Decimal.D4 d' => uint_horner d' (10 * acc + 4)%N
  | Decimal.D5 d' => uint_horner d' (10 * acc + 5)%N
  | Decimal.D6 d' => uint_horner d' (10 * acc + 6)%N
  | Decimal.D7 d' => uint_horner d' (10 * acc + 7)%N
  | Decimal.D8 d' => uint_horner d' (10 * acc + 8)%N
  | Decimal.D9 d' => uint_horner d' (10 * acc + 9)%N
  end.

(** ** Rendering and parsing back *)

(** What is known of the order in which an [unordered_map] is walked:
    at every place of the tree, every entry comes up once. *)
Definition walks_every_entry (order : walk) : Prop :=
  forall path m, order path m ≡ₚ map_to_list m.

(** One such order: every map is walked as [map_to_list] lists it. *)
Definition key_order : walk := fun _ m => map_to_list m.

(** Another: the map that is the second element of the outermost array is
    walked the other way round. *)
Definition second_reversed : walk :=
  fun path m =>
    match path with
    | [at_index 1] => reverse (map_to_list m)
    | _ => map_to_list m
    end.

(** A number that [std::stod] reads back from the text the serializer
    writes for it. (The text of a Number depends neither on the order of
    the maps nor on the indentation.) Every integer of magnitude below
    2^53 is such a number, see [reads_back_integer]. *)
Definition reads_back (x : ldouble) : Prop :=
  exists t, getRepresentation key_order (makeNumber x) 0 0 = Return t
            /\ stod t = Return x.

(** The trees the round trip is stated for: built by the factories, with
    no double quote in a String or in a key, and with Numbers that
    [std::stod] reads back from their text. *)
Inductive round_trippable : Value -> Prop :=
| rt_null : round_trippable makeNull
| rt_boolean (b : bool) : round_trippable (makeBoolean b)
| rt_string (s : string) : no_quote s = true -> round_trippable (makeString s)
| rt_number (x : ldouble) : reads_back x -> round_trippable (makeNumber x)
| rt_array (l : list Value) :
    (forall x, x ∈ l -> round_trippable x) -> round_trippable (makeArray l)
| rt_object (m : gmap string Value) :
    (forall k x, m !! k = Some x -> no_quote k = true) ->
    (forall k x, m !! k = Some x -> round_trippable x) ->
    round_trippable (makeObject m).

(** The text of a value begins with a character that is neither white
    space nor the bracket that ends an array: the loop of [parseArray]
    enters its body on it and [skipWhitespace] stays before it. *)
Definition value_head (text : string) : Prop :=
  match text with
  | String c _ => isWhitespace c = false /\ Ascii.eqb c "]" = false
  | EmptyString => False
  end.

(** [parses_back x text]: wherever [text] stands in the input, followed by
    something that cannot continue a number, [parseElement] reads exactly
    [text], returns [x] and changes nothing but the cursor. *)
Definition parses_back (x : Value) (text : string) : Prop :=
  forall (fuel : nat) (p : Parser) (pre rest : string),
    (String.length text < fuel)%nat ->
    at_pos p pre (text +:+ rest) ->
    ends_number rest ->
    parseElement fuel p = Return (x, after p text rest).

(** The texts of [l] with a comma between two neighbours. *)
Fixpoint join_comma (l : list string) : string :=
  match l with
  | [] => EmptyString
  | t :: l' =>
      t +:+ match l' with [] => EmptyString | _ => "," +:+ join_comma l' end
  end.

(** An entry of an Object as the key, the value and the text of the value;
    [entry_text] is what the compact rendering writes for it. *)
Definition entry_text (e : string * Value * string) : string :=
  str1 dquote +:+ e.1.1 +:+ str1 dquote +:+ ":" +:+ e.2.

Definition entry_ok (f : nat) (e : string * Value * string) : Prop :=
  no_quote e.1.1 = true /\ value_head e.2 /\ parses_back e.1.2 e.2
  /\ (String.length e.2 < f)%nat.

Definition insert_entry (m : gmap string Value) (e : string * Value * string)
  : gmap string Value :=
  <[e.1.1 := e.1.2]> m.

(** ** Termination *)

(** [p'] is a later state of the parse that [p] belongs to: the same
    input, the cursor not moved back. *)
Definition later (p p' : Parser) : Prop :=
  content p' = content p /\ currIdx p <= currIdx p'.

(** The same, with the cursor moved forward. *)
Definition strictly_later (p p' : Parser) : Prop :=
  content p' = content p /\ currIdx p < currIdx p'.

(** [m], run from [p], does not stop for lack of fuel, and what it returns
    satisfies [Q]. *)
Definition runs_to {A} (Q : A -> Parser -> Prop) (m : M A) (p : Parser)
  : Prop :=
  match m p with
  | Return (a, p') => Q a p'
  | OutOfFuel => False
  | _ => True
  end.

(** [m], run from [p], does not stop for lack of fuel, and a state it
    returns is a later one. *)
Definition runs {A} (m : M A) (p : Parser) : Prop :=
  runs_to (fun _ p' => later p p') m p.

(** What a turn of a loop must do to the cursor: move it forward if the
    loop is to go on. *)
Definition turn_ok {L} (p : Parser) (f : flow L) (p' : Parser) : Prop :=
  match f with
  | Continue _ => strictly_later p p'
  | Break _ => later p p'
  end.

(* ===================================================================== *)
(** * Vocabulary of the further properties *)
(* ===================================================================== *)

(** ** White space *)

(** The line feeds of [s]. *)
Fixpoint count_LF (s : string) : Z :=
  match s with
  | EmptyString => 0
  | String c s' => (if Ascii.eqb c LF then 1 else 0) + count_LF s'
  end.

(** Every character of [s] is one [isWhitespace] accepts. *)
Definition all_whitespace (s : string) : bool := String_forallb isWhitespace s.

(** [rest] does not begin with white space. *)
Definition no_space_ahead (rest : string) : Prop :=
  match rest with
  | EmptyString => True
  | String c _ => isWhitespace c = false
  end.

(** The loop of [skipWhitespace], given [n] turns. *)
Definition skipWhitespace_loop (n : nat) : M unit :=
  while n
    (fun _ p => negb (isEOF p) && isWhitespace (currChar p))
    (fun _ =>
       c <- gets currChar;;
       when (Ascii.eqb c LF) (modify (fun p => set_currLine (currLine p + 1) p));;
       advance;;
       ret (Continue tt))
    tt.

(** The parser [p] once [skipWhitespace] has gone over [ws]. *)
Definition skipped (p : Parser) (ws rest : string) : Parser :=
  set_currLine (currLine p + count_LF ws) (after p ws rest).

(** ** Brackets that are missing *)

(** [v] inside [n] arrays of one element. *)
Fixpoint nest (n : nat) (v : Value) : Value :=
  match n with
  | O => v
  | S k => makeArray [nest k v]
  end.

(** ** Reading a text back, up to the line counter *)

(** [q] is [p] with the cursor moved to the character after [pre], the
    flag and the output as they were. The line counter is left free. *)
Definition lands (p q : Parser) (pre rest : string) : Prop :=
  at_pos q pre rest /\ isOk q = isOk p /\ cout q = cout p.

(** [parseElement], started on [text] with a character after it that ends
    a number, returns [x] and stops behind [text], nothing reported. *)
Definition reads_as (x : Value) (text : string) : Prop :=
  forall (fuel : nat) (p : Parser) (pre rest : string),
    (String.length text < fuel)%nat ->
    at_pos p pre (text +:+ rest) ->
    ends_number rest ->
    exists q, parseElement fuel p = Return (x, q)
              /\ lands p q (pre +:+ text) rest.

(** ** Containers with white space

    The text between the brackets of an array: each item is white space
    and the text of an element. *)
Fixpoint array_body (items : list (string * string)) : string :=
  match items with
  | [] => EmptyString
  | it :: items' =>
      it.1 +:+ it.2
      +:+ match items' with
          | [] => EmptyString
          | _ => "," +:+ array_body items'
          end
  end.

(** The item [it] reads as [x] within the fuel [f]. *)
Definition item_ok (f : nat) (x : Value) (it : string * string) : Prop :=
  all_whitespace it.1 = true /\ value_head it.2 /\ reads_as x it.2
  /\ (String.length it.2 < f)%nat.

(** A member of an object as it is written: white space, the key, white
    space after the colon, and the text of the value [m_value]. *)
Record member : Type := mkMember {
  m_space : string;
  m_key : string;
  m_gap : string;
  m_value : Value;
  m_text : string }.

Definition member_text (e : member) : string :=
  m_space e +:+ str1 dquote +:+ m_key e +:+ str1 dquote +:+ ":"
  +:+ m_gap e +:+ m_text e.

(** The text between the braces of an object. *)
Fixpoint object_body (es : list member) : string :=
  match es with
  | [] => EmptyString
  | e :: es' =>
      member_text e
      +:+ match es' with
          | [] => EmptyString
          | _ => "," +:+ object_body es'
          end
  end.

(** The member [e] reads within the fuel [f]. *)
Definition member_ok (f : nat) (e : member) : Prop :=
  all_whitespace (m_space e) = true /\ no_quote (m_key e) = true
  /\ all_whitespace (m_gap e) = true /\ value_head (m_text e)
  /\ reads_as (m_value e) (m_text e)
  /\ (String.length (m_text e) < f)%nat.

(** [o[key] = value] for the member [e]. *)
Definition assign_member (o : Value) (e : member) : Value :=
  assign_key o (m_key e) (m_value e).

(** ** What the serializer writes around the entries *)

(** Before an element or a member at [depth]. *)
Definition separator (indent depth : Z) : string :=
  if 0 <? indent
  then str1 LF +:+ replicate_char (Z.to_nat (indent * depth)) " "
  else EmptyString.

(** Before the closing bracket of a container at [depth]. *)
Definition closing (indent depth : Z) : string :=
  (if 0 <? indent then str1 LF else EmptyString)
  +:+ replicate_char (Z.to_nat (indent * depth)) " ".

(** After the colon of a member. *)
Definition gap (indent : Z) : string :=
  if 0 <? indent then " " else EmptyString.

(** ** What a call never does

    A line of the output that [reportError] wrote. *)
Definition is_error_line (line : string) : bool :=
  String.prefix "[ERROR]" line.

(** The flag is set exactly when no error line was written. *)
Definition flag_tells_reports (p : Parser) : Prop :=
  isOk p = true <-> Forall (fun l => is_error_line l = false) (cout p).

(** [m], run from [p], neither is undefined nor throws anything but
    [std::invalid_argument], and what it returns satisfies [Q]. *)
Definition holds {A} (Q : A -> Parser -> Prop) (m : M A) (p : Parser) : Prop :=
  match m p with
  | Return (a, p') => Q a p'
  | Throw e => e = std_invalid_argument
  | Undefined => False
  | OutOfFuel => True
  end.

(** The characters that [parseElement] passes without reading a value. *)
Definition idle (c : ascii) : bool :=
  isWhitespace c || Ascii.eqb c ":" || Ascii.eqb c NUL.

(** At the end of the text, the current character is an [idle] one: no
    lexer is entered there. *)
Definition ready (p : Parser) : Prop :=
  isEOF p = true -> idle (currChar p) = true.

(** [p'] has the text of [p], and its flag tells of its reports if that of
    [p] does. *)
Definition keeps (p p' : Parser) : Prop :=
  content p' = content p
  /\ (flag_tells_reports p -> flag_tells_reports p').

(** [p'] has the text, the flag and the output of [p]. *)
Definition quiet (p p' : Parser) : Prop :=
  content p' = content p /\ isOk p' = isOk p /\ cout p' = cout p.

(** ** Tokens of [parseNumber] *)

(** [c] occurs in [s]. *)
Fixpoint holds_char (c : ascii) (s : string) : bool :=
  match s with
  | EmptyString => false
  | String a s' => Ascii.eqb a c || holds_char c s'
  end.

(** The second point, or the second [e], that stops the scan of
    [parseNumber], and what is reported for it. *)
Inductive duplicate : Set := second_point | second_exponent.

Definition duplicate_char (d : duplicate) : ascii :=
  match d with second_point => "." | second_exponent => "e" end.

Definition duplicate_msg (d : duplicate) : string :=
  match d with
  | second_point => "invalid number: duplicate floating point"
  | second_exponent => "invalid number: duplicate exponent symbol"
  end.

(** ** Levels of brackets *)

(** [v] has at most [n] levels of brackets: a value that is no container
    has none, and the elements of a container have one less than it. *)
Fixpoint nested_within (n : nat) (v : Value) {struct n} : Prop :=
  match getType v with
  | ValueType_Array =>
      match n with
      | O => False
      | S k => forall x, x ∈ toArray v -> nested_within k x
      end
  | ValueType_Object =>
      match n with
      | O => False
      | S k => forall key x, toObject v !! key = Some x -> nested_within k x
      end
  | _ => True
  end.

(** ** A comma before the closing bracket *)

(** The texts of [l], each followed by a comma. *)
Fixpoint each_with_comma (l : list string) : string :=
  match l with
  | [] => EmptyString
  | t :: l' => t +:+ "," +:+ each_with_comma l'
  end.

(* ===================================================================== *)
(** * Facts about strings *)
(* ===================================================================== *)

Section StringFacts.

Lemma append_nil_r (s : string) : s +:+ EmptyString = s.
Proof. induction s as [|c s IH]; simpl; [reflexivity | now rewrite IH]. Qed.

Lemma append_assoc (s t u : string) : (s +:+ t) +:+ u = s +:+ (t +:+ u).
Proof. induction s as [|c s IH]; simpl; [reflexivity | now rewrite IH]. Qed.

Lemma length_append (s t : string) :
  String.length (s +:+ t) = (String.length s + String.length t)%nat.
Proof. induction s as [|c s IH]; simpl; [reflexivity | now rewrite IH]. Qed.

Lemma get_append_length (s t : string) :
  String.get (String.length s) (s +:+ t) = String.get 0 t.
Proof. induction s as [|c s IH]; simpl; [reflexivity | exact IH]. Qed.

Lemma substring_0_append (s t : string) :
  substring 0 (String.length s) (s +:+ t) = s.
Proof.
  induction s as [|c s IH]; simpl.
  - now destruct t.
  - now rewrite IH.
Qed.

Lemma substring_append_middle (pre s t : string) :
  substring (String.length pre) (String.length s) (pre +:+ s +:+ t) = s.
Proof.
  induction pre as [|c pre IH]; simpl.
  - apply substring_0_append.
  - exact IH.
Qed.

Lemma replicate_char_0 (c : ascii) : replicate_char 0 c = EmptyString.
Proof. reflexivity. Qed.

End StringFacts.

(* ===================================================================== *)
(** * The cursor *)
(* ===================================================================== *)

Section Cursor.

Lemma last_char_append (s t : string) (d : ascii) :
  last_char (s +:+ t) d = last_char t (last_char s d).
Proof. revert d; induction s as [|c s IH]; intros d; simpl; auto. Qed.

Lemma at_pos_start (text : string) : at_pos (Parser_new text) EmptyString text.
Proof.
  unfold Parser_new, advance_state, at_pos, size; simpl.
  destruct text as [|c text]; simpl; [auto|].
  replace (0 <? Z.pos (Pos.of_succ_nat (String.length text))) with true
    by (symmetry; apply Z.ltb_lt; lia).
  simpl; auto.
Qed.

Lemma after_nil (p : Parser) (pre suf : string) :
  at_pos p pre suf -> after p EmptyString suf = p.
Proof.
  intros (_ & _ & Hc). unfold after, set_cursor; destruct p as [t i c l o w].
  simpl in *. rewrite Z.add_0_r. destruct suf; simpl in *; congruence.
Qed.

Lemma at_pos_after (p : Parser) (pre s rest : string) :
  at_pos p pre (s +:+ rest) -> at_pos (after p s rest) (pre +:+ s) rest.
Proof.
  intros (Ht & Hi & _). unfold at_pos, after; simpl.
  rewrite Ht, Hi, append_assoc, length_append.
  repeat split; [lia | now destruct rest].
Qed.

Lemma after_after (p : Parser) (s1 s2 rest : string) :
  after (after p s1 (s2 +:+ rest)) s2 rest = after p (s1 +:+ s2) rest.
Proof.
  unfold after, set_cursor; simpl. rewrite length_append, last_char_append.
  f_equal; [lia|].
  destruct s2 as [|c s2]; simpl; [now destruct rest | reflexivity].
Qed.

Lemma size_at (p : Parser) (pre suf : string) :
  at_pos p pre suf ->
  size p = Z.of_nat (String.length pre) + Z.of_nat (String.length suf).
Proof. intros (Ht & _). unfold size. rewrite Ht, length_append. lia. Qed.

Lemma isEOF_at (p : Parser) (pre suf : string) :
  at_pos p pre suf ->
  isEOF p = match suf with EmptyString => true | _ => false end.
Proof.
  intros H. unfold isEOF. rewrite (size_at _ _ _ H).
  destruct H as (_ & -> & _).
  destruct suf; simpl; [apply Z.leb_le | apply Z.leb_gt]; lia.
Qed.

Lemma remaining_at (p : Parser) (pre suf : string) :
  at_pos p pre suf -> remaining p = String.length suf.
Proof.
  intros H. unfold remaining. rewrite (size_at _ _ _ H).
  destruct H as (_ & -> & _). lia.
Qed.

Lemma currChar_at (p : Parser) (pre : string) (c : ascii) (suf : string) :
  at_pos p pre (String c suf) -> currChar p = c.
Proof. now intros (_ & _ & H). Qed.

Lemma advance_at (p : Parser) (pre : string) (c : ascii) (suf : string) :
  at_pos p pre (String c suf) -> advance_state p = after p (str1 c) suf.
Proof.
  intros H. unfold advance_state, after. rewrite (size_at _ _ _ H).
  destruct H as (Ht & Hi & Hc). simpl in Hc. rewrite Hi, Ht. simpl.
  replace (Z.to_nat (Z.of_nat (String.length pre) + 1))
    with (String.length (pre +:+ str1 c))
    by (rewrite length_append; simpl; lia).
  replace (pre +:+ String c suf) with ((pre +:+ str1 c) +:+ suf)
    by (now rewrite append_assoc).
  rewrite get_append_length.
  destruct suf as [|d suf]; simpl.
  - replace (_ <? _) with false by (symmetry; apply Z.ltb_ge; lia).
    now rewrite Hc.
  - replace (_ <? _) with true by (symmetry; apply Z.ltb_lt; lia).
    reflexivity.
Qed.

Lemma content_advance_state (p : Parser) :
  content (advance_state p) = content p.
Proof.
  unfold advance_state. destruct (_ <? _); [|reflexivity].
  now destruct (String.get _ _).
Qed.

(** At the end of the input [advance] moves the index and nothing else. *)
Lemma advance_at_end (p : Parser) (pre : string) :
  at_pos p pre EmptyString ->
  advance_state p = set_cursor (currIdx p + 1) (currChar p) p.
Proof.
  intros H. unfold advance_state. rewrite (size_at _ _ _ H).
  destruct H as (_ & -> & _). simpl.
  now replace (_ <? _) with false by (symmetry; apply Z.ltb_ge; lia).
Qed.

End Cursor.

(* ===================================================================== *)
(** * Running member functions *)
(* ===================================================================== *)

Section Running.

Lemma bind_Return {A B} (m : M A) (k : A -> M B) (p p' : Parser) (a : A) :
  m p = Return (a, p') -> bind m k p = k a p'.
Proof. unfold bind; intros ->; reflexivity. Qed.

Lemma while_stop {L} (n : nat) cond body (l : L) (p : Parser) :
  cond l p = false -> while (S n) cond body l p = Return (l, p).
Proof. intros H; simpl; unfold bind, gets; simpl; now rewrite H. Qed.

Lemma while_continue {L} (n : nat) cond body (l l' : L) (p p' : Parser) :
  cond l p = true -> body l p = Return (Continue l', p') ->
  while (S n) cond body l p = while n cond body l' p'.
Proof.
  intros H Hb; simpl; unfold bind at 1, gets; simpl; rewrite H.
  now rewrite (bind_Return _ _ _ _ _ Hb).
Qed.

Lemma while_break {L} (n : nat) cond body (l l' : L) (p p' : Parser) :
  cond l p = true -> body l p = Return (Break l', p') ->
  while (S n) cond body l p = Return (l', p').
Proof.
  intros H Hb; simpl; unfold bind at 1, gets; simpl; rewrite H.
  now rewrite (bind_Return _ _ _ _ _ Hb).
Qed.

(** [skipWhitespace] where there is nothing to skip. *)
Lemma skipWhitespace_stay (p : Parser) :
  isEOF p = true \/ isWhitespace (currChar p) = false ->
  skipWhitespace p = Return (tt, p).
Proof.
  intros H. unfold skipWhitespace, turns. unfold bind at 1, gets; simpl.
  unfold bind at 1, gets; simpl.
  destruct H as [-> | ->]; simpl; [reflexivity|].
  now rewrite andb_false_r.
Qed.

Lemma consume_match (p : Parser) (pre : string) (c : ascii) (suf msg : string) :
  at_pos p pre (String c suf) ->
  consume c msg p = Return (true, after p (str1 c) suf).
Proof.
  intros H. unfold consume, bind at 1, gets; simpl.
  rewrite (currChar_at _ _ _ _ H), Ascii.eqb_refl; simpl.
  unfold bind, advance, modify, ret; simpl.
  now rewrite (advance_at _ _ _ _ H).
Qed.

Lemma consume_mismatch (p : Parser) (c : ascii) (msg : string) :
  currChar p <> c ->
  consume c msg p = Return (false, reported msg p).
Proof.
  intros H. unfold consume, bind at 1, gets; simpl.
  apply Ascii.eqb_neq in H. now rewrite H.
Qed.

End Running.

#[local] Arguments while : simpl never.

(* ===================================================================== *)
(** * parseString *)
(* ===================================================================== *)

Section ParseString.

Lemma substr_at (text pre s rest : string) :
  text = pre +:+ s +:+ rest ->
  substr text (Z.of_nat (String.length pre)) (Z.of_nat (String.length s))
  = Return s.
Proof.
  intros ->. unfold substr. rewrite !length_append.
  replace (_ <? _) with false by (symmetry; apply Z.ltb_ge; lia).
  now rewrite !Nat2Z.id, substring_append_middle.
Qed.

Lemma last_char_no_quote (s : string) (d : ascii) :
  no_quote s = true -> d <> dquote -> last_char s d <> dquote.
Proof.
  revert d; induction s as [|c s IH]; intros d Hs Hd; simpl; [exact Hd|].
  simpl in Hs. apply andb_prop in Hs as [Hc Hs].
  apply IH; [exact Hs|]. apply negb_true_iff, Ascii.eqb_neq in Hc. exact Hc.
Qed.

(** The scanning loop of [parseString]: it runs over the characters that
    are not a quote and stops before the next quote, or at the end of the
    input. *)
Lemma scan_until_quote (s : string) :
  forall (n : nat) (len : Z) (p : Parser) (pre rest : string),
    at_pos p pre (s +:+ rest) ->
    no_quote s = true ->
    head_or rest dquote = dquote ->
    (String.length s < n)%nat ->
    while n
      (fun _ p => negb (isEOF p) && negb (Ascii.eqb (currChar p) dquote))
      (fun len => advance;; ret (Continue (len + 1)))
      len p
    = Return (len + Z.of_nat (String.length s), after p s rest).
Proof.
  induction s as [|c s IH]; intros n len p pre rest Hp Hs Hr Hn.
  - destruct n as [|n]; [simpl in Hn; lia|]. simpl in Hp.
    rewrite while_stop.
    + simpl. now rewrite Z.add_0_r, (after_nil _ _ _ Hp).
    + rewrite (isEOF_at _ _ _ Hp). destruct rest as [|d rest]; [reflexivity|].
      simpl in Hr. subst d. rewrite (currChar_at _ _ _ _ Hp).
      now rewrite Ascii.eqb_refl.
  - destruct n as [|n]; [simpl in Hn; lia|]. simpl in Hp, Hs, Hn.
    apply andb_prop in Hs as [Hc Hs].
    rewrite (while_continue _ _ _ _ (len + 1) p
               (after p (str1 c) (s +:+ rest))).
    + rewrite (IH n (len + 1) _ (pre +:+ str1 c) rest); try assumption.
      * rewrite after_after. simpl. f_equal. f_equal. lia.
      * now apply (at_pos_after p pre (str1 c) (s +:+ rest)).
      * lia.
    + rewrite (isEOF_at _ _ _ Hp), (currChar_at _ _ _ _ Hp). simpl.
      exact Hc.
    + unfold bind, advance, modify, ret; simpl.
      now rewrite (advance_at _ _ _ _ Hp).
Qed.

(** A string with both its quotes: [parseString] returns what stands
    between them, whatever it is, and reports nothing. *)
Lemma parseString_closed (p : Parser) (pre s rest : string) :
  at_pos p pre (String dquote (s +:+ String dquote rest)) ->
  no_quote s = true ->
  parseString p
  = Return (s, after p (String dquote (s +:+ str1 dquote)) rest).
Proof.
  intros Hp Hs. unfold parseString. unfold bind at 1, gets; simpl.
  rewrite (currChar_at _ _ _ _ Hp), Ascii.eqb_refl; simpl.
  unfold bind at 1, advance, modify; simpl.
  rewrite (advance_at _ _ _ _ Hp).
  pose proof (at_pos_after p pre (str1 dquote) _ Hp) as Hp1.
  set (p1 := after p (str1 dquote) (s +:+ String dquote rest)) in *.
  unfold bind at 1, gets; simpl. unfold turns, bind at 1, gets; simpl.
  rewrite (remaining_at _ _ _ Hp1).
  assert (Hn : (String.length s
                < S (String.length (s +:+ String dquote rest)))%nat)
    by (rewrite length_append; lia).
  rewrite (bind_Return _ _ _ _ _
             (scan_until_quote s _ 0 p1 _ (String dquote rest) Hp1 Hs
                eq_refl Hn)).
  pose proof (at_pos_after p1 _ s _ Hp1) as Hp2.
  rewrite (bind_Return _ _ _ _ _ (consume_match _ _ _ _ _ Hp2)).
  unfold bind, gets, lift; simpl.
  destruct Hp as (Ht & Hi & _). rewrite Ht, Hi.
  replace (Z.of_nat (String.length pre) + Z.of_nat 1)
    with (Z.of_nat (String.length (pre +:+ str1 dquote)))
    by (rewrite length_append; simpl; lia).
  rewrite (substr_at _ (pre +:+ str1 dquote) s (String dquote rest))
    by (now rewrite append_assoc).
  simpl. unfold p1. rewrite after_after.
  change (String dquote rest) with (str1 dquote +:+ rest).
  now rewrite after_after.
Qed.

Lemma parseString_quote (p : Parser) :
  currChar p = dquote ->
  parseString p
  = parseString_from (currIdx (advance_state p)) (advance_state p).
Proof.
  intros H. unfold parseString. unfold bind at 1, gets; simpl.
  now rewrite H, Ascii.eqb_refl.
Qed.

Lemma parseString_bare (p : Parser) :
  currChar p <> dquote ->
  parseString p = parseString_from (currIdx p) p.
Proof.
  intros H. unfold parseString. unfold bind at 1, gets; simpl.
  apply Ascii.eqb_neq in H. now rewrite H.
Qed.

(** The next quote ends the string. *)
Lemma parseString_from_closed (p : Parser) (pre s rest : string) :
  at_pos p pre (s +:+ String dquote rest) ->
  no_quote s = true ->
  parseString_from (Z.of_nat (String.length pre)) p
  = Return (s, after p (s +:+ str1 dquote) rest).
Proof.
  intros Hp Hs. unfold parseString_from, turns. unfold bind at 1, gets; simpl.
  rewrite (remaining_at _ _ _ Hp).
  assert (Hn : (String.length s
                < S (String.length (s +:+ String dquote rest)))%nat)
    by (rewrite length_append; lia).
  rewrite (bind_Return _ _ _ _ _
             (scan_until_quote s _ 0 p _ (String dquote rest) Hp Hs
                eq_refl Hn)).
  pose proof (at_pos_after p _ s _ Hp) as Hp2.
  rewrite (bind_Return _ _ _ _ _ (consume_match _ _ _ _ _ Hp2)).
  unfold bind, gets, lift; simpl.
  destruct Hp as (Ht & _). rewrite Ht.
  rewrite (substr_at _ pre s (String dquote rest)) by reflexivity.
  simpl. change (String dquote rest) with (str1 dquote +:+ rest).
  now rewrite after_after.
Qed.

(** No quote follows: the scan runs to the end of the input, where
    [currChar] is still the last character read. [consume] compares that
    character with the quote. *)
Lemma parseString_from_open (p : Parser) (pre s : string) :
  at_pos p pre s ->
  no_quote s = true ->
  parseString_from (Z.of_nat (String.length pre)) p
  = let p' := after p s EmptyString in
    if Ascii.eqb (currChar p') dquote
    then Return (s, advance_state p')
    else Return (s, reported string_end_msg p').
Proof.
  intros Hp Hs. unfold parseString_from, turns. unfold bind at 1, gets; simpl.
  rewrite (remaining_at _ _ _ Hp).
  assert (Hp' : at_pos p pre (s +:+ EmptyString)) by now rewrite append_nil_r.
  rewrite (bind_Return _ _ _ _ _
             (scan_until_quote s _ 0 p _ EmptyString Hp' Hs
                eq_refl (Nat.lt_succ_diag_r _))).
  unfold consume. unfold bind at 1. unfold bind at 1, gets; simpl.
  assert (Hsub : substr (content p) (Z.of_nat (String.length pre))
                   (Z.of_nat (String.length s)) = Return s).
  { destruct Hp as (Ht & _). rewrite Ht.
    apply (substr_at _ pre s EmptyString). now rewrite append_nil_r. }
  destruct (Ascii.eqb (last_char s (currChar p)) dquote) eqn:E; simpl;
    unfold bind, gets, lift, advance, reportError, modify, ret; simpl;
    rewrite ?content_advance_state, Z.add_0_l; simpl; now rewrite Hsub.
Qed.

End ParseString.

(* ===================================================================== *)
(** * parseNumber *)
(* ===================================================================== *)

Section ParseNumber.

Lemma parseNumber_token (p : Parser) (pre tok rest : string) :
  at_pos p pre (tok +:+ rest) ->
  scans tok false false = true ->
  ends_number rest ->
  parseNumber p = number_result (stod tok) (after p tok rest).
Proof.
  intros Hp Hs Hr. unfold parseNumber. unfold bind at 1, gets; simpl.
  unfold turns. unfold bind at 1, gets; simpl.
  match goal with
  | |- context [while _ ?c ?b _] => set (cond := c); set (body := b)
  end.
  assert (Hloop : forall tok n sc q pre0,
             at_pos q pre0 (tok +:+ rest) ->
             scans tok (floatingPoint sc) (exponent sc) = true ->
             (String.length tok < n)%nat ->
             exists sc',
               while n cond body sc q = Return (sc', after q tok rest)
               /\ scan_len sc' = scan_len sc + Z.of_nat (String.length tok)).
  { clear Hp Hs. intros tok0.
    induction tok0 as [|c t IH]; intros n sc q pre0 Hq Hs Hn.
    - destruct n as [|n]; [simpl in Hn; lia|]. simpl in Hq.
      exists sc. rewrite while_stop, (after_nil _ _ _ Hq).
      + split; [reflexivity | simpl; lia].
      + unfold cond. rewrite (isEOF_at _ _ _ Hq).
        destruct rest as [|d rest]; [reflexivity|].
        rewrite (currChar_at _ _ _ _ Hq). exact Hr.
    - destruct n as [|n]; [simpl in Hn; lia|]. simpl in Hq, Hs, Hn.
      apply andb_prop in Hs as [Hs Hs4]. apply andb_prop in Hs as [Hs Hs3].
      apply andb_prop in Hs as [Hs1 Hs2].
      apply negb_true_iff in Hs2, Hs3.
      set (sc1 := mkScan (scan_len sc + 1)
                    (if Ascii.eqb c "." then true else floatingPoint sc)
                    (if Ascii.eqb c "e" then true else exponent sc)).
      destruct (IH n sc1 (after q (str1 c) (t +:+ rest)) (pre0 +:+ str1 c))
        as (sc' & Hw & Hl).
      + now apply (at_pos_after q pre0 (str1 c) (t +:+ rest)).
      + exact Hs4.
      + lia.
      + exists sc'. split.
        * rewrite (while_continue _ _ _ _ sc1 q
                     (after q (str1 c) (t +:+ rest))).
          -- rewrite Hw, after_after. reflexivity.
          -- unfold cond.
             rewrite (isEOF_at _ _ _ Hq), (currChar_at _ _ _ _ Hq).
             exact Hs1.
          -- unfold body. unfold bind at 1, gets; simpl.
             rewrite (currChar_at _ _ _ _ Hq), Hs2.
             assert (E : Ascii.eqb c "e"
                         && exponent (if Ascii.eqb c "."
                                      then mkScan (scan_len sc) true (exponent sc)
                                      else sc) = false)
               by (destruct (Ascii.eqb c "."); exact Hs3).
             rewrite E.
             unfold bind, advance, modify, ret; simpl.
             rewrite (advance_at _ _ _ _ Hq). unfold sc1.
             destruct (Ascii.eqb c "."), (Ascii.eqb c "e"); reflexivity.
        * rewrite Hl. unfold sc1; simpl. lia. }
  destruct (Hloop tok (S (remaining p)) (mkScan 0 false false) p pre Hp Hs)
    as (sc' & Hw & Hl).
  { rewrite (remaining_at _ _ _ Hp), length_append. lia. }
  rewrite (bind_Return _ _ _ _ _ Hw).
  unfold bind, gets; simpl.
  destruct Hp as (Ht & Hi & _). rewrite Ht, Hi, Hl. simpl.
  rewrite (substr_at _ pre tok rest) by reflexivity. simpl.
  unfold number_result, overflow_warning.
  destruct (stod tok) as [d|[]| |]; reflexivity.
Qed.

End ParseNumber.

(* ===================================================================== *)
(** * validateIdentifier and the dispatch of parseElement *)
(* ===================================================================== *)

Section Dispatch.

Lemma validateIdentifier_match (p : Parser) (pre identifier rest : string) :
  at_pos p pre (identifier +:+ rest) ->
  validateIdentifier identifier p = Return (true, after p identifier rest).
Proof.
  intros Hp. unfold validateIdentifier. unfold bind at 1, gets; simpl.
  unfold turns. unfold bind at 1, gets; simpl.
  match goal with
  | |- context [while _ ?c ?b _] => set (cond := c); set (body := b)
  end.
  assert (Hloop : forall s n len q pre0,
             at_pos q pre0 (s +:+ rest) ->
             len + Z.of_nat (String.length s)
             = Z.of_nat (String.length identifier) ->
             (String.length s < n)%nat ->
             while n cond body len q
             = Return (Z.of_nat (String.length identifier), after q s rest)).
  { clear Hp. intros s.
    induction s as [|c s IH]; intros n len q pre0 Hq Hl Hn.
    - destruct n as [|n]; [simpl in Hn; lia|]. simpl in Hq, Hl.
      rewrite while_stop, (after_nil _ _ _ Hq).
      + f_equal. f_equal. lia.
      + unfold cond. replace (len =? _) with true
          by (symmetry; apply Z.eqb_eq; lia).
        now rewrite andb_false_r.
    - destruct n as [|n]; [simpl in Hn; lia|]. simpl in Hq, Hl, Hn.
      rewrite (while_continue _ _ _ _ (len + 1) q
                 (after q (str1 c) (s +:+ rest))).
      + rewrite (IH n (len + 1) _ (pre0 +:+ str1 c)).
        * now rewrite after_after.
        * now apply (at_pos_after q pre0 (str1 c) (s +:+ rest)).
        * lia.
        * lia.
      + unfold cond. rewrite (isEOF_at _ _ _ Hq). simpl.
        apply negb_true_iff, Z.eqb_neq. lia.
      + unfold body, bind, advance, modify, ret; simpl.
        now rewrite (advance_at _ _ _ _ Hq). }
  rewrite (bind_Return _ _ _ _ _
             (Hloop identifier (S (remaining p)) 0 p pre Hp eq_refl
                ltac:(rewrite (remaining_at _ _ _ Hp), length_append; lia))).
  unfold bind, gets, lift; simpl.
  destruct Hp as (Ht & Hi & _). rewrite Ht, Hi.
  rewrite (substr_at _ pre identifier rest) by reflexivity. simpl.
  now rewrite String.eqb_refl.
Qed.

(** [parse()] is [parseElement()] on the parser with its flag raised. *)
Lemma parse_unfold (p : Parser) :
  parse p = parseElement (S (String.length (content p))) (set_isOk true p).
Proof. reflexivity. Qed.

Lemma at_pos_set_isOk (b : bool) (p : Parser) (pre suf : string) :
  at_pos p pre suf -> at_pos (set_isOk b p) pre suf.
Proof. intros H; exact H. Qed.

Lemma set_isOk_Parser_new (text : string) :
  set_isOk true (Parser_new text) = Parser_new text.
Proof.
  unfold Parser_new, advance_state; simpl.
  destruct (_ <? _); [|reflexivity]. now destruct (String.get _ _).
Qed.

Lemma Parser_new_fields (text : string) :
  content (Parser_new text) = text
  /\ currLine (Parser_new text) = 1
  /\ isOk (Parser_new text) = true
  /\ cout (Parser_new text) = [].
Proof.
  unfold Parser_new, advance_state; simpl.
  destruct (_ <? _); [|now repeat split].
  now destruct (String.get _ _).
Qed.

Lemma parseElement_number (fuel : nat) (p : Parser) :
  starts_number (currChar p) = true ->
  parseElement (S fuel) p = parseNumber p.
Proof.
  intros H. simpl. unfold bind at 1, gets; simpl.
  assert (E : Ascii.eqb (currChar p) "{" = false
              /\ Ascii.eqb (currChar p) "[" = false
              /\ Ascii.eqb (currChar p) dquote = false
              /\ Ascii.eqb (currChar p) "t" = false
              /\ Ascii.eqb (currChar p) "f" = false
              /\ Ascii.eqb (currChar p) "n" = false).
  { destruct (currChar p) as [[] [] [] [] [] [] [] []];
      try discriminate H; repeat split; reflexivity. }
  destruct E as (-> & -> & -> & -> & -> & ->).
  unfold starts_number in H. rewrite H.
  unfold bind, ret. destruct (parseNumber p) as [[v q]| | |]; reflexivity.
Qed.

End Dispatch.

(* ===================================================================== *)
(** * long double *)
(* ===================================================================== *)

Section LongDouble.

Lemma strip_zeros_spec (p : positive) :
  forall e p' e',
    strip_zeros p e = (p', e') ->
    e <= e' /\ Zpos p = Zpos p' * 2 ^ (e' - e) /\ (forall q, p' <> xO q).
Proof.
  induction p as [p IH|p IH|]; intros e p' e' H; simpl in H.
  - injection H as <- <-. rewrite Z.sub_diag.
    split; [lia | split; [lia | discriminate]].
  - destruct (IH _ _ _ H) as (Hle & Hv & Ho).
    split; [lia | split; [| exact Ho]].
    replace (e' - e) with (Z.succ (e' - (e + 1))) by lia.
    rewrite Z.pow_succ_r by lia. rewrite Pos2Z.inj_xO, Hv. ring.
  - injection H as <- <-. rewrite Z.sub_diag.
    split; [lia | split; [lia | discriminate]].
Qed.

Lemma ld_of_Z_spec (n : Z) :
  exists m e, ld_of_Z n = LD m e /\ 0 <= e /\ m * 2 ^ e = n.
Proof.
  unfold ld_of_Z, ld_make. destruct n as [|p|p].
  - exists 0, 0. split; [reflexivity | split; lia].
  - destruct (strip_zeros p 0) as [p' e'] eqn:E.
    destruct (strip_zeros_spec _ _ _ _ E) as (Hle & Hv & _).
    exists (Zpos p'), e'. rewrite Z.sub_0_r in Hv.
    split; [reflexivity | split; lia].
  - destruct (strip_zeros p 0) as [p' e'] eqn:E.
    destruct (strip_zeros_spec _ _ _ _ E) as (Hle & Hv & _).
    exists (Zneg p'), e'. rewrite Z.sub_0_r in Hv.
    split; [reflexivity | split; [lia|]].
    rewrite <- !Pos2Z.opp_pos. lia.
Qed.

Lemma ld_trunc_of_Z (n : Z) : ld_trunc (ld_of_Z n) = n.
Proof.
  destruct (ld_of_Z_spec n) as (m & e & -> & He & Hv).
  unfold ld_trunc; simpl.
  now replace (0 <=? e) with true by (symmetry; apply Z.leb_le; lia).
Qed.

Lemma ld_make_nonzero (m e : Z) : m <> 0 -> mant (ld_make m e) <> 0.
Proof.
  intros H. unfold ld_make. destruct m as [|p|p]; [congruence| |];
    destruct (strip_zeros p e); simpl; discriminate.
Qed.

Lemma ld_sub_diag (x : ldouble) : ld_is_zero (ld_sub x x) = true.
Proof. unfold ld_sub. now rewrite Z.sub_diag. Qed.

(** In lowest terms, a negative exponent goes with an odd numerator. *)
Lemma ld_canonical_odd (x : ldouble) :
  ld_canonical x -> expo x < 0 -> Z.odd (mant x) = true.
Proof.
  unfold ld_canonical, ld_make. destruct x as [m e]; simpl. intros H He.
  destruct m as [|p|p].
  - injection H as <-. lia.
  - destruct (strip_zeros p e) as [p' e'] eqn:E. injection H as -> ->.
    destruct (strip_zeros_spec _ _ _ _ E) as (_ & _ & Ho).
    destruct p; [reflexivity | now destruct (Ho p) | reflexivity].
  - destruct (strip_zeros p e) as [p' e'] eqn:E. injection H as -> ->.
    destruct (strip_zeros_spec _ _ _ _ E) as (_ & _ & Ho).
    destruct p; [reflexivity | now destruct (Ho p) | reflexivity].
Qed.

(** A value with an odd numerator over a power of two is not its own
    integer part. *)
Lemma ld_sub_trunc_nonzero (x : ldouble) :
  ld_canonical x -> expo x < 0 ->
  ld_is_zero (ld_sub x (ld_of_Z (ld_trunc x))) = false.
Proof.
  intros Hc He. pose proof (ld_canonical_odd x Hc He) as Ho.
  destruct (ld_of_Z_spec (ld_trunc x)) as (m & e & E & Hle & Hv).
  rewrite E. unfold ld_sub, ld_is_zero; simpl.
  rewrite Z.min_l by lia. rewrite Z.sub_diag, Z.mul_1_r.
  apply Z.eqb_neq, ld_make_nonzero. intros H.
  assert (Hm : mant x = 2 * (m * 2 ^ (e - expo x - 1))).
  { replace (e - expo x) with (Z.succ (e - expo x - 1)) in H by lia.
    rewrite Z.pow_succ_r in H by lia. lia. }
  rewrite Hm, Z.odd_mul in Ho. discriminate Ho.
Qed.

Lemma render_integral
    (order : walk)
    (n indent depth : Z) :
  LONG_MIN <= n <= LONG_MAX ->
  getRepresentation order (makeNumber (ld_of_Z n)) indent depth
  = Return (to_string_long n).
Proof.
  intros Hn. simpl. unfold ld_to_long. rewrite ld_trunc_of_Z.
  replace (LONG_MIN <=? n) with true by (symmetry; apply Z.leb_le; lia).
  replace (n <=? LONG_MAX) with true by (symmetry; apply Z.leb_le; lia).
  simpl. now rewrite ld_sub_diag.
Qed.

Lemma render_fractional
    (order : walk)
    (x : ldouble) (indent depth : Z) :
  ld_canonical x -> expo x < 0 ->
  LONG_MIN <= ld_trunc x <= LONG_MAX ->
  getRepresentation order (makeNumber x) indent depth
  = Return (to_string_ldouble x).
Proof.
  intros Hc He Hn. simpl. unfold ld_to_long.
  replace (LONG_MIN <=? ld_trunc x) with true
    by (symmetry; apply Z.leb_le; lia).
  replace (ld_trunc x <=? LONG_MAX) with true
    by (symmetry; apply Z.leb_le; lia).
  simpl. now rewrite ld_sub_trunc_nonzero.
Qed.

End LongDouble.

(* ===================================================================== *)
(** * Decimal text and std::stod on integers *)
(* ===================================================================== *)

Section Decimal.

Lemma string_of_uint_digits (d : Decimal.uint) :
  String_forallb isdigit (NilEmpty.string_of_uint d) = true.
Proof. induction d; simpl; auto. Qed.

Lemma scan_digits_uint (d : Decimal.uint) :
  forall acc cnt,
    scan_digits (NilEmpty.string_of_uint d) acc cnt
    = (uint_horner d acc, (cnt + Decimal.nb_digits d)%nat, EmptyString).
Proof.
  induction d; intros acc cnt; simpl;
    [ now rewrite Nat.add_0_r
    | rewrite IHd; f_equal; f_equal; lia .. ].
Qed.

Lemma uint_horner_acc (d : Decimal.uint) :
  forall acc, uint_horner d (Npos acc) = Npos (Pos.of_uint_acc d acc).
Proof.
  induction d; intros acc; simpl; [reflexivity | rewrite <- IHd; f_equal; lia ..].
Qed.

Lemma uint_horner_0 (d : Decimal.uint) : uint_horner d 0 = Pos.of_uint d.
Proof.
  induction d; simpl; [reflexivity | exact IHd | apply uint_horner_acc ..].
Qed.

Lemma scan_string_of_N (n : N) :
  scan_digits (string_of_N n) 0 0
  = (n, Decimal.nb_digits (N.to_uint n), EmptyString).
Proof.
  unfold string_of_N. rewrite scan_digits_uint, uint_horner_0. simpl.
  change (Pos.of_uint (N.to_uint n)) with (N.of_uint (N.to_uint n)).
  now rewrite DecimalN.Unsigned.of_to.
Qed.

Lemma N_to_uint_nonnil (n : N) : N.to_uint n <> Decimal.Nil.
Proof.
  destruct n; simpl; [discriminate | apply Unsigned.to_uint_nonnil].
Qed.

(** The text of a natural number begins with a digit. *)
Lemma string_of_N_head (n : N) :
  exists c t, string_of_N n = String c t /\ isdigit c = true.
Proof.
  unfold string_of_N. pose proof (N_to_uint_nonnil n) as H.
  destruct (N.to_uint n); [congruence | simpl; eauto ..].
Qed.

Lemma nb_digits_N_to_uint (n : N) : (0 < Decimal.nb_digits (N.to_uint n))%nat.
Proof.
  pose proof (N_to_uint_nonnil n) as H.
  destruct (N.to_uint n); [congruence | simpl; lia ..].
Qed.

Lemma digits2_pos_size (p : positive) : digits2_pos p = Pos.size p.
Proof. induction p; simpl; congruence. Qed.

Lemma digits2_pos_bound (p : positive) :
  Zpos p < 2 ^ 53 -> Zpos (digits2_pos p) <= 53.
Proof.
  intros H. rewrite digits2_pos_size.
  pose proof (Pos.size_le p) as Hs.
  destruct (Z.le_gt_cases (Zpos (Pos.size p)) 53) as [|Hgt]; [assumption|exfalso].
  assert (2 ^ 54 <= 2 ^ Zpos (Pos.size p)) by (apply Z.pow_le_mono_r; lia).
  assert (Zpos (2 ^ Pos.size p) <= Zpos p~0) by exact Hs.
  rewrite Pos2Z.inj_pow in H1. rewrite Pos2Z.inj_xO in H1. lia.
Qed.

Lemma digits2_pos_iter (p k : positive) :
  digits2_pos (Pos.iter xO p k) = (digits2_pos p + k)%positive.
Proof.
  induction k using Pos.peano_ind.
  - simpl. lia.
  - rewrite Pos.iter_succ. simpl. rewrite IHk. lia.
Qed.

Lemma strip_zeros_iter (p k : positive) (e : Z) :
  strip_zeros (Pos.iter xO p k) e = strip_zeros p (e + Zpos k).
Proof.
  revert e. induction k using Pos.peano_ind; intros e.
  - reflexivity.
  - rewrite Pos.iter_succ. simpl. rewrite IHk. f_equal. lia.
Qed.

Lemma fexp_binary64 (x : Z) : -1021 <= x -> fexp 53 1024 x = x - 53.
Proof. intros H. unfold fexp, emin. lia. Qed.

Lemma binary_round_aux_exact (neg : bool) (m : positive) (e : Z) :
  Zpos (digits2_pos m) = 53 -> -1074 <= e <= 971 ->
  binary_round_aux 53 1024 neg (Zpos m) e loc_Exact = S754_finite neg m e.
Proof.
  intros Hd He. unfold binary_round_aux, shr_fexp. simpl Zdigits2.
  rewrite Hd, fexp_binary64 by lia.
  replace (53 + e - 53 - e) with 0 by lia. simpl.
  rewrite Hd, fexp_binary64 by lia.
  replace (53 + e - 53 - e) with 0 by lia. simpl.
  now replace (e <=? 1024 - 53) with true by (symmetry; apply Z.leb_le; lia).
Qed.

Lemma binary_round_integer (neg : bool) (q : positive) :
  Zpos q < 2 ^ 53 ->
  exists mr er,
    binary_round 53 1024 neg q 0 = S754_finite neg mr er
    /\ Zpos (digits2_pos mr) = 53
    /\ strip_zeros mr er = strip_zeros q 0.
Proof.
  intros Hq. pose proof (digits2_pos_bound q Hq) as Hd.
  unfold binary_round, shl_align.
  rewrite fexp_binary64 by lia.
  destruct (Zpos (digits2_pos q) + 0 - 53 - 0) as [|k|k] eqn:E; [| lia |].
  - exists q, 0. rewrite binary_round_aux_exact by lia.
    split; [reflexivity | split; [lia | reflexivity]].
  - exists (Pos.iter xO q k), (Zpos (digits2_pos q) + 0 - 53).
    assert (Hk : Zpos (digits2_pos (Pos.iter xO q k)) = 53)
      by (rewrite digits2_pos_iter; lia).
    rewrite binary_round_aux_exact by lia.
    split; [reflexivity | split; [exact Hk|]].
    rewrite strip_zeros_iter. f_equal. lia.
Qed.

Lemma isdigit_facts (c : ascii) :
  isdigit c = true ->
  isspace c = false /\ isNumberChar c = true /\ starts_number c = true
  /\ isWhitespace c = false
  /\ Ascii.eqb c "." = false /\ Ascii.eqb c "e" = false
  /\ Ascii.eqb c "]" = false
  /\ (forall t, scan_sign (String c t) = (false, String c t)).
Proof.
  intros H. destruct c as [[] [] [] [] [] [] [] []];
    try discriminate H; repeat split; reflexivity.
Qed.

Lemma strtod_decimal_digits (s : string) (c : ascii) (t : string) (m : N) (k : nat) :
  s = String c t -> isdigit c = true ->
  scan_digits s 0 0 = (m, k, EmptyString) -> (0 < k)%nat ->
  strtod_decimal s = Some (false, m, 0)
  /\ strtod_decimal (String "-" s) = Some (true, m, 0).
Proof.
  intros -> Hc Hs Hk. destruct (isdigit_facts c Hc) as (Hsp & _ & _ & _ & _ & _ & _ & Hsg).
  assert (Hk0 : (k + 0 =? 0)%nat = false) by (apply Nat.eqb_neq; lia).
  split; unfold strtod_decimal.
  - simpl skip_space. rewrite Hsp, Hsg, Hs. simpl. now rewrite Hk0.
  - change (skip_space (String "-" (String c t)))
      with (String "-" (String c t)).
    change (scan_sign (String "-" (String c t))) with (true, String c t).
    cbv beta iota. rewrite Hs. simpl. now rewrite Hk0.
Qed.

Lemma stod_integer (n : Z) :
  - 2 ^ 53 < n < 2 ^ 53 -> stod (to_string_long n) = Return (ld_of_Z n).
Proof.
  intros Hn.
  assert (Hcore : forall (neg : bool) (q : positive) (s : string),
             Zpos q < 2 ^ 53 ->
             strtod_decimal s = Some (neg, Npos q, 0) ->
             stod s = Return (ld_make (if neg then Zneg q else Zpos q) 0)).
  { intros neg q s Hq Hs. unfold stod. rewrite Hs. unfold round_binary64.
    simpl. rewrite Pos.mul_1_r.
    destruct (binary_round_integer neg q Hq) as (mr & er & -> & _ & Hz).
    unfold tiny. simpl. destruct neg; unfold ld_make; now rewrite Hz. }
  destruct n as [|p|p].
  - reflexivity.
  - unfold to_string_long. simpl Z.to_N.
    destruct (string_of_N_head (Npos p)) as (c & t & Hs & Hc).
    destruct (strtod_decimal_digits _ c t _ _ Hs Hc (scan_string_of_N _)
                (nb_digits_N_to_uint _)) as [H _].
    apply (Hcore false p _ ltac:(lia) H).
  - unfold to_string_long.
    destruct (string_of_N_head (Npos p)) as (c & t & Hs & Hc).
    destruct (strtod_decimal_digits _ c t _ _ Hs Hc (scan_string_of_N _)
                (nb_digits_N_to_uint _)) as [_ H].
    apply (Hcore true p _ ltac:(lia) H).
Qed.

End Decimal.

(* ===================================================================== *)
(** * Parsing back what getRepresentation wrote *)
(* ===================================================================== *)

Lemma scans_digits (s : string) (fp ex : bool) :
  String_forallb isdigit s = true -> scans s fp ex = true.
Proof.
  revert fp ex. induction s as [|c s IH]; intros fp ex H; simpl; [reflexivity|].
  simpl in H. apply andb_prop in H as [Hc Hs].
  destruct (isdigit_facts c Hc) as (_ & -> & _ & _ & -> & -> & _).
  simpl. now apply IH.
Qed.

Lemma to_string_long_token (n : Z) :
  scans (to_string_long n) false false = true
  /\ exists c t, to_string_long n = String c t
                 /\ starts_number c = true
                 /\ isWhitespace c = false /\ Ascii.eqb c "]" = false.
Proof.
  destruct n as [|p|p]; unfold to_string_long; simpl Z.to_N.
  - split; [reflexivity|]. exists "0"%char, EmptyString. repeat split.
  - split; [apply scans_digits, string_of_uint_digits|].
    destruct (string_of_N_head (Npos p)) as (c & t & Hs & Hc).
    destruct (isdigit_facts c Hc) as (_ & _ & ? & ? & _ & _ & ? & _).
    exists c, t. auto.
  - split.
    + change (scans (string_of_N (Npos p)) false false = true).
      apply scans_digits, string_of_uint_digits.
    + exists "-"%char, (string_of_N (Npos p)). repeat split.
Qed.

Lemma for_body_compact (depth : Z) (repr t : string) (last : bool) :
  for_body 0 depth repr (Return t) last
  = Return (repr +:+ t +:+ (if last then EmptyString else ",")).
Proof. reflexivity. Qed.

Lemma for_each_texts (depth : Z) (items : list (outcome string))
    (texts : list string) :
  Forall2 (fun o t => o = Return t) items texts ->
  forall repr,
    for_each (fun repr x last => for_body 0 depth repr x last) items repr
    = Return (repr +:+ join_comma texts).
Proof.
  induction 1 as [|o t items texts Ho H2 IH]; intros repr; simpl.
  - now rewrite append_nil_r.
  - subst o. rewrite for_body_compact. simpl. rewrite IH.
    f_equal. rewrite !append_assoc. f_equal. f_equal.
    destruct items, texts; simpl; try reflexivity; inversion H2.
Qed.

Lemma for_each_map {A B} (f : A -> B) body (l : list A) :
  forall repr,
    for_each (fun repr x last => body repr (f x) last) l repr
    = for_each body (map f l) repr.
Proof.
  induction l as [|x l IH]; intros repr; simpl; [reflexivity|].
  replace (match map f l with [] => true | _ => false end)
    with (match l with [] => true | _ => false end) by now destruct l.
  destruct (body repr (f x) _); simpl; auto.
Qed.

Lemma close_container_compact (depth : Z) (repr closer : string) :
  close_container 0 depth repr closer = Return (repr +:+ closer).
Proof. reflexivity. Qed.

Lemma parses_back_identifier (identifier : string) (c : ascii) (t : string)
    (v : Value) :
  identifier = String c t ->
  (c = "t"%char /\ identifier = "true" /\ v = makeBoolean true)
  \/ (c = "f"%char /\ identifier = "false" /\ v = makeBoolean false)
  \/ (c = "n"%char /\ identifier = "null" /\ v = makeNull) ->
  parses_back v identifier.
Proof.
  intros Hid Hcase fuel p pre rest Hf Hp Hr.
  destruct fuel as [|fuel]; [lia|].
  pose proof (validateIdentifier_match p pre identifier rest Hp) as Hv.
  rewrite Hid in Hp. simpl in Hp. pose proof (currChar_at _ _ _ _ Hp) as Hc.
  simpl. unfold bind at 1, gets; simpl. rewrite Hc.
  destruct Hcase as [(-> & Hi & ->) | [(-> & Hi & ->) | (-> & Hi & ->)]];
    simpl; rewrite <- Hi; unfold bind at 1;
    rewrite (bind_Return _ _ _ _ _ Hv); reflexivity.
Qed.

Lemma parses_back_string (s : string) :
  no_quote s = true ->
  parses_back (makeString s) (str1 dquote +:+ s +:+ str1 dquote).
Proof.
  intros Hs fuel p pre rest Hf Hp Hr.
  destruct fuel as [|fuel]; [lia|].
  simpl in Hp. rewrite append_assoc in Hp. simpl in Hp.
  pose proof (currChar_at _ _ _ _ Hp) as Hc.
  simpl parseElement. unfold bind at 1, gets; simpl. rewrite Hc. simpl.
  unfold bind at 1.
  rewrite (bind_Return _ _ _ _ _ (parseString_closed p pre s rest Hp Hs)).
  reflexivity.
Qed.

Lemma scans_digits_append (s rest : string) (fp ex : bool) :
  String_forallb isdigit s = true ->
  scans (s +:+ rest) fp ex = scans rest fp ex.
Proof.
  revert fp ex. induction s as [|c s IH]; intros fp ex H; simpl;
    [reflexivity|].
  simpl in H. apply andb_prop in H as [Hc Hs].
  destruct (isdigit_facts c Hc) as (_ & -> & _ & _ & -> & -> & _).
  simpl. now apply IH.
Qed.

Lemma replicate_char_digits (n : nat) :
  String_forallb isdigit (replicate_char n "0") = true.
Proof. induction n as [|n IH]; simpl; [reflexivity | exact IH]. Qed.

Lemma String_forallb_append (f : ascii -> bool) (s t : string) :
  String_forallb f s = true -> String_forallb f t = true ->
  String_forallb f (s +:+ t) = true.
Proof.
  intros Hs Ht. induction s as [|c s IH]; simpl; [exact Ht|].
  simpl in Hs. apply andb_prop in Hs as [Hc Hs]. now rewrite Hc, IH.
Qed.

(** The text [std::to_string] gives a [long double] is one that the
    scanner of [parseNumber] reads whole, and it begins with a digit or a
    minus sign. *)
Lemma to_string_ldouble_token (x : ldouble) :
  scans (to_string_ldouble x) false false = true
  /\ exists c t, to_string_ldouble x = String c t
                 /\ starts_number c = true
                 /\ isWhitespace c = false /\ Ascii.eqb c "]" = false.
Proof.
  unfold to_string_ldouble.
  set (k := if 0 <=? expo x then _ else _).
  assert (Hfrac : forall fp,
             scans ("." +:+ pad_zeros 6 (Z.to_N (k mod 10 ^ 6))) false fp
             = true).
  { intros fp. simpl. apply scans_digits. unfold pad_zeros.
    apply String_forallb_append;
      [apply replicate_char_digits | apply string_of_uint_digits]. }
  assert (Hint : scans (string_of_N (Z.to_N (k / 10 ^ 6)) +:+ "."
                        +:+ pad_zeros 6 (Z.to_N (k mod 10 ^ 6))) false false
                 = true).
  { rewrite scans_digits_append by apply string_of_uint_digits.
    apply Hfrac. }
  destruct (mant x <? 0).
  - split.
    + change (scans (String "-" (string_of_N (Z.to_N (k / 10 ^ 6)) +:+ "."
                                 +:+ pad_zeros 6 (Z.to_N (k mod 10 ^ 6))))
                false false = true).
      simpl scans at 1. exact Hint.
    + eexists "-"%char, _. split; [reflexivity|]. now repeat split.
  - split; [exact Hint|].
    destruct (string_of_N_head (Z.to_N (k / 10 ^ 6))) as (c & t & Hs & Hc).
    destruct (isdigit_facts c Hc) as (_ & _ & ? & ? & _ & _ & ? & _).
    exists c, (t +:+ "." +:+ pad_zeros 6 (Z.to_N (k mod 10 ^ 6))).
    simpl. rewrite Hs. auto.
Qed.

(** So is every text the serializer writes for a Number. *)
Lemma number_text_token
    (order : walk)
    (x : ldouble) (indent depth : Z) (t : string) :
  getRepresentation order (makeNumber x) indent depth = Return t ->
  scans t false false = true
  /\ exists c t', t = String c t'
                  /\ starts_number c = true
                  /\ isWhitespace c = false /\ Ascii.eqb c "]" = false.
Proof.
  simpl. destruct (ld_to_long x) as [lnum| | |]; simpl; try discriminate.
  destruct (ld_is_zero _); intros H; injection H as <-.
  - destruct (to_string_long_token lnum) as (Hs & c & t & Ht & Hc & Hw).
    split; [exact Hs|]. exists c, t. auto.
  - apply to_string_ldouble_token.
Qed.

Lemma parses_back_number (x : ldouble) (t : string) :
  getRepresentation key_order (makeNumber x) 0 0 = Return t ->
  stod t = Return x ->
  parses_back (makeNumber x) t.
Proof.
  intros Ht Hx fuel p pre rest Hf Hp Hr.
  destruct fuel as [|fuel]; [lia|].
  destruct (number_text_token _ _ _ _ _ Ht) as (Hs & c & t' & Hc & Hn & _).
  rewrite parseElement_number.
  - now rewrite (parseNumber_token _ _ _ _ Hp Hs Hr), Hx.
  - rewrite Hc in Hp. simpl in Hp. now rewrite (currChar_at _ _ _ _ Hp).
Qed.

(** An integer of magnitude below 2^53 is written in decimal, and a
    [double] holds it exactly. *)
Lemma reads_back_integer (n : Z) :
  - 2 ^ 53 < n < 2 ^ 53 -> reads_back (ld_of_Z n).
Proof.
  intros Hn. exists (to_string_long n). split.
  - apply render_integral. unfold LONG_MIN, LONG_MAX. lia.
  - now apply stod_integer.
Qed.

Lemma after_after_eq (p : Parser) (s1 r1 s2 rest : string) :
  r1 = s2 +:+ rest ->
  after (after p s1 r1) s2 rest = after p (s1 +:+ s2) rest.
Proof. intros ->. apply after_after. Qed.

Lemma skipWhitespace_at (p : Parser) (pre : string) (c : ascii) (suf : string) :
  at_pos p pre (String c suf) -> isWhitespace c = false ->
  skipWhitespace p = Return (tt, p).
Proof.
  intros Hp Hc. apply skipWhitespace_stay. right.
  now rewrite (currChar_at _ _ _ _ Hp).
Qed.

Lemma parseArray_elements (f : nat) (xs : list Value) (texts : list string)
    (p : Parser) (pre rest : string) :
  Forall2 (fun x t => value_head t /\ parses_back x t
                      /\ (String.length t < f)%nat) xs texts ->
  at_pos p pre ("[" +:+ join_comma texts +:+ "]" +:+ rest) ->
  parseArray (parseElement f) p
  = Return (makeArray xs, after p ("[" +:+ join_comma texts +:+ "]") rest).
Proof.
  intros Hall Hp. unfold parseArray. unfold bind at 1, gets; simpl.
  simpl in Hp. rewrite (currChar_at _ _ _ _ Hp). simpl.
  unfold bind at 1, advance, modify; simpl. rewrite (advance_at _ _ _ _ Hp).
  pose proof (at_pos_after p pre (str1 "[") _ Hp) as Hp1.
  set (p1 := after p (str1 "[") (join_comma texts +:+ String "]" rest)) in *.
  assert (Hsk : skipWhitespace p1 = Return (tt, p1)).
  { destruct Hall as [|x t xs' texts' (Hh & _) _]; simpl in Hp1.
    - apply (skipWhitespace_at _ _ _ _ Hp1). reflexivity.
    - destruct t as [|c t]; [destruct Hh|]. simpl in Hp1.
      apply (skipWhitespace_at _ _ _ _ Hp1). apply Hh. }
  rewrite (bind_Return _ _ _ _ _ Hsk).
  unfold turns. unfold bind at 1, gets; simpl.
  match goal with
  | |- context [while _ ?c ?b _] => set (cond := c); set (body := b)
  end.
  assert (Hloop : forall xs texts,
             Forall2 (fun x t => value_head t /\ parses_back x t
                                 /\ (String.length t < f)%nat) xs texts ->
             forall n a q pre0,
               at_pos q pre0 (join_comma texts +:+ String "]" rest) ->
               (String.length (join_comma texts) < n)%nat ->
               while n cond body a q
               = Return ((a ++ xs)%list,
                         after q (join_comma texts) (String "]" rest))).
  { clear. induction 1 as [|x t xs texts (Hh & Hx & Hf) Hall IH];
      intros n a q pre0 Hq Hn.
    - destruct n as [|n]; [simpl in Hn; lia|]. simpl in Hq.
      change (join_comma []) with EmptyString.
      rewrite while_stop, (after_nil _ _ _ Hq), app_nil_r; [reflexivity|].
      unfold cond. rewrite (isEOF_at _ _ _ Hq), (currChar_at _ _ _ _ Hq).
      reflexivity.
    - destruct n as [|n]; [simpl in Hn; lia|].
      set (sep := match texts with
                  | [] => EmptyString
                  | _ => "," +:+ join_comma texts
                  end) in *.
      change (join_comma (t :: texts)) with (t +:+ sep) in *.
      rewrite append_assoc in Hq.
      destruct t as [|c t]; [destruct Hh|]. destruct Hh as (Hws & Hbr).
      assert (Hcond : cond a q = true).
      { unfold cond. simpl in Hq.
        now rewrite (isEOF_at _ _ _ Hq), (currChar_at _ _ _ _ Hq), Hbr. }
      assert (Hsk1 : skipWhitespace q = Return (tt, q)).
      { simpl in Hq. now apply (skipWhitespace_at _ _ _ _ Hq). }
      assert (Hr1 : ends_number (sep +:+ String "]" rest))
        by (unfold sep; destruct texts; reflexivity).
      pose proof (Hx f q pre0 _ Hf Hq Hr1) as He.
      pose proof (at_pos_after q pre0 _ _ Hq) as Hq2.
      set (q2 := after q (String c t) (sep +:+ String "]" rest)) in *.
      destruct texts as [|t' texts].
      + inversion Hall; subst. simpl in Hq2.
        rewrite (while_break _ _ _ _ (a ++ [x])%list q q2 Hcond).
        * unfold sep. now rewrite append_nil_r.
        * unfold body. rewrite (bind_Return _ _ _ _ _ Hsk1).
          rewrite (bind_Return _ _ _ _ _ He).
          rewrite (bind_Return _ _ _ _ _
                     (skipWhitespace_at _ _ _ _ Hq2 eq_refl)).
          unfold bind, gets; simpl.
          rewrite ?(currChar_at _ _ _ _ Hq2). reflexivity.
      + assert (Hq2' : at_pos q2 (pre0 +:+ String c t)
                         (String "," (join_comma (t' :: texts)
                                      +:+ String "]" rest)))
          by (unfold sep in Hq2; now rewrite append_assoc in Hq2).
        pose proof (at_pos_after q2 _ (str1 ",") _ Hq2') as Hq3.
        rewrite (while_continue _ _ _ _ (a ++ [x])%list q
                   (after q2 (str1 ",")
                      (join_comma (t' :: texts) +:+ String "]" rest)) Hcond).
        * rewrite (IH n _ _ _ Hq3).
          -- rewrite <- app_assoc.
             rewrite (after_after_eq q2 (str1 ",") _
                        (join_comma (t' :: texts)) (String "]" rest) eq_refl).
             unfold q2.
             rewrite (after_after_eq q (String c t) _ _ (String "]" rest)
                        eq_refl).
             reflexivity.
          -- unfold sep in Hn. rewrite length_append in Hn. simpl in Hn.
             simpl. lia.
        * unfold body. rewrite (bind_Return _ _ _ _ _ Hsk1).
          rewrite (bind_Return _ _ _ _ _ He).
          rewrite (bind_Return _ _ _ _ _
                     (skipWhitespace_at _ _ _ _ Hq2' eq_refl)).
          unfold bind at 1, gets; simpl.
          rewrite ?(currChar_at _ _ _ _ Hq2'). simpl.
          unfold bind, advance, modify, ret; simpl.
          now rewrite (advance_at _ _ _ _ Hq2'). }
  rewrite (bind_Return _ _ _ _ _
             (Hloop xs texts Hall (S (remaining p1)) [] p1 _ Hp1
                ltac:(rewrite (remaining_at _ _ _ Hp1), length_append; lia))).
  pose proof (at_pos_after p1 _ _ _ Hp1) as Hp2.
  rewrite (bind_Return _ _ _ _ _ (consume_match _ _ _ _ _ Hp2)).
  unfold ret. simpl app.
  rewrite (after_after_eq p1 _ _ (str1 "]") rest eq_refl). unfold p1.
  rewrite (after_after_eq p (str1 "[") _ _ rest).
  - reflexivity.
  - now rewrite append_assoc.
Qed.

Lemma entry_text_append (k : string) (x : Value) (t rest : string) :
  entry_text (k, x, t) +:+ rest
  = String dquote (k +:+ String dquote (String ":" (t +:+ rest))).
Proof.
  unfold entry_text; simpl. f_equal. rewrite !append_assoc. simpl.
  reflexivity.
Qed.

Lemma length_entry_text (e : string * Value * string) :
  (String.length e.2 < String.length (entry_text e))%nat.
Proof.
  unfold entry_text. rewrite !length_append. simpl. lia.
Qed.

Lemma parseObject_entries (f : nat) (es : list (string * Value * string))
    (p : Parser) (pre rest : string) :
  Forall (entry_ok f) es ->
  at_pos p pre ("{" +:+ join_comma (map entry_text es) +:+ "}" +:+ rest) ->
  parseObject (parseElement f) p
  = Return (makeObject (foldl insert_entry ∅ es),
            after p ("{" +:+ join_comma (map entry_text es) +:+ "}") rest).
Proof.
  intros Hall Hp. unfold parseObject. unfold bind at 1, gets; simpl.
  simpl in Hp. rewrite (currChar_at _ _ _ _ Hp). simpl.
  unfold bind at 1, advance, modify; simpl. rewrite (advance_at _ _ _ _ Hp).
  pose proof (at_pos_after p pre (str1 "{") _ Hp) as Hp1.
  set (p1 := after p (str1 "{")
               (join_comma (map entry_text es) +:+ String "}" rest)) in *.
  assert (Hsk : skipWhitespace p1 = Return (tt, p1)).
  { destruct es as [|[[k x] t] es]; simpl in Hp1.
    - apply (skipWhitespace_at _ _ _ _ Hp1). reflexivity.
    - apply (skipWhitespace_at _ _ _ _ Hp1). reflexivity. }
  rewrite (bind_Return _ _ _ _ _ Hsk).
  unfold turns. unfold bind at 1, gets; simpl.
  match goal with
  | |- context [while _ ?c ?b _] => set (cond := c); set (body := b)
  end.
  assert (Hloop : forall es,
             Forall (entry_ok f) es ->
             forall n m q pre0,
               at_pos q pre0
                 (join_comma (map entry_text es) +:+ String "}" rest) ->
               (String.length (join_comma (map entry_text es)) < n)%nat ->
               while n cond body (makeObject m) q
               = Return (makeObject (foldl insert_entry m es),
                         after q (join_comma (map entry_text es))
                           (String "}" rest))).
  { clear. induction 1 as [|[[k x] t] es (Hk & Hh & Hx & Hf) Hall IH];
      intros n m q pre0 Hq Hn.
    - destruct n as [|n]; [simpl in Hn; lia|]. simpl in Hq.
      change (join_comma (map entry_text [])) with EmptyString.
      rewrite while_stop, (after_nil _ _ _ Hq); [reflexivity|].
      unfold cond. rewrite (isEOF_at _ _ _ Hq), (currChar_at _ _ _ _ Hq).
      reflexivity.
    - destruct n as [|n]; [simpl in Hn; lia|]. simpl in Hk, Hh, Hx, Hf.
      set (sep := match map entry_text es with
                  | [] => EmptyString
                  | _ => "," +:+ join_comma (map entry_text es)
                  end) in *.
      change (join_comma (map entry_text ((k, x, t) :: es)))
        with (entry_text (k, x, t) +:+ sep) in *.
      rewrite append_assoc, entry_text_append in Hq.
      assert (Hcond : cond (makeObject m) q = true).
      { unfold cond.
        now rewrite (isEOF_at _ _ _ Hq), (currChar_at _ _ _ _ Hq). }
      assert (Hsk1 : skipWhitespace q = Return (tt, q))
        by (apply (skipWhitespace_at _ _ _ _ Hq); reflexivity).
      pose proof (parseString_closed q pre0 k _ Hq Hk) as Hs.
      pose proof (at_pos_after q pre0 (String dquote (k +:+ str1 dquote))
                    (String ":" (t +:+ sep +:+ String "}" rest))) as Hq1.
      simpl in Hq1. rewrite append_assoc in Hq1. specialize (Hq1 Hq).
      set (q1 := after q (String dquote (k +:+ str1 dquote))
                   (String ":" (t +:+ sep +:+ String "}" rest))) in *.
      assert (Hsk2 : skipWhitespace q1 = Return (tt, q1))
        by (apply (skipWhitespace_at _ _ _ _ Hq1); reflexivity).
      pose proof (at_pos_after q1 _ (str1 ":") _ Hq1) as Hq2.
      set (q2 := after q1 (str1 ":") (t +:+ sep +:+ String "}" rest)) in *.
      destruct t as [|c t]; [destruct Hh|]. destruct Hh as (Hws & Hbr).
      assert (Hsk3 : skipWhitespace q2 = Return (tt, q2))
        by (simpl in Hq2; now apply (skipWhitespace_at _ _ _ _ Hq2)).
      assert (Hr1 : ends_number (sep +:+ String "}" rest))
        by (unfold sep; destruct (map entry_text es); reflexivity).
      pose proof (Hx f q2 _ _ Hf Hq2 Hr1) as He.
      pose proof (at_pos_after q2 _ _ _ Hq2) as Hq3.
      set (q3 := after q2 (String c t) (sep +:+ String "}" rest)) in *.
      assert (Hstep : forall o,
                 body o q
                 = (c' <- gets currChar;;
                    if negb (Ascii.eqb c' ",")
                    then ret (Break (assign_key o k x))
                    else advance;; ret (Continue (assign_key o k x))) q3).
      { intros o. unfold body. rewrite (bind_Return _ _ _ _ _ Hsk1).
        rewrite (bind_Return _ _ _ _ _ Hs).
        rewrite (bind_Return _ _ _ _ _ Hsk2).
        unfold bind at 1, gets; simpl.
        unfold bind at 1, advance, modify; simpl.
        rewrite (advance_at _ _ _ _ Hq1).
        rewrite (bind_Return _ _ _ _ _ Hsk3).
        rewrite (bind_Return _ _ _ _ _ He).
        destruct es as [|e es]; simpl in Hq3.
        - now rewrite (bind_Return _ _ _ _ _
                         (skipWhitespace_at _ _ _ _ Hq3 eq_refl)).
        - now rewrite (bind_Return _ _ _ _ _
                         (skipWhitespace_at _ _ _ _ Hq3 eq_refl)). }
      assert (Hq3eq : q3 = after q (entry_text (k, x, String c t))
                             (sep +:+ String "}" rest)).
      { unfold q3, q2, q1.
        rewrite (after_after_eq q _
                   (String ":" (String c t +:+ sep +:+ String "}" rest))
                   (str1 ":") (String c t +:+ sep +:+ String "}" rest)
                   eq_refl).
        rewrite (after_after_eq q _
                   (String c t +:+ sep +:+ String "}" rest)
                   (String c t) (sep +:+ String "}" rest) eq_refl).
        f_equal. unfold entry_text; simpl. rewrite !append_assoc.
        reflexivity. }
      destruct es as [|e es].
      + simpl in Hq3.
        rewrite (while_break _ _ _ _ (makeObject (<[k := x]> m)) q q3 Hcond).
        * unfold sep; simpl. rewrite append_nil_r. rewrite Hq3eq.
          unfold sep; simpl. reflexivity.
        * rewrite Hstep. unfold bind, gets; simpl.
          rewrite ?(currChar_at _ _ _ _ Hq3). reflexivity.
      + assert (Hq3' : at_pos q3 (((pre0 +:+ String dquote (k +:+ str1 dquote))
                                   +:+ str1 ":") +:+ String c t)
                         (String "," (join_comma (map entry_text (e :: es))
                                      +:+ String "}" rest)))
          by (unfold sep in Hq3; simpl in Hq3; simpl; exact Hq3).
        pose proof (at_pos_after q3 _ (str1 ",") _ Hq3') as Hq4.
        rewrite (while_continue _ _ _ _ (makeObject (<[k := x]> m)) q
                   (after q3 (str1 ",")
                      (join_comma (map entry_text (e :: es))
                       +:+ String "}" rest)) Hcond).
        * rewrite (IH n _ _ _ Hq4).
          -- f_equal. f_equal.
             rewrite (after_after_eq q3 (str1 ",") _
                        (join_comma (map entry_text (e :: es)))
                        (String "}" rest) eq_refl).
             rewrite Hq3eq.
             rewrite (after_after_eq q _ _ _ (String "}" rest) eq_refl).
             reflexivity.
          -- unfold sep in Hn. rewrite length_append in Hn.
             pose proof (length_entry_text (k, x, String c t)).
             simpl map in Hn. simpl in Hn. simpl. lia.
        * rewrite Hstep. unfold bind at 1, gets; simpl.
          rewrite ?(currChar_at _ _ _ _ Hq3'). simpl.
          unfold bind, advance, modify, ret; simpl.
          now rewrite (advance_at _ _ _ _ Hq3'). }
  rewrite (bind_Return _ _ _ _ _
             (Hloop es Hall (S (remaining p1)) ∅ p1 _ Hp1
                ltac:(rewrite (remaining_at _ _ _ Hp1), length_append; lia))).
  pose proof (at_pos_after p1 _ _ _ Hp1) as Hp2.
  rewrite (bind_Return _ _ _ _ _ (consume_match _ _ _ _ _ Hp2)).
  unfold ret.
  rewrite (after_after_eq p1 _ _ (str1 "}") rest eq_refl). unfold p1.
  rewrite (after_after_eq p (str1 "{") _ _ rest).
  - reflexivity.
  - now rewrite append_assoc.
Qed.

Lemma length_join_comma (t : string) (texts : list string) :
  t ∈ texts -> (String.length t <= String.length (join_comma texts))%nat.
Proof.
  induction texts as [|t' texts IH]; intros H; [inversion H|].
  change (join_comma (t' :: texts))
    with (t' +:+ match texts with
                 | [] => EmptyString
                 | _ => "," +:+ join_comma texts
                 end).
  rewrite length_append.
  apply elem_of_cons in H as [->|H]; [lia|].
  specialize (IH H). destruct texts; [inversion H|].
  rewrite length_append. lia.
Qed.

Lemma foldl_insert_entry (m : gmap string Value)
    (es : list (string * Value * string)) :
  Forall (fun e => m !! e.1.1 = Some e.1.2) es ->
  (forall k x, m !! k = Some x -> exists e, e ∈ es /\ e.1.1 = k) ->
  foldl insert_entry ∅ es = m.
Proof.
  intros Hag Hcov.
  assert (Hsub : forall acc, acc ⊆ m -> foldl insert_entry acc es ⊆ m).
  { clear Hcov. induction Hag as [|e es He _ IH]; intros acc Hacc; simpl.
    - exact Hacc.
    - apply IH. unfold insert_entry. now apply insert_subseteq_l. }
  assert (Hin : forall acc k,
             (exists e, e ∈ es /\ e.1.1 = k) \/ is_Some (acc !! k) ->
             is_Some (foldl insert_entry acc es !! k)).
  { clear. induction es as [|e es IH]; intros acc k H; simpl.
    - destruct H as [(e & He & _)|H]; [inversion He | exact H].
    - apply IH. destruct H as [(e' & He & Hk)|H].
      + apply elem_of_cons in He as [->|He]; [right | left; eauto].
        unfold insert_entry. rewrite Hk, lookup_insert_eq. eauto.
      + right. unfold insert_entry.
        destruct (decide (e.1.1 = k)) as [->|Hne].
        * rewrite lookup_insert_eq. eauto.
        * now rewrite lookup_insert_ne.  }
  apply map_eq. intros k. specialize (Hsub ∅ (map_empty_subseteq m)).
  destruct (m !! k) as [x|] eqn:E.
  - destruct (Hin ∅ k (or_introl (Hcov k x E))) as [y Hy].
    rewrite Hy. f_equal.
    pose proof (lookup_weaken _ _ _ _ Hy Hsub) as Hm. congruence.
  - destruct (foldl insert_entry ∅ es !! k) as [y|] eqn:Hy; [|reflexivity].
    pose proof (lookup_weaken _ _ _ _ Hy Hsub) as Hm. congruence.
Qed.

Lemma walks_inside (s : step) (order : walk) :
  walks_every_entry order -> walks_every_entry (inside s order).
Proof. intros H path m. apply H. Qed.

Lemma lookup_map_with_key {A B} (f : string -> A -> B) (m : gmap string A)
    (k : string) :
  map_with_key f m !! k = f k <$> m !! k.
Proof.
  unfold map_with_key.
  induction m as [|i x m Hi Hfold IH] using map_first_key_ind.
  - now rewrite map_fold_empty, !lookup_empty.
  - rewrite map_fold_insert_first_key by assumption.
    destruct (decide (i = k)) as [->|Hne].
    + now rewrite !lookup_insert_eq.
    + now rewrite !lookup_insert_ne.
Qed.

Lemma map_with_key_empty {A B} (f : string -> A -> B) :
  map_with_key f (∅ : gmap string A) = ∅.
Proof. apply map_fold_empty. Qed.

Lemma round_trip_element (v : Value) :
  round_trippable v ->
  forall (order : walk),
    walks_every_entry order ->
    forall depth,
    exists text,
      getRepresentation order v 0 depth = Return text
      /\ value_head text
      /\ parses_back v text.
Proof.
  induction 1 as [|b|s Hs|x (t & Ht & Hx)|l _ IH|m Hk _ IH];
    intros order order_walks depth.
  - exists "null". split; [reflexivity|]. split; [split; reflexivity|].
    apply (parses_back_identifier "null" "n" "ull"); auto.
  - exists (if b then "true" else "false").
    split; [now destruct b|]. split; [destruct b; split; reflexivity|].
    destruct b.
    + apply (parses_back_identifier "true" "t" "rue"); auto.
    + apply (parses_back_identifier "false" "f" "alse"); auto.
  - exists (str1 dquote +:+ s +:+ str1 dquote).
    split; [reflexivity|]. split; [split; reflexivity|].
    now apply parses_back_string.
  - exists t. split; [exact Ht|]. split; [|now apply parses_back_number].
    destruct (number_text_token _ _ _ _ _ Ht) as (_ & c & t' & -> & _ & Hw & Hb).
    now split.
  - (* Array *)
    assert (Htexts : forall i, exists texts,
               Forall2 (fun x t => value_head t /\ parses_back x t) l texts
               /\ Forall2 (fun o t => o = Return t)
                    (map_indexed
                       (fun i x =>
                          getRepresentation (inside (at_index i) order) x 0
                            (depth + 1)) i l)
                    texts).
    { clear -IH order_walks. induction l as [|x l IHl]; intros i.
      - exists []. split; constructor.
      - destruct (IH x ltac:(left) (inside (at_index i) order)
                    (walks_inside _ _ order_walks) (depth + 1))
          as (t & Ht & Hh & Hp).
        destruct (IHl ltac:(intros y Hy; apply IH; now right) (S i))
          as (texts & Hl & Ho).
        exists (t :: texts). split; constructor; auto. }
    destruct (Htexts 0%nat) as (texts & Hl & Hitems).
    exists ("[" +:+ join_comma texts +:+ "]"). split; [|split].
    + simpl. unfold toArray; simpl.
      rewrite (for_each_texts depth _ texts Hitems).
      simpl. rewrite close_container_compact.
      rewrite ?append_assoc. reflexivity.
    + split; reflexivity.
    + intros fuel p pre rest Hf Hp Hr.
      destruct fuel as [|f]; [lia|].
      rewrite append_assoc in Hp. simpl in Hp.
      pose proof (currChar_at _ _ _ _ Hp) as Hc.
      simpl parseElement. unfold bind at 1, gets; simpl. rewrite Hc. simpl.
      unfold bind at 1.
      assert (Hall : Forall2 (fun x t => value_head t /\ parses_back x t
                                         /\ (String.length t < f)%nat)
                       l texts).
      { simpl in Hf. rewrite length_append in Hf. simpl in Hf.
        clear -Hl Hf.
        assert (Hb : forall t, t ∈ texts -> (String.length t < f)%nat).
        { intros t Ht. pose proof (length_join_comma t texts Ht). lia. }
        clear Hf. induction Hl as [|x t l texts (Hh & Hx) _ IHl];
          constructor.
        - split; [exact Hh|]. split; [exact Hx|]. apply Hb. left.
        - apply IHl. intros t' Ht'. apply Hb. now right. }
      assert (Hp' : at_pos p pre ("[" +:+ join_comma texts +:+ "]" +:+ rest))
        by (simpl; rewrite append_assoc in Hp; exact Hp).
      rewrite (bind_Return _ _ _ _ _
                 (parseArray_elements f l texts p pre rest Hall Hp')).
      reflexivity.
  - (* Object *)
    set (rendered :=
           map_with_key
             (fun key x =>
                getRepresentation (inside (at_key key) order) x 0 (depth + 1))
             m).
    assert (Hes : exists es,
               order [] rendered = map (fun e => (e.1.1, Return e.2)) es
               /\ Forall (fun e => m !! e.1.1 = Some e.1.2
                                   /\ no_quote e.1.1 = true
                                   /\ value_head e.2
                                   /\ parses_back e.1.2 e.2) es).
    { assert (Hkv : forall kv, kv ∈ order [] rendered ->
                 exists x t, m !! kv.1 = Some x /\ kv.2 = Return t
                             /\ no_quote kv.1 = true /\ value_head t
                             /\ parses_back x t).
      { intros [k o] Hin. rewrite (order_walks [] rendered) in Hin.
        apply elem_of_map_to_list in Hin. unfold rendered in Hin.
        rewrite lookup_map_with_key in Hin.
        destruct (m !! k) as [x|] eqn:Hm; [|discriminate Hin].
        injection Hin as Hx.
        destruct (IH k x Hm (inside (at_key k) order)
                    (walks_inside _ _ order_walks) (depth + 1))
          as (t & Ht & Hh & Hp).
        exists x, t. simpl. repeat split; eauto. now rewrite <- Hx. }
      clear -Hkv. induction (order [] rendered) as [|[k o] kvs IHk].
      - exists []. split; [reflexivity | constructor].
      - destruct (Hkv (k, o) ltac:(left)) as (x & t & Hm & Ho & Hq & Hh & Hp).
        destruct IHk as (es & Hes & Hall).
        + intros kv Hin. apply Hkv. now right.
        + exists ((k, x, t) :: es). simpl in *. subst o. rewrite Hes.
          split; [reflexivity|]. constructor; auto. }
    destruct Hes as (es & Hord & Hall).
    exists ("{" +:+ join_comma (map entry_text es) +:+ "}").
    split; [|split].
    + simpl. unfold toObject; simpl. fold rendered. rewrite Hord.
      rewrite (for_each_map
                 (fun kv : string * outcome string =>
                    let! r := kv.2 in
                    Return (str1 dquote +:+ kv.1 +:+ str1 dquote +:+ ":"
                            +:+ EmptyString +:+ r))
                 (fun repr o last => for_body 0 depth repr o last)).
      rewrite (for_each_texts depth _ (map entry_text es)).
      * simpl. rewrite close_container_compact.
        rewrite ?append_assoc. reflexivity.
      * clear. induction es as [|[[k x] t] es IHes]; simpl; constructor; auto.
    + split; reflexivity.
    + intros fuel p pre rest Hf Hp Hr.
      destruct fuel as [|f]; [lia|].
      rewrite append_assoc in Hp. simpl in Hp.
      pose proof (currChar_at _ _ _ _ Hp) as Hc.
      simpl parseElement. unfold bind at 1, gets; simpl. rewrite Hc. simpl.
      unfold bind at 1.
      assert (Hok : Forall (entry_ok f) es).
      { simpl in Hf. rewrite length_append in Hf. simpl in Hf.
        clear -Hall Hf.
        assert (Hb : forall e, e ∈ es -> (String.length e.2 < f)%nat).
        { intros e He.
          pose proof (length_join_comma (entry_text e) (map entry_text es)
                        ltac:(now apply list_elem_of_fmap_2)).
          pose proof (length_entry_text e). lia. }
        clear Hf. induction Hall as [|e es (_ & Hq & Hh & Hx) _ IHes];
          constructor.
        - repeat split; auto. apply Hb. left.
        - apply IHes. intros e' He'. apply Hb. now right. }
      assert (Hp' : at_pos p pre ("{" +:+ join_comma (map entry_text es)
                                  +:+ "}" +:+ rest))
        by (simpl; rewrite append_assoc in Hp; exact Hp).
      rewrite (bind_Return _ _ _ _ _
                 (parseObject_entries f es p pre rest Hok Hp')).
      replace (foldl insert_entry ∅ es) with m; [reflexivity|].
      symmetry. apply foldl_insert_entry.
      * clear -Hall. induction Hall as [|e es (He & _) _ IHes];
          constructor; auto.
      * intros k x Hm.
        assert (Hin : (k, getRepresentation (inside (at_key k) order) x 0
                            (depth + 1))
                      ∈ order [] rendered).
        { rewrite (order_walks [] rendered).
          apply elem_of_map_to_list. unfold rendered.
          rewrite lookup_map_with_key, Hm. reflexivity. }
        rewrite Hord in Hin. apply list_elem_of_fmap in Hin
          as (e & He & Hin).
        exists e. split; [exact Hin|]. now inversion He.
Qed.

Lemma String_forallb_impl (f g : ascii -> bool) (s : string) :
  (forall c, f c = true -> g c = true) ->
  String_forallb f s = true -> String_forallb g s = true.
Proof.
  intros Hfg. induction s as [|c s IH]; simpl; [reflexivity|].
  intros H. apply andb_prop in H as [Hc Hs].
  now rewrite (Hfg c Hc), (IH Hs).
Qed.

(** [std::to_string(long)] writes digits after an optional minus sign. *)
Lemma to_string_long_chars (n : Z) :
  String_forallb (fun c => isdigit c || Ascii.eqb c "-") (to_string_long n)
  = true.
Proof.
  assert (H : forall m, String_forallb (fun c => isdigit c || Ascii.eqb c "-")
                          (string_of_N m) = true).
  { intros m. apply (String_forallb_impl isdigit).
    - now intros c ->.
    - apply string_of_uint_digits. }
  destruct n as [|p|p]; unfold to_string_long; [apply H | apply H|].
  simpl. apply H.
Qed.

(* ===================================================================== *)
(** * An object whose first key has no quote at all *)
(* ===================================================================== *)

Lemma advance_state_isEOF (p : Parser) :
  isEOF p = true ->
  advance_state p = set_cursor (currIdx p + 1) (currChar p) p.
Proof.
  unfold isEOF, advance_state. intros H. apply Z.leb_le in H.
  now replace (_ <? _) with false by (symmetry; apply Z.ltb_ge; lia).
Qed.

Lemma consume_failed (line : string) (c : ascii) (msg : string) (p : Parser) :
  failed_with line p ->
  exists b p', consume c msg p = Return (b, p') /\ failed_with line p'.
Proof.
  intros (Hk & Hl). unfold consume, bind at 1, gets; simpl.
  destruct (Ascii.eqb (currChar p) c); simpl.
  - eexists _, _. split; [reflexivity|]. unfold failed_with, advance_state.
    destruct (_ <? _); [destruct (String.get _ _)|]; simpl; auto.
  - eexists _, _. split; [reflexivity|]. split; [reflexivity|]. simpl.
    apply elem_of_app. now left.
Qed.

Lemma parseElement_colon (f : nat) (p : Parser) :
  currChar p = ":"%char ->
  parseElement (S f) p
  = Return (Value_default, reported "Unexpected character: ':'" p).
Proof.
  intros H. simpl. unfold bind at 1, gets; simpl. rewrite H. simpl.
  unfold bind, gets, ret, reportError, modify; simpl. now rewrite H.
Qed.

Lemma parseObject_bare_key (f : nat) (p : Parser) (pre : string) (c : ascii)
    (t : string) :
  at_pos p pre (String "{" (String c t)) ->
  currLine p = 1 ->
  no_quote (String c t) = true ->
  isWhitespace c = false ->
  c <> "}"%char ->
  exists o p',
    parseObject (parseElement (S f)) p = Return (o, p')
    /\ failed_with (error_line string_end_msg) p'.
Proof.
  intros Hp Hline Hq Hws Hbr. unfold parseObject. unfold bind at 1, gets; simpl.
  rewrite (currChar_at _ _ _ _ Hp). simpl.
  unfold bind at 1, advance, modify; simpl. rewrite (advance_at _ _ _ _ Hp).
  pose proof (at_pos_after p pre (str1 "{") _ Hp) as Hp1.
  set (p1 := after p (str1 "{") (String c t)) in *.
  pose proof (skipWhitespace_at _ _ _ _ Hp1 Hws) as Hsk.
  rewrite (bind_Return _ _ _ _ _ Hsk).
  unfold turns. unfold bind at 1, gets; simpl.
  match goal with
  | |- context [while _ ?cd ?b _] => set (cond := cd); set (body := b)
  end.
  assert (Hcond : cond (makeObject ∅) p1 = true).
  { unfold cond. rewrite (isEOF_at _ _ _ Hp1), (currChar_at _ _ _ _ Hp1).
    apply Ascii.eqb_neq in Hbr. now rewrite Hbr. }
  (* the key: scanned to the end of the input *)
  assert (Hc : currChar p1 <> dquote).
  { rewrite (currChar_at _ _ _ _ Hp1). simpl in Hq.
    apply andb_prop in Hq as [Hq _].
    now apply negb_true_iff, Ascii.eqb_neq in Hq. }
  pose proof (parseString_from_open p1 _ _ Hp1 Hq) as Hs.
  assert (Hp1' : at_pos p1 (pre +:+ str1 "{") (String c t +:+ EmptyString))
    by now rewrite append_nil_r.
  pose proof (at_pos_after p1 _ _ _ Hp1') as Hpe.
  set (p2 := after p1 (String c t) EmptyString) in *.
  assert (Hc2 : Ascii.eqb (currChar p2) dquote = false).
  { apply Ascii.eqb_neq. unfold p2; simpl.
    simpl in Hq. apply andb_prop in Hq as [Hq1 Hq2].
    apply last_char_no_quote; [exact Hq2|].
    now apply negb_true_iff, Ascii.eqb_neq in Hq1. }
  cbv zeta in Hs. rewrite Hc2 in Hs.
  assert (Hi : currIdx p1 = Z.of_nat (String.length (pre +:+ str1 "{")))
    by (destruct Hp1 as (_ & Hi & _); exact Hi).
  rewrite <- Hi, <- (parseString_bare p1 Hc) in Hs.
  set (pe := reported string_end_msg p2) in *.
  assert (Heof : isEOF pe = true) by exact (isEOF_at _ _ _ Hpe).
  assert (Hfail : failed_with (error_line string_end_msg) pe).
  { split; [reflexivity|]. unfold pe, reported, error_line; simpl.
    rewrite Hline. apply elem_of_app. right. now left. }
  assert (Hbody : exists o pb,
             body (makeObject ∅) p1 = Return (Break o, pb)
             /\ failed_with (error_line string_end_msg) pb).
  { unfold body. rewrite (bind_Return _ _ _ _ _ Hsk).
    rewrite (bind_Return _ _ _ _ _ Hs).
    rewrite (bind_Return _ _ _ _ _ (skipWhitespace_stay pe (or_introl Heof))).
    unfold bind at 1, gets; simpl.
    destruct (Ascii.eqb (last_char t c) ":") eqn:E; simpl.
    - unfold bind at 1, advance, modify; simpl.
      set (pa := advance_state pe).
      assert (Ha : pa = set_cursor (currIdx pe + 1) (currChar pe) pe)
        by (apply advance_state_isEOF; exact Heof).
      assert (Heofa : isEOF pa = true).
      { rewrite Ha. unfold isEOF in *; simpl in *.
        apply Z.leb_le. apply Z.leb_le in Heof. unfold size in *; simpl in *.
        lia. }
      rewrite (bind_Return _ _ _ _ _
                 (skipWhitespace_stay pa (or_introl Heofa))).
      assert (Hca : currChar pa = ":"%char).
      { rewrite Ha. simpl. now apply Ascii.eqb_eq. }
      rewrite (bind_Return _ _ _ _ _ (parseElement_colon f pa Hca)).
      set (pu := reported "Unexpected character: ':'" pa).
      assert (Heofu : isEOF pu = true) by exact Heofa.
      rewrite (bind_Return _ _ _ _ _
                 (skipWhitespace_stay pu (or_introl Heofu))).
      unfold bind, gets, ret; simpl. rewrite Hca. simpl.
      eexists _, _. split; [reflexivity|]. split; [reflexivity|].
      unfold pu, reported; simpl. apply elem_of_app. left.
      rewrite Ha. simpl. apply Hfail.
    - unfold bind, reportError, modify, ret; simpl.
      eexists _, _. split; [reflexivity|]. split; [reflexivity|].
      simpl. apply elem_of_app. left. apply Hfail. }
  destruct Hbody as (o & pb & Hb & Hfb).
  rewrite (bind_Return _ _ _ _ _ (while_break _ _ _ _ _ _ _ Hcond Hb)).
  destruct (consume_failed _ "}" "Expected '}' for object end" pb Hfb)
    as (b & p' & Hcons & Hf').
  rewrite (bind_Return _ _ _ _ _ Hcons).
  exists o, p'. split; [reflexivity | exact Hf'].
Qed.

Lemma parseElement_object (f : nat) (p p' : Parser) (o : Value) :
  currChar p = "{"%char ->
  parseObject (parseElement f) p = Return (o, p') ->
  parseElement (S f) p = Return (o, p').
Proof.
  intros Hc Ho. simpl. unfold bind at 1, gets; simpl. rewrite Hc. simpl.
  unfold bind at 1. now rewrite (bind_Return _ _ _ _ _ Ho).
Qed.

(* ===================================================================== *)
(** * Termination: the counters of the embedding never run out *)
(* ===================================================================== *)

Lemma later_refl (p : Parser) : later p p.
Proof. split; [reflexivity | lia]. Qed.

Lemma later_trans (p q r : Parser) : later p q -> later q r -> later p r.
Proof. intros (H1 & H2) (H3 & H4). split; [congruence | lia]. Qed.

Lemma later_advance (p : Parser) : strictly_later p (advance_state p).
Proof.
  unfold strictly_later, advance_state.
  destruct (_ <? _); [destruct (String.get _ _)|]; simpl; split;
    try reflexivity; lia.
Qed.

Lemma strictly_later_later (p q : Parser) : strictly_later p q -> later p q.
Proof. intros (H1 & H2). split; [exact H1 | lia]. Qed.

Lemma later_reported (msg : string) (p : Parser) : later p (reported msg p).
Proof. split; simpl; [reflexivity | lia]. Qed.

Lemma remaining_later (p q : Parser) :
  later p q -> (remaining q <= remaining p)%nat.
Proof. intros (Hc & Hi). unfold remaining, size. rewrite Hc. lia. Qed.

Lemma remaining_strictly_later (p q : Parser) :
  strictly_later p q -> isEOF p = false -> (remaining q < remaining p)%nat.
Proof.
  intros (Hc & Hi) He. unfold remaining, isEOF, size in *. rewrite Hc.
  apply Z.leb_gt in He. lia.
Qed.

Lemma isEOF_later (p q : Parser) :
  later p q -> isEOF q = false -> isEOF p = false.
Proof.
  intros (Hc & Hi) He. unfold isEOF, size in *. rewrite Hc in He.
  apply Z.leb_gt in He. apply Z.leb_gt. lia.
Qed.

Lemma runs_ret {A} (a : A) (p : Parser) : runs (ret a) p.
Proof. apply later_refl. Qed.

Lemma runs_gets {A} (f : Parser -> A) (p : Parser) : runs (gets f) p.
Proof. apply later_refl. Qed.

Lemma runs_to_bind {A B} (Q : B -> Parser -> Prop) (m : M A) (k : A -> M B)
    (p : Parser) :
  runs m p ->
  (forall a p', m p = Return (a, p') -> later p p' -> runs_to Q (k a) p') ->
  runs_to Q (bind m k) p.
Proof.
  unfold runs, runs_to, bind. intros Hm Hk.
  destruct (m p) as [[a p']| | |]; simpl; auto.
  exact (Hk a p' eq_refl Hm).
Qed.

Lemma runs_to_weaken {A} (Q Q' : A -> Parser -> Prop) (m : M A) (p : Parser) :
  runs_to Q m p -> (forall a p', Q a p' -> Q' a p') -> runs_to Q' m p.
Proof.
  unfold runs_to. intros H HQ. destruct (m p) as [[a p']| | |]; auto.
Qed.

Lemma runs_bind {A B} (m : M A) (k : A -> M B) (p : Parser) :
  runs m p ->
  (forall a p', m p = Return (a, p') -> runs (k a) p') ->
  runs (bind m k) p.
Proof.
  intros Hm Hk. apply runs_to_bind; [exact Hm|].
  intros a p' Ha Hl. apply (runs_to_weaken _ _ _ _ (Hk a p' Ha)).
  intros _ p'' Hl'. now apply (later_trans p p' p'').
Qed.

Lemma runs_advance (p : Parser) : runs advance p.
Proof. apply strictly_later_later, later_advance. Qed.

Lemma runs_reportError (msg : string) (p : Parser) : runs (reportError msg) p.
Proof. apply (later_reported msg p). Qed.

Lemma runs_lift {A} (o : outcome A) (p : Parser) :
  o <> OutOfFuel -> runs (lift o) p.
Proof.
  unfold runs, runs_to, lift. destruct o; simpl; intros H;
    [apply later_refl | exact I | exact I | congruence].
Qed.

Lemma substr_fuel (s : string) (pos len : Z) : substr s pos len <> OutOfFuel.
Proof. unfold substr. destruct (_ <? _); discriminate. Qed.

Lemma stod_fuel (s : string) : stod s <> OutOfFuel.
Proof.
  unfold stod. destruct (strtod_decimal s) as [[[neg [|m]] e]|];
    try discriminate.
  destruct (round_binary64 neg m e); try discriminate.
  destruct (_ && _); discriminate.
Qed.

(** A loop whose every completed turn moves the cursor forward, and which
    tests for the end of the input, ends within the turns it is given. *)
Lemma runs_while {L} (cond : L -> Parser -> bool) (body : L -> M (flow L))
    (p0 : Parser) :
  (forall l p, cond l p = true -> isEOF p = false) ->
  (forall l p, later p0 p -> cond l p = true ->
               runs_to (turn_ok p) (body l) p) ->
  forall n l p, later p0 p -> (remaining p < n)%nat ->
                runs (while n cond body l) p.
Proof.
  intros Hcond Hbody n.
  induction n as [|n IH]; intros l p Hp Hn; [lia|].
  unfold runs, runs_to. destruct (cond l p) eqn:Hc.
  - specialize (Hbody l p Hp Hc). unfold runs_to, turn_ok in Hbody.
    destruct (body l p) as [[[l'|l'] p']| | |] eqn:Hb.
    + rewrite (while_continue _ _ _ _ _ _ _ Hc Hb).
      pose proof (remaining_strictly_later _ _ Hbody (Hcond _ _ Hc)).
      pose proof (strictly_later_later _ _ Hbody) as Hl.
      specialize (IH l' p' (later_trans _ _ _ Hp Hl) ltac:(lia)).
      unfold runs, runs_to in IH.
      destruct (while n cond body l' p') as [[l'' p'']| | |]; auto.
      now apply (later_trans p p' p'').
    + now rewrite (while_break _ _ _ _ _ _ _ Hc Hb).
    + unfold while; fold (@while L). unfold bind at 1, gets; simpl.
      rewrite Hc. unfold bind. now rewrite Hb.
    + unfold while; fold (@while L). unfold bind at 1, gets; simpl.
      rewrite Hc. unfold bind. now rewrite Hb.
    + destruct Hbody.
  - rewrite (while_stop _ _ _ _ _ Hc). apply later_refl.
Qed.

Lemma runs_turns_while {L} (cond : L -> Parser -> bool)
    (body : L -> M (flow L)) {B} (k : L -> M B) (l : L) (p : Parser) :
  (forall l p, cond l p = true -> isEOF p = false) ->
  (forall l q, later p q -> cond l q = true ->
               runs_to (turn_ok q) (body l) q) ->
  (forall l' q, later p q -> runs (k l') q) ->
  runs (n <- turns;; l' <- while n cond body l;; k l') p.
Proof.
  intros Hc Hb Hk. apply runs_bind; [apply runs_gets|].
  intros n p' H. injection H as <- <-.
  apply runs_bind.
  - apply (runs_while cond body p Hc Hb); [apply later_refl | lia].
  - intros l' q Hq.
    pose proof (runs_while cond body p Hc Hb (S (remaining p)) l p
                  (later_refl p) ltac:(lia)) as Hr.
    unfold runs, runs_to in Hr. rewrite Hq in Hr. now apply Hk.
Qed.

Lemma runs_turns_while_last {L} (cond : L -> Parser -> bool)
    (body : L -> M (flow L)) (l : L) (p : Parser) :
  (forall l p, cond l p = true -> isEOF p = false) ->
  (forall l q, later p q -> cond l q = true ->
               runs_to (turn_ok q) (body l) q) ->
  runs (n <- turns;; while n cond body l) p.
Proof.
  intros Hc Hb. apply runs_bind; [apply runs_gets|].
  intros n p' H. injection H as <- <-.
  apply (runs_while cond body p Hc Hb); [apply later_refl | lia].
Qed.

Lemma cond_not_eof {L} (f : L -> Parser -> bool) (l : L) (p : Parser) :
  negb (isEOF p) && f l p = true -> isEOF p = false.
Proof. intros H. apply andb_prop in H as [H _]. now apply negb_true_iff. Qed.

Lemma runs_skipWhitespace (p : Parser) : runs skipWhitespace p.
Proof.
  unfold skipWhitespace.
  apply runs_turns_while_last.
  - intros l q H. exact (cond_not_eof (fun _ q => isWhitespace (currChar q)) l q H).
  - intros l q _ _. unfold runs_to, turn_ok.
    unfold bind, gets, when, modify, advance, ret; simpl.
    destruct (Ascii.eqb (currChar q) LF); simpl.
    + destruct (later_advance (set_currLine (currLine q + 1) q)) as (H1 & H2).
      split; [exact H1 | exact H2].
    + apply later_advance.
Qed.

Lemma runs_consume (c : ascii) (msg : string) (p : Parser) :
  runs (consume c msg) p.
Proof.
  unfold consume. apply runs_bind; [apply runs_gets|].
  intros ch p' H. injection H as <- <-.
  destruct (negb _).
  - apply runs_bind; [apply runs_reportError | intros; apply runs_ret].
  - apply runs_bind; [apply runs_advance | intros; apply runs_ret].
Qed.

Lemma runs_when (b : bool) (m : M unit) (p : Parser) :
  runs m p -> runs (when b m) p.
Proof. destruct b; simpl; [auto | intros _; apply runs_ret]. Qed.

Lemma runs_parseString (p : Parser) : runs parseString p.
Proof.
  unfold parseString. apply runs_bind; [apply runs_gets|].
  intros c p' H. injection H as <- <-.
  apply runs_bind; [apply runs_when, runs_advance|].
  intros [] p1 _.
  apply runs_bind; [apply runs_gets|].
  intros start p' H. injection H as <- <-.
  apply (runs_turns_while _ _
           (fun len => consume dquote _;; text <- gets content;;
                       lift (substr text (currIdx p1) len))).
  - intros l q H.
    exact (cond_not_eof (fun _ q => negb (Ascii.eqb (currChar q) dquote)) l q H).
  - intros l q _ _. unfold runs_to, turn_ok, bind, advance, modify, ret; simpl.
    apply later_advance.
  - intros len q _. apply runs_bind; [apply runs_consume|].
    intros b q' _. apply runs_bind; [apply runs_gets|].
    intros text q'' H. injection H as <- <-.
    apply runs_lift, substr_fuel.
Qed.

Lemma runs_validateIdentifier (identifier : string) (p : Parser) :
  runs (validateIdentifier identifier) p.
Proof.
  unfold validateIdentifier. apply runs_bind; [apply runs_gets|].
  intros start p' H. injection H as <- <-.
  apply (runs_turns_while _ _
           (fun len => text <- gets content;;
                       sub <- lift (substr text (currIdx p) len);;
                       ret (String.eqb sub identifier))).
  - intros l q H.
    exact (cond_not_eof
             (fun len _ => negb (len =? Z.of_nat (String.length identifier)))
             l q H).
  - intros l q _ _. unfold runs_to, turn_ok, bind, advance, modify, ret; simpl.
    apply later_advance.
  - intros len q _. apply runs_bind; [apply runs_gets|].
    intros text q'' H. injection H as <- <-.
    apply runs_bind; [apply runs_lift, substr_fuel|].
    intros; apply runs_ret.
Qed.

Lemma runs_parseNumber (p : Parser) : runs parseNumber p.
Proof.
  unfold parseNumber. apply runs_bind; [apply runs_gets|].
  intros start p' H. injection H as <- <-.
  match goal with
  | |- runs (n <- turns;; sc <- while n ?c ?b ?l;; ?k) p =>
      apply (runs_turns_while c b (fun sc => k) l p)
  end.
  - intros l q H.
    exact (cond_not_eof (fun _ q => isNumberChar (currChar q)) l q H).
  - intros l q _ _. unfold runs_to, turn_ok. unfold bind at 1, gets; simpl.
    destruct (_ && _); [unfold bind, reportError, modify, ret; simpl;
                        split; simpl; [reflexivity | lia]|].
    destruct (_ && _); [unfold bind, reportError, modify, ret; simpl;
                        split; simpl; [reflexivity | lia]|].
    unfold bind, advance, modify, ret; simpl. apply later_advance.
  - intros sc q _. apply runs_bind; [apply runs_gets|].
    intros text q' H. injection H as <- <-.
    unfold runs, runs_to.
    pose proof (substr_fuel (content q) (currIdx p) (scan_len sc)) as Hs.
    assert (Hpr : forall line, later q (print line q))
      by (intros line; split; simpl; [reflexivity | lia]).
    destruct (substr _ _ _) as [tok|e| |]; simpl.
    + pose proof (stod_fuel tok) as Hd.
      destruct (stod tok) as [d|[]| |]; simpl;
        first [exact I | apply later_refl | apply Hpr | congruence].
    + destruct e; simpl; first [exact I | apply Hpr].
    + exact I.
    + congruence.
Qed.

Lemma turn_ok_later {L} (p q : Parser) (f : flow L) (q' : Parser) :
  later p q -> turn_ok q f q' -> turn_ok p f q'.
Proof.
  intros (H1 & H2) Ht. destruct f; simpl in *; destruct Ht as (H3 & H4);
    split; try congruence; lia.
Qed.

Lemma later_strictly (p q r : Parser) :
  strictly_later p q -> later q r -> strictly_later p r.
Proof. intros (H1 & H2) (H3 & H4). split; [congruence | lia]. Qed.

(** [parseArray], called on its bracket, runs if [element] runs wherever
    the cursor has moved on. *)
Lemma runs_parseArray (element : M Value) (p : Parser) :
  currChar p = "["%char ->
  (isEOF p = false -> forall q, strictly_later p q -> runs element q) ->
  runs (parseArray element) p.
Proof.
  intros Hc He. unfold parseArray. apply runs_bind; [apply runs_gets|].
  intros c p' H. injection H as <- <-. rewrite Hc. simpl.
  apply runs_bind; [apply runs_advance|].
  intros [] p1 H. injection H as <-.
  pose proof (later_advance p) as H1.
  apply runs_bind; [apply runs_skipWhitespace|].
  intros [] p2 H2. pose proof (runs_skipWhitespace (advance_state p)) as Hs.
  unfold runs, runs_to in Hs. rewrite H2 in Hs.
  pose proof (later_strictly _ _ _ H1 Hs) as H12.
  match goal with
  | |- runs (n <- turns;; a <- while n ?c ?b ?l;; ?k) p2 =>
      apply (runs_turns_while c b (fun a => k) l p2)
  end.
  - intros l q H.
    exact (cond_not_eof (fun _ q => negb (Ascii.eqb (currChar q) "]")) l q H).
  - intros a q Hq Hcond.
    assert (Heof : isEOF q = false)
      by exact (cond_not_eof (fun _ q => negb (Ascii.eqb (currChar q) "]"))
                  a q Hcond).
    assert (Hpq : strictly_later p q) by exact (later_strictly _ _ _ H12 Hq).
    assert (Hpe : isEOF p = false)
      by exact (isEOF_later _ _ (strictly_later_later _ _ Hpq) Heof).
    apply runs_to_bind; [apply runs_skipWhitespace|].
    intros [] q1 _ Hq1.
    apply runs_to_bind; [apply (He Hpe), (later_strictly _ _ _ Hpq Hq1)|].
    intros x q2 _ Hq2.
    apply runs_to_bind; [apply runs_skipWhitespace|].
    intros [] q3 _ Hq3.
    pose proof (later_trans _ _ _ Hq1 (later_trans _ _ _ Hq2 Hq3)) as Hq13.
    unfold runs_to, bind at 1, gets; simpl.
    destruct (negb (Ascii.eqb (currChar q3) ",")); simpl.
    + exact Hq13.
    + unfold bind, advance, modify, ret; simpl.
      destruct (later_advance q3) as (Ha & Hb). destruct Hq13 as (Hc3 & Hi3).
      split; [congruence | lia].
  - intros a q _. apply runs_bind; [apply runs_consume|].
    intros; apply runs_ret.
Qed.

Lemma runs_parseObject (element : M Value) (p : Parser) :
  currChar p = "{"%char ->
  (isEOF p = false -> forall q, strictly_later p q -> runs element q) ->
  runs (parseObject element) p.
Proof.
  intros Hc He. unfold parseObject. apply runs_bind; [apply runs_gets|].
  intros c p' H. injection H as <- <-. rewrite Hc. simpl.
  apply runs_bind; [apply runs_advance|].
  intros [] p1 H. injection H as <-.
  pose proof (later_advance p) as H1.
  apply runs_bind; [apply runs_skipWhitespace|].
  intros [] p2 H2. pose proof (runs_skipWhitespace (advance_state p)) as Hs.
  unfold runs, runs_to in Hs. rewrite H2 in Hs.
  pose proof (later_strictly _ _ _ H1 Hs) as H12.
  match goal with
  | |- runs (n <- turns;; a <- while n ?c ?b ?l;; ?k) p2 =>
      apply (runs_turns_while c b (fun a => k) l p2)
  end.
  - intros l q H.
    exact (cond_not_eof (fun _ q => negb (Ascii.eqb (currChar q) "}")) l q H).
  - intros o q Hq Hcond.
    assert (Heof : isEOF q = false)
      by exact (cond_not_eof (fun _ q => negb (Ascii.eqb (currChar q) "}"))
                  o q Hcond).
    assert (Hpq : strictly_later p q) by exact (later_strictly _ _ _ H12 Hq).
    assert (Hpe : isEOF p = false)
      by exact (isEOF_later _ _ (strictly_later_later _ _ Hpq) Heof).
    apply runs_to_bind; [apply runs_skipWhitespace|].
    intros [] q1 _ Hq1.
    apply runs_to_bind; [apply runs_parseString|].
    intros name q2 _ Hq2.
    apply runs_to_bind; [apply runs_skipWhitespace|].
    intros [] q3 _ Hq3.
    pose proof (later_trans _ _ _ Hq1 (later_trans _ _ _ Hq2 Hq3)) as Hq13.
    apply runs_to_bind; [apply runs_gets|].
    intros c q3' H Hq3'. injection H as <- <-.
    destruct (negb (Ascii.eqb (currChar q3) ":")).
    + apply runs_to_bind; [apply runs_reportError|].
      intros [] q4 _ Hq4. unfold runs_to, ret, turn_ok.
      exact (later_trans _ _ _ Hq13 Hq4).
    + apply runs_to_bind; [apply runs_advance|].
      intros [] q4 _ Hq4.
      apply runs_to_bind; [apply runs_skipWhitespace|].
      intros [] q5 _ Hq5.
      pose proof (later_trans _ _ _ Hq13 (later_trans _ _ _ Hq4 Hq5)) as Hq15.
      apply runs_to_bind;
        [apply (He Hpe), (later_strictly _ _ _ Hpq Hq15)|].
      intros x q6 _ Hq6.
      apply runs_to_bind; [apply runs_skipWhitespace|].
      intros [] q7 _ Hq7.
      pose proof (later_trans _ _ _ Hq15 (later_trans _ _ _ Hq6 Hq7)) as Hq17.
      unfold runs_to, bind at 1, gets; simpl.
      destruct (negb (Ascii.eqb (currChar q7) ",")); simpl.
      * exact Hq17.
      * unfold bind, advance, modify, ret; simpl.
        destruct (later_advance q7) as (Ha & Hb).
        destruct Hq17 as (Hc7 & Hi7). split; [congruence | lia].
  - intros a q _. apply runs_bind; [apply runs_consume|].
    intros; apply runs_ret.
Qed.

(** [parseElement] runs on as much fuel as there are characters left, and
    one more. *)
Lemma runs_parseElement (fuel : nat) :
  forall p, (remaining p < fuel)%nat -> runs (parseElement fuel) p.
Proof.
  induction fuel as [|f IH]; intros p Hf; [lia|].
  assert (Hel : isEOF p = false ->
                forall q, strictly_later p q -> runs (parseElement f) q).
  { intros Heof q Hq. apply IH.
    pose proof (remaining_strictly_later _ _ Hq Heof). lia. }
  simpl parseElement. apply runs_bind; [apply runs_gets|].
  intros c p' H. injection H as <- <-.
  assert (Htail : forall (r : option Value) (q : Parser),
             runs (match r with
                   | Some v => ret v
                   | None =>
                       c' <- gets currChar;;
                       reportError ("Unexpected character: '" +:+ str1 c'
                                    +:+ "'");;
                       ret Value_default
                   end) q).
  { intros [v|] q; [apply runs_ret|].
    apply runs_bind; [apply runs_gets|]. intros c' q' _.
    apply runs_bind; [apply runs_reportError | intros; apply runs_ret]. }
  apply runs_bind; [|intros r q _; apply Htail].
  destruct (Ascii.eqb (currChar p) "{") eqn:E1.
  { apply runs_bind; [|intros; apply runs_ret].
    apply runs_parseObject; [now apply Ascii.eqb_eq | exact Hel]. }
  destruct (Ascii.eqb (currChar p) "[") eqn:E2.
  { apply runs_bind; [|intros; apply runs_ret].
    apply runs_parseArray; [now apply Ascii.eqb_eq | exact Hel]. }
  destruct (Ascii.eqb (currChar p) dquote).
  { apply runs_bind; [apply runs_parseString | intros; apply runs_ret]. }
  destruct (Ascii.eqb (currChar p) "t").
  { apply runs_bind; [apply runs_validateIdentifier | intros; apply runs_ret]. }
  destruct (Ascii.eqb (currChar p) "f").
  { apply runs_bind; [apply runs_validateIdentifier | intros; apply runs_ret]. }
  destruct (Ascii.eqb (currChar p) "n").
  { apply runs_bind; [apply runs_validateIdentifier | intros; apply runs_ret]. }
  destruct (_ || _).
  { apply runs_bind; [apply runs_parseNumber | intros; apply runs_ret]. }
  destruct (isWhitespace (currChar p)).
  { apply runs_bind; [apply runs_skipWhitespace | intros; apply runs_ret]. }
  apply runs_ret.
Qed.

Lemma runs_parse (p : Parser) : 0 <= currIdx p -> runs parse p.
Proof.
  intros Hi. unfold parse.
  apply runs_bind; [split; simpl; [reflexivity | lia]|].
  intros [] p1 H. injection H as <-.
  apply runs_bind; [apply runs_gets|].
  intros p2 p3 H. injection H as <- <-.
  apply runs_parseElement. unfold remaining, size; simpl. lia.
Qed.

(** [parse()] ends on every input: the bound on the depth of the calls and
    the bounds on the loops are never reached, so that a call of [parse()]
    ends with a value or with an exception. *)
Lemma parse_terminates (text : string) :
  parse (Parser_new text) <> OutOfFuel.
Proof.
  assert (Hi : 0 <= currIdx (Parser_new text)).
  { unfold Parser_new, advance_state; simpl.
    destruct (_ <? _); [destruct (String.get _ _)|]; simpl; lia. }
  pose proof (runs_parse (Parser_new text) Hi) as H.
  unfold runs, runs_to in H. intros E. now rewrite E in H.
Qed.

(* ===================================================================== *)
(** * Strings that end with the input *)
(* ===================================================================== *)

(** An opening quote, at least one character, and the end of the input:
    the missing quote is reported. *)
Lemma parseString_unterminated (p : Parser) (pre : string) (c : ascii)
    (s : string) :
  at_pos p pre (String dquote (String c s)) ->
  no_quote (String c s) = true ->
  parseString p
  = Return (String c s,
            reported string_end_msg
              (after p (String dquote (String c s)) EmptyString)).
Proof.
  intros Hp Hq. rewrite (parseString_quote p (currChar_at _ _ _ _ Hp)).
  rewrite (advance_at _ _ _ _ Hp).
  pose proof (at_pos_after p pre (str1 dquote) _ Hp) as Hp1.
  set (p1 := after p (str1 dquote) (String c s)) in *.
  assert (Hi : currIdx p1 = Z.of_nat (String.length (pre +:+ str1 dquote)))
    by (destruct Hp1 as (_ & Hi & _); exact Hi).
  rewrite Hi, (parseString_from_open p1 _ _ Hp1 Hq). cbv zeta.
  assert (Hc : Ascii.eqb (currChar (after p1 (String c s) EmptyString)) dquote
               = false).
  { apply Ascii.eqb_neq. simpl. simpl in Hq. apply andb_prop in Hq as [H1 H2].
    apply last_char_no_quote; [exact H2|].
    now apply negb_true_iff, Ascii.eqb_neq in H1. }
  rewrite Hc. unfold p1.
  now rewrite (after_after_eq p (str1 dquote) _ (String c s) EmptyString
                 (eq_sym (append_nil_r _))).
Qed.

(** An opening quote that is the last character of the input: [advance]
    leaves [currChar] on it, and [consume] takes it for the closing quote.
    The empty string is returned and nothing is reported. *)
Lemma parseString_quote_at_end (p : Parser) (pre : string) :
  at_pos p pre (str1 dquote) ->
  exists p', parseString p = Return (EmptyString, p')
             /\ isOk p' = isOk p /\ cout p' = cout p.
Proof.
  intros Hp. rewrite (parseString_quote p (currChar_at _ _ _ _ Hp)).
  rewrite (advance_at _ _ _ _ Hp).
  pose proof (at_pos_after p pre (str1 dquote) EmptyString Hp) as Hp1.
  set (p1 := after p (str1 dquote) EmptyString) in *.
  assert (Hi : currIdx p1 = Z.of_nat (String.length (pre +:+ str1 dquote)))
    by (destruct Hp1 as (_ & Hi & _); exact Hi).
  rewrite Hi, (parseString_from_open p1 _ EmptyString Hp1 eq_refl). cbv zeta.
  assert (Hc : Ascii.eqb (currChar (after p1 EmptyString EmptyString)) dquote
               = true) by reflexivity.
  rewrite Hc. eexists. split; [reflexivity|].
  unfold advance_state. destruct (_ <? _); [destruct (String.get _ _)|];
    split; reflexivity.
Qed.

(* ===================================================================== *)
(** * White space *)
(* ===================================================================== *)

Lemma skipWhitespace_unfold (p : Parser) :
  skipWhitespace p = skipWhitespace_loop (S (remaining p)) p.
Proof. reflexivity. Qed.

Lemma skipWhitespace_loop_over (ws : string) :
  forall (n : nat) (p : Parser) (pre rest : string),
    at_pos p pre (ws +:+ rest) ->
    all_whitespace ws = true ->
    no_space_ahead rest ->
    (String.length ws < n)%nat ->
    skipWhitespace_loop n p = Return (tt, skipped p ws rest).
Proof.
  induction ws as [|c ws IH]; intros n p pre rest Hp Hw Hr Hn;
    (destruct n as [|n]; [simpl in Hn; lia|]); unfold skipWhitespace_loop.
  - simpl in Hp. rewrite while_stop.
    + unfold skipped. rewrite (after_nil _ _ _ Hp). simpl.
      rewrite Z.add_0_r. now destruct p.
    + rewrite (isEOF_at _ _ _ Hp). destruct rest as [|d rest]; [reflexivity|].
      rewrite (currChar_at _ _ _ _ Hp). simpl in Hr. now rewrite Hr.
  - simpl in Hp, Hw. apply andb_prop in Hw as [Hc Hw].
    pose proof (currChar_at _ _ _ _ Hp) as Hcc.
    set (p0 := if Ascii.eqb c LF then set_currLine (currLine p + 1) p else p).
    assert (Hp0 : at_pos p0 pre (String c (ws +:+ rest)))
      by (unfold p0; destruct (Ascii.eqb c LF); exact Hp).
    rewrite (while_continue _ _ _ tt tt p (advance_state p0)).
    + fold (skipWhitespace_loop n). rewrite (advance_at _ _ _ _ Hp0).
      rewrite (IH n _ (pre +:+ str1 c) rest).
      * f_equal. f_equal. unfold skipped.
        rewrite after_after. unfold after, set_currLine, set_cursor, p0.
        simpl. destruct (Ascii.eqb c LF); simpl; f_equal; lia.
      * apply at_pos_after. exact Hp0.
      * exact Hw.
      * exact Hr.
      * simpl in Hn. lia.
    + rewrite (isEOF_at _ _ _ Hp), Hcc. simpl. exact Hc.
    + unfold bind at 1, gets; simpl. rewrite Hcc. unfold p0.
      destruct (Ascii.eqb c LF); reflexivity.
Qed.

(** [skipWhitespace] goes over the white space ahead, stops before the
    first character that is none, and counts the line feeds. *)
Lemma skipWhitespace_over (p : Parser) (pre ws rest : string) :
  at_pos p pre (ws +:+ rest) ->
  all_whitespace ws = true ->
  no_space_ahead rest ->
  skipWhitespace p = Return (tt, skipped p ws rest).
Proof.
  intros Hp Hw Hr. rewrite skipWhitespace_unfold.
  apply (skipWhitespace_loop_over ws _ p pre rest Hp Hw Hr).
  rewrite (remaining_at _ _ _ Hp), length_append. lia.
Qed.

Lemma parseElement_whitespace (fuel : nat) (p : Parser) :
  isWhitespace (currChar p) = true ->
  parseElement (S fuel) p
  = (skipWhitespace;;
     c' <- gets currChar;;
     reportError ("Unexpected character: '" +:+ str1 c' +:+ "'");;
     ret Value_default) p.
Proof.
  intros H. simpl. unfold bind at 1, gets; simpl.
  assert (E : Ascii.eqb (currChar p) "{" = false
              /\ Ascii.eqb (currChar p) "[" = false
              /\ Ascii.eqb (currChar p) dquote = false
              /\ Ascii.eqb (currChar p) "t" = false
              /\ Ascii.eqb (currChar p) "f" = false
              /\ Ascii.eqb (currChar p) "n" = false
              /\ (Ascii.eqb (currChar p) "+" || Ascii.eqb (currChar p) "-"
                  || isdigit (currChar p)) = false).
  { destruct (currChar p) as [[] [] [] [] [] [] [] []];
      try discriminate H; repeat split; reflexivity. }
  destruct E as (-> & -> & -> & -> & -> & -> & ->). rewrite H.
  unfold bind, ret. destruct (skipWhitespace p) as [[[] q]| | |]; reflexivity.
Qed.

(* ===================================================================== *)
(** * Parsing with white space between the tokens *)
(* ===================================================================== *)

Lemma lands_trans (p q r : Parser) (pre1 rest1 pre2 rest2 : string) :
  lands p q pre1 rest1 -> lands q r pre2 rest2 -> lands p r pre2 rest2.
Proof.
  intros (_ & H1 & H2) (H3 & H4 & H5).
  split; [exact H3 | split; congruence].
Qed.

Lemma lands_after (p : Parser) (pre s rest : string) :
  at_pos p pre (s +:+ rest) -> lands p (after p s rest) (pre +:+ s) rest.
Proof. intros H. split; [now apply at_pos_after | split; reflexivity]. Qed.

Lemma lands_skipped (p : Parser) (pre ws rest : string) :
  at_pos p pre (ws +:+ rest) -> lands p (skipped p ws rest) (pre +:+ ws) rest.
Proof.
  intros H. split; [|split; reflexivity].
  exact (at_pos_after _ _ _ _ H).
Qed.

Lemma parses_back_reads_as (x : Value) (text : string) :
  parses_back x text -> reads_as x text.
Proof.
  intros H fuel p pre rest Hf Hp Hr. rewrite (H fuel p pre rest Hf Hp Hr).
  eexists. split; [reflexivity|]. now apply lands_after.
Qed.

Lemma whitespace_facts (c : ascii) :
  isWhitespace c = true ->
  c <> "]"%char /\ c <> "}"%char /\ isNumberChar c = false
  /\ c <> dquote /\ c <> ","%char /\ c <> ":"%char.
Proof.
  intros H. destruct c as [[] [] [] [] [] [] [] []]; try discriminate H;
    repeat split; discriminate.
Qed.

Lemma ends_number_closing (w : string) (c : ascii) (rest : string) :
  all_whitespace w = true -> isNumberChar c = false ->
  ends_number (w +:+ String c rest).
Proof.
  intros Hw Hc. destruct w as [|d w]; simpl; [exact Hc|].
  simpl in Hw. apply andb_prop in Hw as [Hd _].
  now destruct (whitespace_facts d Hd) as (_ & _ & ? & _).
Qed.

Lemma head_of_spaced (w : string) (c : ascii) (t rest : string) :
  all_whitespace w = true ->
  exists d u, w +:+ String c t +:+ rest = String d u
              /\ (isWhitespace d = true \/ d = c).
Proof.
  intros Hw. destruct w as [|d w]; simpl.
  - eexists _, _. split; [reflexivity | now right].
  - simpl in Hw. apply andb_prop in Hw as [Hd _].
    eexists _, _. split; [reflexivity | now left].
Qed.

Ltac str_norm :=
  repeat (progress (rewrite ?append_assoc, ?append_nil_r; simpl)).

(** [H] is the goal up to the bracketing of the texts. *)
Ltac same_text H := revert H; str_norm; trivial.

Lemma parseArray_spaced (f : nat) (xs : list Value)
    (items : list (string * string)) (wclose : string)
    (p : Parser) (pre rest : string) :
  Forall2 (item_ok f) xs items ->
  all_whitespace wclose = true ->
  at_pos p pre
    (String "[" (array_body items +:+ wclose +:+ String "]" rest)) ->
  exists q,
    parseArray (parseElement f) p = Return (makeArray xs, q)
    /\ lands p q
         (pre +:+ String "[" (array_body items +:+ wclose +:+ "]")) rest.
Proof.
  intros Hall Hwc Hp. unfold parseArray. unfold bind at 1, gets; simpl.
  rewrite (currChar_at _ _ _ _ Hp). simpl.
  unfold bind at 1, advance, modify; simpl. rewrite (advance_at _ _ _ _ Hp).
  pose proof (lands_after p pre (str1 "[") _ Hp) as Hl1.
  set (p1 := after p (str1 "[") _) in *.
  assert (Hloop : forall xs items,
             Forall2 (item_ok f) xs items -> items <> [] ->
             forall n a q pre0,
               at_pos q pre0
                 (array_body items +:+ wclose +:+ String "]" rest) ->
               (String.length (array_body items) < n)%nat ->
               exists q',
                 while n
                   (fun (_ : list Value) (p : Parser) =>
                      negb (isEOF p) && negb (Ascii.eqb (currChar p) "]"))
                   (fun a : list Value =>
                      skipWhitespace;;
                      x <- parseElement f;;
                      skipWhitespace;;
                      c <- gets currChar;;
                      (if negb (Ascii.eqb c ",")
                       then ret (Break (a ++ [x])%list)
                       else advance;; ret (Continue (a ++ [x])%list)))
                   a q
                 = Return ((a ++ xs)%list, q')
                 /\ lands q q' (pre0 +:+ array_body items +:+ wclose)
                      (String "]" rest)).
  { clear -Hwc.
    induction 1 as [|x [w t] xs items (Hw & Hh & Hx & Hf) Hall IH];
      intros Hne n a q pre0 Hq Hn; [congruence|].
    match goal with
    | |- context [while _ ?c ?b _] => set (cond := c); set (body := b)
    end.
    destruct n as [|n]; [simpl in Hn; lia|].
    set (sep := match items with
                | [] => EmptyString
                | _ => "," +:+ array_body items
                end) in *.
    change (array_body ((w, t) :: items)) with (w +:+ t +:+ sep) in *.
    simpl fst in *; simpl snd in *.
    destruct t as [|c t]; [destruct Hh|]. destruct Hh as (Hws & Hbr).
    set (R1 := sep +:+ wclose +:+ String "]" rest).
    assert (Hq0 : at_pos q pre0 (w +:+ String c t +:+ R1)).
    { revert Hq. unfold R1. now rewrite !append_assoc. }
    assert (Hcond : cond a q = true).
    { unfold cond.
      destruct (head_of_spaced w c t R1 Hw) as (d & u & Hd & Hcase).
      rewrite Hd in Hq0.
      rewrite (isEOF_at _ _ _ Hq0), (currChar_at _ _ _ _ Hq0). simpl.
      apply negb_true_iff, Ascii.eqb_neq.
      destruct Hcase as [Hd'| ->].
      - now destruct (whitespace_facts d Hd').
      - now apply Ascii.eqb_neq. }
    pose proof (skipWhitespace_over q pre0 w _ Hq0 Hw Hws) as Hsk1.
    pose proof (lands_skipped q pre0 w _ Hq0) as Hl1.
    set (q1 := skipped q w (String c t +:+ R1)) in *.
    assert (Hr1 : ends_number R1).
    { unfold R1, sep. destruct items; [|reflexivity].
      simpl. now apply ends_number_closing. }
    destruct (Hx f q1 (pre0 +:+ w) R1 Hf (proj1 Hl1) Hr1)
      as (q2 & He & Hl2).
    destruct items as [|it items].
    - inversion Hall; subst.
      assert (Hq2 : at_pos q2 ((pre0 +:+ w) +:+ String c t)
                      (wclose +:+ String "]" rest)) by exact (proj1 Hl2).
      pose proof (skipWhitespace_over q2 _ wclose _ Hq2 Hwc eq_refl) as Hsk2.
      pose proof (lands_skipped q2 _ wclose _ Hq2) as Hl3.
      set (q3 := skipped q2 wclose (String "]" rest)) in *.
      exists q3. split.
      + apply while_break; [exact Hcond|].
        unfold body. rewrite (bind_Return _ _ _ _ _ Hsk1).
        rewrite (bind_Return _ _ _ _ _ He).
        rewrite (bind_Return _ _ _ _ _ Hsk2).
        unfold bind, gets; simpl.
        rewrite ?(currChar_at _ _ _ _ (proj1 Hl3)). reflexivity.
      + pose proof (lands_trans _ _ _ _ _ _ _
                      (lands_trans _ _ _ _ _ _ _ Hl1 Hl2) Hl3) as H.
        unfold sep. same_text H.
    - assert (Hq2 : at_pos q2 ((pre0 +:+ w) +:+ String c t)
                      (String ","
                         (array_body (it :: items) +:+ wclose
                          +:+ String "]" rest))).
      { pose proof (proj1 Hl2) as H. revert H. unfold R1, sep.
        now rewrite !append_assoc. }
      pose proof (lands_after q2 _ (str1 ",") _ Hq2) as Hl3.
      set (q3 := after q2 (str1 ",") _) in *.
      destruct (IH ltac:(discriminate) n (a ++ [x])%list q3 _ (proj1 Hl3))
        as (q' & Hw' & Hl').
      { unfold sep in Hn. rewrite !length_append in Hn.
        cbn [String.length] in Hn. lia. }
      exists q'. split.
      + rewrite (while_continue _ _ _ _ (a ++ [x])%list q q3 Hcond).
        * fold cond body in Hw'. rewrite Hw'. now rewrite <- app_assoc.
        * unfold body. rewrite (bind_Return _ _ _ _ _ Hsk1).
          rewrite (bind_Return _ _ _ _ _ He).
          rewrite (bind_Return _ _ _ _ _
                     (skipWhitespace_at _ _ _ _ Hq2 eq_refl)).
          unfold bind at 1, gets; simpl.
          rewrite ?(currChar_at _ _ _ _ Hq2). simpl.
          unfold bind, advance, modify, ret; simpl.
          now rewrite (advance_at _ _ _ _ Hq2).
      + pose proof (lands_trans _ _ _ _ _ _ _
                      (lands_trans _ _ _ _ _ _ _
                         (lands_trans _ _ _ _ _ _ _ Hl1 Hl2) Hl3) Hl') as H.
        unfold sep. same_text H. }
  destruct Hall as [|x [w t] xs items Hit Hall].
  - (* no element *)
    simpl in Hl1. simpl array_body in p1.
    pose proof (skipWhitespace_over p1 _ wclose _ (proj1 Hl1) Hwc eq_refl)
      as Hsk.
    pose proof (lands_skipped p1 _ wclose _ (proj1 Hl1)) as Hl2.
    rewrite (bind_Return _ _ _ _ _ Hsk).
    set (p2 := skipped p1 wclose (String "]" rest)) in *.
    unfold turns. unfold bind at 1, gets; simpl.
    match goal with
    | |- context [while ?n ?c ?b ?a] =>
        assert (Hst : while n c b a p2 = Return (a, p2))
    end.
    { apply while_stop.
      rewrite (isEOF_at _ _ _ (proj1 Hl2)), (currChar_at _ _ _ _ (proj1 Hl2)).
      reflexivity. }
    rewrite (bind_Return _ _ _ _ _ Hst).
    rewrite (bind_Return _ _ _ _ _ (consume_match _ _ _ _ _ (proj1 Hl2))).
    eexists. split; [reflexivity|].
    pose proof (lands_after p2 _ (str1 "]") rest (proj1 Hl2)) as Hl3.
    pose proof (lands_trans _ _ _ _ _ _ _
                  (lands_trans _ _ _ _ _ _ _ Hl1 Hl2) Hl3) as H.
    same_text H.
  - (* the first element: its white space is skipped before the loop *)
    destruct Hit as (Hw & Hh & Hx & Hf). simpl fst in *; simpl snd in *.
    set (sep := match items with
                | [] => EmptyString
                | _ => "," +:+ array_body items
                end) in *.
    change (array_body ((w, t) :: items)) with (w +:+ t +:+ sep) in *.
    assert (Hp1 : at_pos p1 (pre +:+ str1 "[")
                    (w +:+ array_body ((EmptyString, t) :: items)
                     +:+ wclose +:+ String "]" rest)).
    { pose proof (proj1 Hl1) as H. revert H. simpl. fold sep.
      now rewrite !append_assoc. }
    assert (Hns : no_space_ahead
                    (array_body ((EmptyString, t) :: items)
                     +:+ wclose +:+ String "]" rest)).
    { simpl. destruct t as [|c t]; [destruct Hh|]. apply Hh. }
    pose proof (skipWhitespace_over p1 _ w _ Hp1 Hw Hns) as Hsk.
    pose proof (lands_skipped p1 _ w _ Hp1) as Hl2.
    rewrite (bind_Return _ _ _ _ _ Hsk).
    set (p2 := skipped p1 w _) in *.
    unfold turns. unfold bind at 1, gets; simpl.
    destruct (Hloop (x :: xs) ((EmptyString, t) :: items)
                ltac:(constructor; [repeat split; auto|exact Hall])
                ltac:(discriminate)
                (S (remaining p2)) [] p2 _ (proj1 Hl2))
      as (q & Hwq & Hl3).
    { rewrite (remaining_at _ _ _ (proj1 Hl2)), length_append. lia. }
    rewrite (bind_Return _ _ _ _ _ Hwq).
    rewrite (bind_Return _ _ _ _ _ (consume_match _ _ _ _ _ (proj1 Hl3))).
    eexists. split; [reflexivity|].
    pose proof (lands_after q _ (str1 "]") rest (proj1 Hl3)) as Hl4.
    pose proof (lands_trans _ _ _ _ _ _ _
                  (lands_trans _ _ _ _ _ _ _
                     (lands_trans _ _ _ _ _ _ _ Hl1 Hl2) Hl3) Hl4) as H.
    unfold sep. same_text H.
Qed.

Lemma parseObject_spaced (f : nat) (es : list member) (wclose : string)
    (p : Parser) (pre rest : string) :
  Forall (member_ok f) es ->
  all_whitespace wclose = true ->
  at_pos p pre
    (String "{" (object_body es +:+ wclose +:+ String "}" rest)) ->
  exists q,
    parseObject (parseElement f) p
    = Return (foldl assign_member (makeObject ∅) es, q)
    /\ lands p q
         (pre +:+ String "{" (object_body es +:+ wclose +:+ "}")) rest.
Proof.
  intros Hall Hwc Hp. unfold parseObject. unfold bind at 1, gets; simpl.
  rewrite (currChar_at _ _ _ _ Hp). simpl.
  unfold bind at 1, advance, modify; simpl. rewrite (advance_at _ _ _ _ Hp).
  pose proof (lands_after p pre (str1 "{") _ Hp) as Hl1.
  set (p1 := after p (str1 "{") _) in *.
  assert (Hloop : forall es,
             Forall (member_ok f) es -> es <> [] ->
             forall n o q pre0,
               at_pos q pre0
                 (object_body es +:+ wclose +:+ String "}" rest) ->
               (String.length (object_body es) < n)%nat ->
               exists q',
                 while n
                   (fun (_ : Value) (p : Parser) =>
                      negb (isEOF p) && negb (Ascii.eqb (currChar p) "}"))
                   (fun o : Value =>
                      skipWhitespace;;
                      name <- parseString;;
                      skipWhitespace;;
                      c <- gets currChar;;
                      (if negb (Ascii.eqb c ":")
                       then reportError "Expected ':' for value assignment";;
                            ret (Break o)
                       else
                         advance;;
                         skipWhitespace;;
                         x <- parseElement f;;
                         skipWhitespace;;
                         (let o' := assign_key o name x in
                          c0 <- gets currChar;;
                          (if negb (Ascii.eqb c0 ",")
                           then ret (Break o')
                           else advance;; ret (Continue o')))))
                   o q
                 = Return (foldl assign_member o es, q')
                 /\ lands q q' (pre0 +:+ object_body es +:+ wclose)
                      (String "}" rest)).
  { clear -Hwc.
    induction 1 as [|[w k g x t] es (Hw & Hk & Hg & Hh & Hx & Hf) Hall IH];
      intros Hne n o q pre0 Hq Hn; [congruence|].
    match goal with
    | |- context [while _ ?c ?b _] => set (cond := c); set (body := b)
    end.
    destruct n as [|n]; [simpl in Hn; lia|].
    cbn [m_space m_key m_gap m_value m_text] in *.
    set (sep := match es with
                | [] => EmptyString
                | _ => "," +:+ object_body es
                end) in *.
    change (object_body (mkMember w k g x t :: es))
      with (member_text (mkMember w k g x t) +:+ sep) in *.
    unfold member_text in *. cbn [m_space m_key m_gap m_value m_text] in *.
    destruct t as [|c t]; [destruct Hh|]. destruct Hh as (Hws & Hbr).
    set (R1 := sep +:+ wclose +:+ String "}" rest).
    assert (Hq0 : at_pos q pre0
                    (w +:+ String dquote
                       (k +:+ String dquote
                          (String ":" (g +:+ String c t +:+ R1))))).
    { unfold R1. same_text Hq. }
    assert (Hcond : cond o q = true).
    { unfold cond.
      destruct (head_of_spaced w dquote
                  (k +:+ String dquote
                     (String ":" (g +:+ String c t +:+ R1)))
                  EmptyString Hw) as (d & u & Hd & Hcase).
      rewrite append_nil_r in Hd. rewrite Hd in Hq0.
      rewrite (isEOF_at _ _ _ Hq0), (currChar_at _ _ _ _ Hq0). simpl.
      apply negb_true_iff, Ascii.eqb_neq.
      destruct Hcase as [Hd'| ->]; [|discriminate].
      now destruct (whitespace_facts d Hd') as (_ & ? & _). }
    pose proof (skipWhitespace_over q pre0 w _ Hq0 Hw eq_refl) as Hsk1.
    pose proof (lands_skipped q pre0 w _ Hq0) as Hl1.
    set (q1 := skipped q w _) in *.
    pose proof (parseString_closed q1 _ k _ (proj1 Hl1) Hk) as Hs.
    assert (Hq1 : at_pos q1 (pre0 +:+ w)
                    (String dquote (k +:+ str1 dquote)
                     +:+ String ":" (g +:+ String c t +:+ R1))).
    { pose proof (proj1 Hl1) as H. same_text H. }
    pose proof (lands_after q1 _ _ _ Hq1) as Hl2.
    set (q2 := after q1 (String dquote (k +:+ str1 dquote)) _) in *.
    pose proof (lands_after q2 _ (str1 ":") _ (proj1 Hl2)) as Hl3.
    set (q3 := after q2 (str1 ":") _) in *.
    pose proof (skipWhitespace_over q3 _ g _ (proj1 Hl3) Hg Hws) as Hsk3.
    pose proof (lands_skipped q3 _ g _ (proj1 Hl3)) as Hl4.
    set (q4 := skipped q3 g _) in *.
    assert (Hr1 : ends_number R1).
    { unfold R1, sep. destruct es; [|reflexivity].
      simpl. now apply ends_number_closing. }
    destruct (Hx f q4 _ R1 Hf (proj1 Hl4) Hr1) as (q5 & He & Hl5).
    pose proof (lands_trans _ _ _ _ _ _ _
                  (lands_trans _ _ _ _ _ _ _
                     (lands_trans _ _ _ _ _ _ _
                        (lands_trans _ _ _ _ _ _ _ Hl1 Hl2) Hl3) Hl4) Hl5)
      as Hl15.
    destruct es as [|e es].
    - assert (Hq5 : at_pos q5 (((pre0 +:+ w)
                                +:+ String dquote (k +:+ str1 dquote))
                               +:+ str1 ":" +:+ g +:+ String c t)
                      (wclose +:+ String "}" rest)).
      { pose proof (proj1 Hl5) as H. unfold R1, sep in H. same_text H. }
      pose proof (skipWhitespace_over q5 _ wclose _ Hq5 Hwc eq_refl) as Hsk5.
      pose proof (lands_skipped q5 _ wclose _ Hq5) as Hl6.
      set (q6 := skipped q5 wclose (String "}" rest)) in *.
      exists q6. split.
      + apply while_break; [exact Hcond|].
        unfold body. rewrite (bind_Return _ _ _ _ _ Hsk1).
        rewrite (bind_Return _ _ _ _ _ Hs). fold q2.
        rewrite (bind_Return _ _ _ _ _
                   (skipWhitespace_at _ _ _ _ (proj1 Hl2) eq_refl)).
        unfold bind at 1, gets; simpl.
        rewrite ?(currChar_at _ _ _ _ (proj1 Hl2)). simpl.
        unfold bind at 1, advance, modify; simpl.
        rewrite (advance_at _ _ _ _ (proj1 Hl2)). fold q3.
        rewrite (bind_Return _ _ _ _ _ Hsk3).
        rewrite (bind_Return _ _ _ _ _ He).
        rewrite (bind_Return _ _ _ _ _ Hsk5).
        unfold bind, gets; simpl.
        rewrite ?(currChar_at _ _ _ _ (proj1 Hl6)). reflexivity.
      + pose proof (lands_trans _ _ _ _ _ _ _ Hl15 Hl6) as H.
        unfold sep. same_text H.
    - assert (Hq5 : at_pos q5 (((pre0 +:+ w)
                                +:+ String dquote (k +:+ str1 dquote))
                               +:+ str1 ":" +:+ g +:+ String c t)
                      (String ","
                         (object_body (e :: es) +:+ wclose
                          +:+ String "}" rest))).
      { pose proof (proj1 Hl5) as H. unfold R1, sep in H.
        revert H. rewrite !append_assoc. trivial. }
      pose proof (lands_after q5 _ (str1 ",") _ Hq5) as Hl6.
      set (q6 := after q5 (str1 ",") _) in *.
      destruct (IH ltac:(discriminate) n
                  (assign_key o k x) q6 _ (proj1 Hl6))
        as (q' & Hw' & Hl').
      { unfold sep in Hn. rewrite !length_append in Hn.
        cbn [String.length] in Hn. lia. }
      exists q'. split.
      + rewrite (while_continue _ _ _ _ (assign_key o k x) q q6 Hcond).
        * fold cond body in Hw'. exact Hw'.
        * unfold body. rewrite (bind_Return _ _ _ _ _ Hsk1).
          rewrite (bind_Return _ _ _ _ _ Hs). fold q2.
          rewrite (bind_Return _ _ _ _ _
                     (skipWhitespace_at _ _ _ _ (proj1 Hl2) eq_refl)).
          unfold bind at 1, gets; simpl.
          rewrite ?(currChar_at _ _ _ _ (proj1 Hl2)). simpl.
          unfold bind at 1, advance, modify; simpl.
          rewrite (advance_at _ _ _ _ (proj1 Hl2)). fold q3.
          rewrite (bind_Return _ _ _ _ _ Hsk3).
          rewrite (bind_Return _ _ _ _ _ He).
          rewrite (bind_Return _ _ _ _ _
                     (skipWhitespace_at _ _ _ _ Hq5 eq_refl)).
          unfold bind at 1, gets; simpl.
          rewrite ?(currChar_at _ _ _ _ Hq5). simpl.
          unfold bind, advance, modify, ret; simpl.
          now rewrite (advance_at _ _ _ _ Hq5).
      + pose proof (lands_trans _ _ _ _ _ _ _
                      (lands_trans _ _ _ _ _ _ _ Hl15 Hl6) Hl') as H.
        unfold sep. same_text H. }
  destruct Hall as [|[w k g x t] es Hit Hall].
  - (* no member *)
    simpl in Hl1. simpl object_body in p1.
    pose proof (skipWhitespace_over p1 _ wclose _ (proj1 Hl1) Hwc eq_refl)
      as Hsk.
    pose proof (lands_skipped p1 _ wclose _ (proj1 Hl1)) as Hl2.
    rewrite (bind_Return _ _ _ _ _ Hsk).
    set (p2 := skipped p1 wclose (String "}" rest)) in *.
    unfold turns. unfold bind at 1, gets; simpl.
    match goal with
    | |- context [while ?n ?c ?b ?a] =>
        assert (Hst : while n c b a p2 = Return (a, p2))
    end.
    { apply while_stop.
      rewrite (isEOF_at _ _ _ (proj1 Hl2)), (currChar_at _ _ _ _ (proj1 Hl2)).
      reflexivity. }
    rewrite (bind_Return _ _ _ _ _ Hst).
    rewrite (bind_Return _ _ _ _ _ (consume_match _ _ _ _ _ (proj1 Hl2))).
    eexists. split; [reflexivity|].
    pose proof (lands_after p2 _ (str1 "}") rest (proj1 Hl2)) as Hl3.
    pose proof (lands_trans _ _ _ _ _ _ _
                  (lands_trans _ _ _ _ _ _ _ Hl1 Hl2) Hl3) as H.
    same_text H.
  - (* the first member: its white space is skipped before the loop *)
    destruct Hit as (Hw & Hk & Hg & Hh & Hx & Hf).
    cbn [m_space m_key m_gap m_value m_text] in *.
    set (sep := match es with
                | [] => EmptyString
                | _ => "," +:+ object_body es
                end) in *.
    assert (Hp1 : at_pos p1 (pre +:+ str1 "{")
                    (w +:+ object_body (mkMember EmptyString k g x t :: es)
                     +:+ wclose +:+ String "}" rest)).
    { pose proof (proj1 Hl1) as H. simpl. unfold member_text; simpl.
      simpl in H. unfold member_text in H; simpl in H. same_text H. }
    pose proof (skipWhitespace_over p1 _ w _ Hp1 Hw eq_refl) as Hsk.
    pose proof (lands_skipped p1 _ w _ Hp1) as Hl2.
    rewrite (bind_Return _ _ _ _ _ Hsk).
    set (p2 := skipped p1 w _) in *.
    unfold turns. unfold bind at 1, gets; simpl.
    destruct (Hloop (mkMember EmptyString k g x t :: es)
                ltac:(constructor; [repeat split; auto|exact Hall])
                ltac:(discriminate)
                (S (remaining p2)) (makeObject ∅) p2 _ (proj1 Hl2))
      as (q & Hwq & Hl3).
    { rewrite (remaining_at _ _ _ (proj1 Hl2)), length_append. lia. }
    rewrite (bind_Return _ _ _ _ _ Hwq).
    rewrite (bind_Return _ _ _ _ _ (consume_match _ _ _ _ _ (proj1 Hl3))).
    eexists. split; [reflexivity|].
    pose proof (lands_after q _ (str1 "}") rest (proj1 Hl3)) as Hl4.
    pose proof (lands_trans _ _ _ _ _ _ _
                  (lands_trans _ _ _ _ _ _ _
                     (lands_trans _ _ _ _ _ _ _ Hl1 Hl2) Hl3) Hl4) as H.
    unfold sep, member_text. simpl. unfold member_text in H. same_text H.
Qed.

Lemma all_whitespace_spaces (n : nat) :
  all_whitespace (replicate_char n " ") = true.
Proof. induction n as [|n IH]; simpl; auto. Qed.

Lemma all_whitespace_separator (indent depth : Z) :
  all_whitespace (separator indent depth) = true.
Proof.
  unfold separator. destruct (0 <? indent); [|reflexivity].
  simpl. apply all_whitespace_spaces.
Qed.

Lemma all_whitespace_closing (indent depth : Z) :
  all_whitespace (closing indent depth) = true.
Proof.
  unfold closing. destruct (0 <? indent); simpl; apply all_whitespace_spaces.
Qed.

Lemma all_whitespace_gap (indent : Z) : all_whitespace (gap indent) = true.
Proof. unfold gap. now destruct (0 <? indent). Qed.

Lemma indentation_inv (indent depth : Z) (sp : string) :
  indentation indent depth = Return sp ->
  sp = replicate_char (Z.to_nat (indent * depth)) " ".
Proof.
  unfold indentation, int_mul, string_of_spaces.
  destruct (_ && _); simpl; [|discriminate].
  destruct (_ <? 0); [discriminate|]. now intros [= <-].
Qed.

Lemma for_body_inv (indent depth : Z) (repr : string)
    (item : outcome string) (last : bool) (r : string) :
  for_body indent depth repr item last = Return r ->
  exists t, item = Return t
            /\ r = repr +:+ separator indent (depth + 1) +:+ t
                   +:+ (if last then EmptyString else ",").
Proof.
  unfold for_body, separator. destruct (0 <? indent).
  - destruct (indentation indent (depth + 1)) as [sp| | |] eqn:E; simpl;
      try discriminate.
    apply indentation_inv in E. subst sp.
    destruct item as [t| | |]; simpl; try discriminate.
    intros [= <-]. exists t. split; [reflexivity|].
    now rewrite !append_assoc.
  - simpl. destruct item as [t| | |]; simpl; try discriminate.
    intros [= <-]. exists t. split; reflexivity.
Qed.

Lemma close_container_inv (indent depth : Z) (repr closer text : string) :
  close_container indent depth repr closer = Return text ->
  text = repr +:+ closing indent depth +:+ closer.
Proof.
  unfold close_container, closing.
  destruct (indentation indent depth) as [sp| | |] eqn:E; simpl;
    try discriminate.
  apply indentation_inv in E. subst sp. intros [= <-].
  destruct (0 <? indent); now rewrite ?append_assoc.
Qed.

Lemma for_each_inv {A} (indent depth : Z) (g : A -> outcome string)
    (l : list A) :
  forall repr r,
    for_each (fun repr x last => for_body indent depth repr (g x) last)
      l repr = Return r ->
    exists texts,
      Forall2 (fun x t => g x = Return t) l texts
      /\ r = repr +:+ array_body
                        (map (fun t => (separator indent (depth + 1), t))
                           texts).
Proof.
  induction l as [|x l IH]; intros repr r; simpl.
  - intros [= <-]. exists []. split; [constructor|].
    simpl. now rewrite append_nil_r.
  - destruct (for_body _ _ _ _ _) as [r1| | |] eqn:E; simpl; try discriminate.
    intros H. destruct (for_body_inv _ _ _ _ _ _ E) as (t & Ht & ->).
    destruct (IH _ _ H) as (texts & Hall & ->).
    exists (t :: texts). split; [now constructor|].
    simpl. destruct l as [|y l].
    + inversion Hall; subst. simpl. now rewrite !append_assoc, ?append_nil_r.
    + inversion Hall; subst. simpl.
      rewrite !append_assoc. simpl. reflexivity.
Qed.

Lemma length_array_body (w t : string) (items : list (string * string)) :
  (w, t) ∈ items ->
  (String.length t <= String.length (array_body items))%nat.
Proof.
  induction items as [|it items IH]; intros H; [inversion H|].
  change (array_body (it :: items))
    with (it.1 +:+ it.2
          +:+ match items with
              | [] => EmptyString
              | _ => "," +:+ array_body items
              end).
  rewrite !length_append.
  apply elem_of_cons in H as [<- | H]; [simpl; lia|].
  specialize (IH H). destruct items; [inversion H|].
  rewrite length_append. cbn [String.length]. lia.
Qed.

Lemma length_object_body (e : member) (es : list member) :
  e ∈ es ->
  (String.length (m_text e) <= String.length (object_body es))%nat.
Proof.
  induction es as [|e' es IH]; intros H; [inversion H|].
  change (object_body (e' :: es))
    with (member_text e'
          +:+ match es with
              | [] => EmptyString
              | _ => "," +:+ object_body es
              end).
  rewrite length_append.
  apply elem_of_cons in H as [<- | H].
  - unfold member_text. rewrite !length_append. lia.
  - specialize (IH H). destruct es; [inversion H|].
    rewrite length_append. cbn [String.length]. lia.
Qed.

Lemma parseElement_object' (f : nat) (p : Parser) :
  currChar p = "{"%char ->
  parseElement (S f) p = parseObject (parseElement f) p.
Proof.
  intros Hc. simpl. unfold bind at 1, gets; simpl. rewrite Hc. simpl.
  unfold bind, ret. destruct (parseObject (parseElement f) p) as [[v q]| | |];
    reflexivity.
Qed.

Lemma parseElement_array (f : nat) (p : Parser) :
  currChar p = "["%char ->
  parseElement (S f) p = parseArray (parseElement f) p.
Proof.
  intros Hc. simpl. unfold bind at 1, gets; simpl. rewrite Hc. simpl.
  unfold bind, ret. destruct (parseArray (parseElement f) p) as [[v q]| | |];
    reflexivity.
Qed.

Lemma foldl_assign_member (es : list member) (o : gmap string Value) :
  foldl assign_member (makeObject o) es
  = makeObject
      (foldl insert_entry o
         (map (fun e => (m_key e, m_value e, m_text e)) es)).
Proof.
  revert o. induction es as [|e es IH]; intros o; simpl; [reflexivity|].
  unfold assign_member at 2, assign_key; simpl. apply IH.
Qed.

Lemma Forall2_map_indexed {A B C} (f : nat -> A -> B) (P : B -> C -> Prop)
    (l : list A) :
  forall (i : nat) (ys : list C),
    Forall2 P (map_indexed f i l) ys ->
    Forall2 (fun x y => exists j, P (f j x) y) l ys.
Proof.
  induction l as [|x l IH]; intros i ys H; simpl in H; inversion H; subst;
    constructor; eauto.
Qed.

Lemma rendered_reads_as (v : Value) :
  round_trippable v ->
  forall (order : walk),
    walks_every_entry order ->
    forall (indent depth : Z) (text : string),
      getRepresentation order v indent depth = Return text ->
      value_head text /\ reads_as v text.
Proof.
  induction 1 as [|b|s Hs|x (t & Ht & Hx)|l _ IH|m Hk _ IH];
    intros order order_walks indent depth text Hr.
  - injection Hr as <-. split; [split; reflexivity|].
    apply parses_back_reads_as.
    apply (parses_back_identifier "null" "n" "ull"); auto.
  - simpl in Hr. injection Hr as <-. split; [destruct b; split; reflexivity|].
    apply parses_back_reads_as. destruct b.
    + apply (parses_back_identifier "true" "t" "rue"); auto.
    + apply (parses_back_identifier "false" "f" "alse"); auto.
  - injection Hr as <-. split; [split; reflexivity|].
    apply parses_back_reads_as. now apply parses_back_string.
  - assert (text = t) by (simpl in Hr, Ht; congruence). subst text.
    split; [|apply parses_back_reads_as; now apply parses_back_number].
    destruct (number_text_token _ _ _ _ _ Ht) as (_ & c & t' & -> & _ & Hw & Hb).
    now split.
  - (* Array *)
    simpl in Hr. unfold toArray in Hr; simpl in Hr.
    destruct (for_each _ _ _) as [repr| | |] eqn:E; simpl in Hr;
      try discriminate.
    apply close_container_inv in Hr.
    destruct (for_each_inv indent depth (fun o => o) _ _ _ E)
      as (texts & Hall & ->).
    apply Forall2_map_indexed in Hall.
    set (items := map (fun t => (separator indent (depth + 1), t)) texts)
      in *.
    assert (Ht : text = String "[" (array_body items
                                    +:+ closing indent depth +:+ "]")).
    { rewrite Hr. now rewrite !append_assoc. }
    clear Hr. split; [rewrite Ht; split; reflexivity|].
    intros fuel p pre rest Hf Hp Hrest.
    destruct fuel as [|f]; [lia|].
    assert (Hp' : at_pos p pre
                    (String "[" (array_body items +:+ closing indent depth
                                 +:+ String "]" rest))).
    { rewrite Ht in Hp. same_text Hp. }
    rewrite (parseElement_array _ _ (currChar_at _ _ _ _ Hp')).
    assert (Hok : Forall2 (item_ok f) l items).
    { assert (Hb : forall w t, (w, t) ∈ items -> (String.length t < f)%nat).
      { intros w t Hin. pose proof (length_array_body w t items Hin).
        rewrite Ht in Hf. simpl in Hf. rewrite !length_append in Hf. lia. }
      unfold items in *. clear -Hall IH Hb order_walks.
      induction Hall as [|x t l texts (j & Hx) _ IHl]; simpl; constructor.
      - destruct (IH x ltac:(left) _ (walks_inside (at_index j) _ order_walks)
                    _ _ _ Hx) as (Hh & Hrd).
        split; [apply all_whitespace_separator|].
        split; [exact Hh|]. split; [exact Hrd|].
        apply (Hb (separator indent (depth + 1))). left.
      - apply IHl.
        + intros y Hy. apply IH. now right.
        + intros w t' Hin. apply (Hb w). now right. }
    destruct (parseArray_spaced f l items _ p pre rest Hok
                (all_whitespace_closing indent depth) Hp') as (q & Hq & Hl).
    exists q. split; [exact Hq|]. rewrite Ht. exact Hl.
  - (* Object *)
    simpl in Hr. unfold toObject in Hr; simpl in Hr.
    set (rendered :=
           map_with_key
             (fun key x =>
                getRepresentation (inside (at_key key) order) x indent
                  (depth + 1))
             m) in *.
    destruct (for_each _ _ _) as [repr| | |] eqn:E; simpl in Hr;
      try discriminate.
    apply close_container_inv in Hr.
    destruct (for_each_inv indent depth
                (fun kv : string * outcome string =>
                   let! r := kv.2 in
                   Return (str1 dquote +:+ kv.1 +:+ str1 dquote +:+ ":"
                           +:+ (if 0 <? indent then " " else EmptyString)
                           +:+ r))
                _ _ _ E) as (texts & Hall & ->).
    assert (Hes : exists es,
               order [] rendered
               = map (fun e => (m_key e, Return (m_text e))) es
               /\ array_body
                    (map (fun t => (separator indent (depth + 1), t)) texts)
                  = object_body es
               /\ Forall (fun e => m !! m_key e = Some (m_value e)
                                   /\ m_space e = separator indent (depth + 1)
                                   /\ m_gap e = gap indent
                                   /\ no_quote (m_key e) = true
                                   /\ value_head (m_text e)
                                   /\ reads_as (m_value e) (m_text e)) es).
    { assert (Hkv : forall kv, kv ∈ order [] rendered ->
                 exists x, m !! kv.1 = Some x
                           /\ kv.2 = getRepresentation
                                       (inside (at_key kv.1) order) x indent
                                       (depth + 1)
                           /\ no_quote kv.1 = true).
      { intros [k o] Hin. rewrite (order_walks [] rendered) in Hin.
        apply elem_of_map_to_list in Hin. unfold rendered in Hin.
        rewrite lookup_map_with_key in Hin.
        destruct (m !! k) as [x|] eqn:Hm; [|discriminate Hin].
        injection Hin as Hx.
        exists x. simpl. split; [exact Hm|]. split; [now rewrite Hx|].
        eapply Hk; eauto. }
      clear E Hr. revert Hkv.
      induction Hall as [|[k o] t' kvs texts Hg Htl IHl]; intros Hkv.
      - exists []. split; [reflexivity|]. split; [reflexivity | constructor].
      - destruct (Hkv (k, o) ltac:(left)) as (x & Hm & Ho & Hq).
        simpl in Ho, Hq, Hm, Hg.
        destruct o as [t| | |]; simpl in Hg; try discriminate.
        injection Hg as <-.
        destruct (IH k x Hm _ (walks_inside (at_key k) _ order_walks)
                    _ _ _ (eq_sym Ho)) as (Hh & Hrd).
        destruct IHl as (es & Hes & Hbody & Hok).
        { intros kv Hin. apply Hkv. now right. }
        exists (mkMember (separator indent (depth + 1)) k (gap indent) x t
                  :: es).
        split; [simpl; now rewrite Hes|]. split.
        + assert (Htail :
                    match map (fun t => (separator indent (depth + 1), t))
                            texts with
                    | [] => EmptyString
                    | _ => "," +:+ array_body
                                     (map (fun t =>
                                             (separator indent (depth + 1), t))
                                        texts)
                    end
                    = match es with
                      | [] => EmptyString
                      | _ => "," +:+ object_body es
                      end).
          { destruct Htl, es as [|e2 es]; try reflexivity; try discriminate.
            cbn [map] in *. now rewrite Hbody. }
          cbn [map array_body object_body fst snd]. rewrite Htail.
          unfold member_text, gap. cbn [m_space m_key m_gap m_text].
          str_norm. reflexivity.
        + constructor; [|exact Hok]. simpl. repeat split; auto; apply Hh. }
    destruct Hes as (es & Hord & Hbody & Hok). rewrite Hbody in Hr.
    assert (Ht : text = String "{" (object_body es
                                    +:+ closing indent depth +:+ "}")).
    { rewrite Hr. now rewrite !append_assoc. }
    clear Hr. split; [rewrite Ht; split; reflexivity|].
    intros fuel p pre rest Hf Hp Hrest.
    destruct fuel as [|f]; [lia|].
    assert (Hp' : at_pos p pre
                    (String "{" (object_body es +:+ closing indent depth
                                 +:+ String "}" rest))).
    { rewrite Ht in Hp. same_text Hp. }
    rewrite (parseElement_object' _ _ (currChar_at _ _ _ _ Hp')).
    assert (Hmok : Forall (member_ok f) es).
    { assert (Hb : forall e, e ∈ es -> (String.length (m_text e) < f)%nat).
      { intros e Hin. pose proof (length_object_body e es Hin).
        rewrite Ht in Hf. simpl in Hf. rewrite !length_append in Hf. lia. }
      clear -Hok Hb. induction Hok as [|e es (_ & Hsp & Hgp & Hq & Hh & Hrd) _ IHes];
        constructor.
      - unfold member_ok. rewrite Hsp, Hgp.
        split; [apply all_whitespace_separator|]. split; [exact Hq|].
        split; [apply all_whitespace_gap|]. split; [exact Hh|].
        split; [exact Hrd|]. apply Hb. left.
      - apply IHes. intros e' He'. apply Hb. now right. }
    destruct (parseObject_spaced f es _ p pre rest Hmok
                (all_whitespace_closing indent depth) Hp') as (q & Hq & Hl).
    exists q. split; [|rewrite Ht; exact Hl].
    rewrite Hq. f_equal. f_equal. rewrite foldl_assign_member. f_equal.
    apply foldl_insert_entry.
    + clear -Hok. induction Hok as [|e es (He & _) _ IHes]; simpl;
        constructor; auto.
    + intros k x Hm.
      assert (Hin : (k, getRepresentation (inside (at_key k) order) x indent
                          (depth + 1))
                    ∈ order [] rendered).
      { rewrite (order_walks [] rendered).
        apply elem_of_map_to_list. unfold rendered.
        rewrite lookup_map_with_key, Hm. reflexivity. }
      rewrite Hord in Hin. apply list_elem_of_fmap in Hin as (e & He & Hin).
      exists (m_key e, m_value e, m_text e). split.
      * apply list_elem_of_fmap. exists e. auto.
      * simpl. now inversion He.
Qed.

(* ===================================================================== *)
(** * What the serializer writes is read back *)
(* ===================================================================== *)

(** [parse()] on the text of a tree, whatever follows the text. *)
Lemma rendered_parses
    (order : walk)
    (v : Value) (indent depth : Z) (text rest : string) :
  walks_every_entry order ->
  round_trippable v ->
  getRepresentation order v indent depth = Return text ->
  ends_number rest ->
  exists p, parse (Parser_new (text +:+ rest)) = Return (v, p)
            /\ isOK p = true
            /\ cout p = []
            /\ currIdx p = Z.of_nat (String.length text).
Proof.
  intros Ho Hv Ht Hr.
  destruct (rendered_reads_as v Hv order Ho _ _ _ Ht) as (_ & Hp).
  destruct (Parser_new_fields (text +:+ rest)) as (Hc & _ & Hk & Hw).
  rewrite parse_unfold, set_isOk_Parser_new, Hc.
  destruct (Hp (S (String.length (text +:+ rest))) (Parser_new (text +:+ rest))
              EmptyString rest) as (q & Hq & (Ha & Hqk & Hqw)).
  - rewrite length_append. lia.
  - apply at_pos_start.
  - exact Hr.
  - exists q. split; [exact Hq|]. unfold isOK. rewrite Hqk, Hqw, Hk, Hw.
    repeat split. destruct Ha as (_ & Hi & _). exact Hi.
Qed.

(* ===================================================================== *)
(** * Closing brackets that the input does not hold *)
(* ===================================================================== *)

Lemma parseArray_stale_bracket (element : M Value) (p : Parser)
    (pre : string) (c : ascii) (suf : string) (x : Value) (q : Parser) :
  at_pos p pre (String "[" (String c suf)) ->
  isWhitespace c = false -> c <> "]"%char ->
  element (after p "[" (String c suf)) = Return (x, q) ->
  isEOF q = true -> currChar q = "]"%char ->
  parseArray element p = Return (makeArray [x], advance_state q).
Proof.
  intros Hp Hw Hb He Hq Hc. unfold parseArray. unfold bind at 1, gets; simpl.
  rewrite (currChar_at _ _ _ _ Hp). simpl.
  unfold bind at 1, advance, modify; simpl. rewrite (advance_at _ _ _ _ Hp).
  pose proof (at_pos_after p pre (str1 "[") _ Hp) as Hp1.
  set (p1 := after p (str1 "[") (String c suf)) in *.
  rewrite (bind_Return _ _ _ _ _ (skipWhitespace_at _ _ _ _ Hp1 Hw)).
  unfold turns. unfold bind at 1, gets; simpl.
  match goal with
  | |- context [while _ ?cd ?b _] => set (cond := cd); set (body := b)
  end.
  assert (Hw1 : while (S (remaining p1)) cond body [] p1 = Return ([x], q)).
  { apply while_break.
    - unfold cond. rewrite (isEOF_at _ _ _ Hp1), (currChar_at _ _ _ _ Hp1).
      simpl. apply negb_true_iff, Ascii.eqb_neq. exact Hb.
    - unfold body.
      rewrite (bind_Return _ _ _ _ _ (skipWhitespace_at _ _ _ _ Hp1 Hw)).
      rewrite (bind_Return _ _ _ _ _ He).
      rewrite (bind_Return _ _ _ _ _
                 (skipWhitespace_stay q (or_introl Hq))).
      unfold bind, gets; simpl. now rewrite Hc. }
  rewrite (bind_Return _ _ _ _ _ Hw1).
  unfold consume. unfold bind at 1. unfold bind at 1, gets; simpl.
  rewrite Hc. reflexivity.
Qed.

(** The text of an Array begins and ends with its brackets. *)
Lemma array_text_shape
    (order : walk)
    (l : list Value) (indent depth : Z) (text : string) :
  getRepresentation order (makeArray l) indent depth = Return text ->
  exists s, text = String "[" (s +:+ "]").
Proof.
  simpl. unfold toArray; simpl.
  destruct (for_each _ _ _) as [repr| | |] eqn:E; simpl; try discriminate.
  intros Hr. apply close_container_inv in Hr.
  destruct (for_each_inv indent depth (fun x => x) _ _ _ E) as (ts & _ & ->).
  exists (array_body (map (fun t => (separator indent (depth + 1), t)) ts)
          +:+ closing indent depth).
  rewrite Hr. now rewrite !append_assoc.
Qed.

Lemma parseElement_missing_brackets
    (l : list Value) (text : string) (s : string) :
  text = String "[" (s +:+ "]") ->
  parses_back (makeArray l) text ->
  forall (n fuel : nat) (p : Parser) (pre : string),
    at_pos p pre (replicate_char n "[" +:+ text) ->
    (n + String.length text < fuel)%nat ->
    exists q, parseElement fuel p = Return (nest n (makeArray l), q)
              /\ isEOF q = true /\ currChar q = "]"%char
              /\ isOk q = isOk p /\ cout q = cout p.
Proof.
  intros Ht Hb. induction n as [|n IH]; intros fuel p pre Hp Hf.
  - simpl in Hp. rewrite <- (append_nil_r text) in Hp.
    rewrite (Hb fuel p pre EmptyString ltac:(simpl in Hf; lia) Hp I).
    eexists. split; [reflexivity|].
    pose proof (at_pos_after _ _ _ _ Hp) as Hq.
    rewrite (isEOF_at _ _ _ Hq). split; [reflexivity|].
    split; [|split; reflexivity].
    simpl. rewrite Ht. simpl. rewrite last_char_append. reflexivity.
  - destruct fuel as [|fuel]; [lia|]. simpl replicate_char in Hp.
    simpl String.append in Hp.
    assert (Hh : exists c suf,
               replicate_char n "[" +:+ text = String c suf
               /\ isWhitespace c = false /\ c <> "]"%char).
    { destruct n as [|n']; simpl; rewrite ?Ht; eexists _, _;
        (split; [reflexivity | split; [reflexivity | discriminate]]). }
    destruct Hh as (c & suf & Hs & Hw & Hc). rewrite Hs in Hp.
    rewrite (parseElement_array _ _ (currChar_at _ _ _ _ Hp)).
    destruct (IH fuel (after p "[" (String c suf)) (pre +:+ "["))
      as (q & Hq & He & Hcc & Hk & Hco).
    + rewrite Hs. apply at_pos_after. exact Hp.
    + lia.
    + rewrite (parseArray_stale_bracket _ p pre c suf _ q Hp Hw Hc Hq He Hcc).
      eexists. split; [reflexivity|].
      rewrite (advance_state_isEOF q He). simpl.
      unfold isEOF in *; simpl. simpl in He.
      split; [apply Z.leb_le; apply Z.leb_le in He; unfold size in *;
              simpl; lia|].
      auto.
Qed.

(* ===================================================================== *)
(** * Members of an object *)
(* ===================================================================== *)

Lemma foldl_insert_entry_list_to_map (es : list (string * Value * string)) :
  foldl insert_entry ∅ es = list_to_map (reverse es.*1).
Proof.
  induction es as [|e es IH] using rev_ind; [reflexivity|].
  rewrite foldl_app, fmap_app, reverse_app. simpl. now rewrite IH.
Qed.

Lemma parseElement_closing_brace (f : nat) (p : Parser) :
  currChar p = "}"%char ->
  parseElement (S f) p
  = Return (Value_default, reported "Unexpected character: '}'" p).
Proof.
  intros H. simpl. unfold bind at 1, gets; simpl. rewrite H. simpl.
  unfold bind, gets, ret, reportError, modify; simpl. now rewrite H.
Qed.

(** An object whose one member has a key and no value. *)
Lemma parseObject_empty_member (f : nat) (p : Parser) (pre k rest : string) :
  at_pos p pre
    (String "{" (String dquote (k +:+ String dquote (":}" +:+ rest)))) ->
  no_quote k = true ->
  exists p',
    parseObject (parseElement (S f)) p
    = Return (assign_key (makeObject ∅) k Value_default, p')
    /\ isOk p' = false
    /\ cout p' = (cout p ++ ["[ERROR] At line " +:+ to_string_long (currLine p)
                             +:+ ": Unexpected character: '}'" +:+ str1 LF])%list.
Proof.
  intros Hp Hq.
  unfold parseObject. unfold bind at 1, gets; simpl.
  rewrite (currChar_at _ _ _ _ Hp). simpl.
  unfold bind at 1, advance, modify; simpl. rewrite (advance_at _ _ _ _ Hp).
  pose proof (at_pos_after p pre (str1 "{") _ Hp) as Hp1.
  set (p1 := after p (str1 "{") _) in *.
  pose proof (skipWhitespace_at _ _ _ _ Hp1 eq_refl) as Hsk.
  rewrite (bind_Return _ _ _ _ _ Hsk).
  unfold turns. unfold bind at 1, gets; simpl.
  match goal with
  | |- context [while _ ?cd ?b _] => set (cond := cd); set (body := b)
  end.
  assert (Hcond : cond (makeObject ∅) p1 = true).
  { unfold cond. now rewrite (isEOF_at _ _ _ Hp1), (currChar_at _ _ _ _ Hp1). }
  assert (Hp1' : at_pos p1 (pre +:+ str1 "{")
                   (String dquote (k +:+ String dquote (":}" +:+ rest))))
    by exact Hp1.
  pose proof (parseString_closed p1 _ k _ Hp1' Hq) as Hs.
  assert (Hp2 : at_pos (after p1 (String dquote (k +:+ str1 dquote))
                          (":}" +:+ rest))
                  ((pre +:+ str1 "{") +:+ String dquote (k +:+ str1 dquote))
                  (":}" +:+ rest)).
  { apply at_pos_after. simpl. rewrite append_assoc. exact Hp1'. }
  set (p2 := after p1 (String dquote (k +:+ str1 dquote)) (":}" +:+ rest)) in *.
  simpl in Hp2.
  pose proof (at_pos_after p2 _ (str1 ":") _ Hp2) as Hp3.
  set (p3 := after p2 (str1 ":") (String "}" rest)) in *.
  set (p4 := reported "Unexpected character: '}'" p3).
  assert (Hp4 : at_pos p4 _ (String "}" rest)) by exact Hp3.
  assert (Hb : body (makeObject ∅) p1
               = Return (Break (assign_key (makeObject ∅) k Value_default), p4)).
  { unfold body. rewrite (bind_Return _ _ _ _ _ Hsk).
    rewrite (bind_Return _ _ _ _ _ Hs). fold p2.
    rewrite (bind_Return _ _ _ _ _ (skipWhitespace_at _ _ _ _ Hp2 eq_refl)).
    unfold bind at 1, gets; simpl.
    unfold bind at 1, advance, modify; simpl.
    rewrite (advance_at _ _ _ _ Hp2). fold p3.
    rewrite (bind_Return _ _ _ _ _ (skipWhitespace_at _ _ _ _ Hp3 eq_refl)).
    rewrite (bind_Return _ _ _ _ _
               (parseElement_closing_brace f p3 (currChar_at _ _ _ _ Hp3))).
    fold p4.
    rewrite (bind_Return _ _ _ _ _ (skipWhitespace_at _ _ _ _ Hp4 eq_refl)).
    reflexivity. }
  rewrite (bind_Return _ _ _ _ _ (while_break _ _ _ _ _ _ _ Hcond Hb)).
  rewrite (bind_Return _ _ _ _ _ (consume_match _ _ _ _ _ Hp4)).
  eexists. split; [reflexivity|]. split; reflexivity.
Qed.

(* ===================================================================== *)
(** * Values and files *)
(* ===================================================================== *)

Lemma map_with_key_singleton {A B} (f : string -> A -> B) (k : string)
    (x : A) :
  map_with_key f ({[k := x]} : gmap string A) = {[k := f k x]}.
Proof.
  unfold map_with_key. rewrite map_fold_singleton. apply insert_empty.
Qed.

Lemma Value_eta (v : Value) :
  mkValue (type v) (obj v) (arr v) (str v) (num v) = v.
Proof. now destruct v. Qed.

Lemma string_take_drop (n : nat) (s : string) :
  string_take n s +:+ string_drop n s = s.
Proof.
  revert s; induction n as [|n IH]; intros [|c s]; simpl; auto.
  now rewrite IH.
Qed.

Lemma length_string_take (n : nat) (s : string) :
  String.length (string_take n s) = Nat.min n (String.length s).
Proof.
  revert s; induction n as [|n IH]; intros [|c s]; simpl; auto.
Qed.

Lemma string_take_all (n : nat) (s : string) :
  (String.length s <= n)%nat ->
  string_take n s = s /\ string_drop n s = EmptyString.
Proof.
  revert s; induction n as [|n IH]; intros [|c s] H; simpl in *; auto; try lia.
  destruct (IH s ltac:(lia)) as [-> ->]. auto.
Qed.

Lemma length_string_drop (n : nat) (s : string) :
  String.length (string_drop n s) = (String.length s - n)%nat.
Proof.
  revert s; induction n as [|n IH]; intros [|c s]; simpl; auto.
Qed.

Lemma string_append_prefix (out got tail : string) :
  string_append out (got +:+ tail) 0 (Z.of_nat (String.length got))
  = Return (out +:+ got).
Proof.
  unfold string_append, substr.
  replace (_ <? 0) with false by (symmetry; apply Z.ltb_ge; lia).
  simpl. now rewrite Nat2Z.id, substring_0_append.
Qed.

(** The loop of [fromFile] ends within its turns, and the last piece
    completes the text. *)
Lemma fromFile_loop_reads_all (n : nat) :
  forall (stream : fstream) (buf out : string),
    failbit stream = false ->
    (String.length (unread stream) < n)%nat ->
    exists stream1 buf1 out1,
      fromFile_loop n stream buf out = Return (stream1, buf1, out1)
      /\ string_append out1 buf1 0 (Z.of_nat (gcount stream1))
         = Return (out +:+ unread stream).
Proof.
  assert (Hpos : (0 < readSize)%nat) by (unfold readSize; lia).
  induction n as [|n IH]; intros stream buf out Hf Hn; [lia|].
  simpl. unfold stream_read. rewrite Hf. cbv zeta.
  set (got := string_take readSize (unread stream)).
  cbn [failbit gcount].
  destruct (String.length got <? readSize)%nat eqn:E.
  - eexists _, _, _. split; [reflexivity|]. cbn [gcount].
    rewrite string_append_prefix. f_equal. f_equal.
    apply Nat.ltb_lt in E. unfold got in *.
    rewrite length_string_take in E.
    apply string_take_all. lia.
  - rewrite string_append_prefix. cbn [obind].
    apply Nat.ltb_ge in E. unfold got in E. rewrite length_string_take in E.
    destruct (IH (mkStream (string_drop readSize (unread stream))
                           (String.length got) false)
                 (got +:+ string_drop (String.length got) buf)
                 (out +:+ got) eq_refl) as (s1 & b1 & o1 & H1 & H2).
    + cbn [unread]. rewrite length_string_drop. lia.
    + exists s1, b1, o1. split; [exact H1|]. rewrite H2. cbn [unread].
      f_equal. rewrite append_assoc. f_equal. apply string_take_drop.
Qed.

Lemma fromFile_content (fs : FileSystem) (filename data : string) :
  files fs !! filename = Some data ->
  fromFile fs filename = Return (Parser_new data).
Proof.
  intros H. unfold fromFile, fstream_open. rewrite H.
  destruct (fromFile_loop_reads_all (S (String.length data))
              (mkStream data 0 false) (replicate_char readSize NUL)
              EmptyString eq_refl) as (s1 & b1 & o1 & H1 & H2).
  - simpl. lia.
  - cbn [unread]. rewrite H1. cbn [obind]. rewrite H2. reflexivity.
Qed.

(* ===================================================================== *)
(** * Lemmas: what the parser never does *)
(* ===================================================================== *)

Lemma keeps_refl (p : Parser) : keeps p p.
Proof. split; auto. Qed.

Lemma keeps_trans (p q r : Parser) : keeps p q -> keeps q r -> keeps p r.
Proof. intros (H1 & H2) (H3 & H4). split; [congruence | auto]. Qed.

Lemma quiet_refl (p : Parser) : quiet p p.
Proof. repeat split. Qed.

Lemma quiet_trans (p q r : Parser) : quiet p q -> quiet q r -> quiet p r.
Proof. intros (H1 & H2 & H3) (H4 & H5 & H6). repeat split; congruence. Qed.

Lemma quiet_keeps (p q : Parser) : quiet p q -> keeps p q.
Proof.
  intros (H1 & H2 & H3). split; [exact H1|].
  unfold flag_tells_reports. now rewrite H2, H3.
Qed.

Lemma keeps_reported (msg : string) (p : Parser) : keeps p (reported msg p).
Proof.
  split; [reflexivity|]. intros _. unfold flag_tells_reports, reported; simpl.
  split; [discriminate|]. intros H. apply Forall_app in H as [_ H].
  apply Forall_inv in H. discriminate H.
Qed.

Lemma keeps_warning (p : Parser) : keeps p (print (overflow_warning p) p).
Proof.
  split; [reflexivity|]. unfold flag_tells_reports; simpl. intros [H1 H2].
  split.
  - intros H. apply Forall_app. split; [auto|]. constructor; [|constructor].
    reflexivity.
  - intros H. apply Forall_app in H as [H _]. auto.
Qed.

Lemma holds_weaken {A} (Q Q' : A -> Parser -> Prop) (m : M A) (p : Parser) :
  holds Q m p -> (forall a p', Q a p' -> Q' a p') -> holds Q' m p.
Proof. unfold holds. intros H HQ. destruct (m p) as [[a p']| | |]; auto. Qed.

Lemma holds_bind {A B} (Q1 : A -> Parser -> Prop) (Q : B -> Parser -> Prop)
    (m : M A) (k : A -> M B) (p : Parser) :
  holds Q1 m p ->
  (forall a p', Q1 a p' -> holds Q (k a) p') ->
  holds Q (bind m k) p.
Proof.
  unfold holds, bind. intros Hm Hk.
  destruct (m p) as [[a p']| | |]; simpl; auto. exact (Hk a p' Hm).
Qed.

Lemma holds_ret {A} (Q : A -> Parser -> Prop) (a : A) (p : Parser) :
  Q a p -> holds Q (ret a) p.
Proof. auto. Qed.

Lemma holds_gets {A} (Q : A -> Parser -> Prop) (f : Parser -> A)
    (p : Parser) :
  Q (f p) p -> holds Q (gets f) p.
Proof. auto. Qed.

Lemma holds_modify (Q : unit -> Parser -> Prop) (f : Parser -> Parser)
    (p : Parser) :
  Q tt (f p) -> holds Q (modify f) p.
Proof. auto. Qed.

Lemma holds_bind_gets {A B} (Q : B -> Parser -> Prop) (f : Parser -> A)
    (k : A -> M B) (p : Parser) :
  holds Q (k (f p)) p -> holds Q (bind (gets f) k) p.
Proof. auto. Qed.

Lemma holds_bind_modify {B} (Q : B -> Parser -> Prop) (f : Parser -> Parser)
    (k : unit -> M B) (p : Parser) :
  holds Q (k tt) (f p) -> holds Q (bind (modify f) k) p.
Proof. auto. Qed.

Lemma while_unfold {L} (n : nat) (cond : L -> Parser -> bool)
    (body : L -> M (flow L)) (l : L) :
  while (S n) cond body l
  = (c <- gets (cond l);;
     if c then
       f <- body l;;
       match f with
       | Continue l' => while n cond body l'
       | Break l' => ret l'
       end
     else ret l).
Proof. reflexivity. Qed.

Lemma holds_while {L} (Inv Q : L -> Parser -> Prop)
    (cond : L -> Parser -> bool) (body : L -> M (flow L)) :
  (forall l p, Inv l p -> cond l p = true ->
               holds (fun f p' => match f with
                                  | Continue l' => Inv l' p'
                                  | Break l' => Q l' p'
                                  end) (body l) p) ->
  (forall l p, Inv l p -> cond l p = false -> Q l p) ->
  forall n l p, Inv l p -> holds Q (while n cond body l) p.
Proof.
  intros Hb Hq. induction n as [|n IH]; intros l p Hi; [exact I|].
  unfold holds. rewrite while_unfold. unfold bind at 1, gets; simpl.
  destruct (cond l p) eqn:E.
  - specialize (Hb l p Hi E). unfold holds in Hb. unfold bind.
    destruct (body l p) as [[[l'|l'] p']| | |]; simpl; auto.
    apply (IH l' p' Hb).
  - simpl. apply (Hq l p Hi E).
Qed.

Lemma advance_facts (p : Parser) :
  quiet p (advance_state p)
  /\ currIdx (advance_state p) = currIdx p + 1
  /\ (isEOF (advance_state p) = true ->
      currChar (advance_state p) = currChar p).
Proof.
  unfold advance_state, isEOF.
  destruct (currIdx p + 1 <? size p) eqn:E.
  - apply Z.ltb_lt in E.
    destruct (String.get _ _); simpl; (split; [repeat split|]);
      (split; [reflexivity|]); unfold size; simpl; intros H;
      apply Z.leb_le in H; unfold size in E; lia.
  - simpl. repeat split.
Qed.

Lemma idle_not_token (c : ascii) :
  idle c = true ->
  c <> dquote /\ c <> "t"%char /\ c <> "f"%char /\ c <> "n"%char.
Proof.
  intros H. destruct c as [[] [] [] [] [] [] [] []]; try discriminate H;
    repeat split; discriminate.
Qed.

Lemma holds_skipWhitespace (p : Parser) :
  holds (fun _ p' =>
           quiet p p'
           /\ (isEOF p = true -> p' = p)
           /\ (isEOF p = false ->
               currIdx p' <= size p'
               /\ (isEOF p' = true -> isWhitespace (currChar p') = true)))
    skipWhitespace p.
Proof.
  destruct (isEOF p) eqn:E.
  - unfold holds. rewrite (skipWhitespace_stay p (or_introl E)).
    split; [apply quiet_refl|]. split; [reflexivity | discriminate].
  - unfold skipWhitespace. apply holds_bind_gets; cbv beta.
    apply (holds_while
             (fun _ q => quiet p q /\ currIdx q <= size q
                         /\ (isEOF q = true ->
                             isWhitespace (currChar q) = true))).
    + intros [] q (Hq & Hi & Hw) Hc. apply andb_prop in Hc as [He Hs].
      apply negb_true_iff in He. unfold holds, bind, gets; simpl.
      set (q0 := if Ascii.eqb (currChar q) LF
                 then set_currLine (currLine q + 1) q else q).
      assert (Hq0 : quiet q q0 /\ currIdx q0 = currIdx q
                    /\ currChar q0 = currChar q /\ size q0 = size q).
      { unfold q0. destruct (Ascii.eqb _ _); repeat split. }
      destruct Hq0 as (Hq0 & Hi0 & Hc0 & Hs0).
      replace ((when (Ascii.eqb (currChar q) LF)
                  (modify (fun p0 => set_currLine (currLine p0 + 1) p0))) q)
        with (Return (tt, q0))
        by (unfold q0; destruct (Ascii.eqb _ _); reflexivity).
      simpl. destruct (advance_facts q0) as (Ha & Hia & Hca).
      split; [exact (quiet_trans _ _ _ Hq (quiet_trans _ _ _ Hq0 Ha))|].
      assert (Hsz : size (advance_state q0) = size q).
      { unfold size. destruct Ha as (-> & _). exact Hs0. }
      split.
      * rewrite Hsz, Hia, Hi0. unfold isEOF in He. apply Z.leb_gt in He. lia.
      * intros H. rewrite (Hca H), Hc0. exact Hs.
    + intros [] q (Hq & Hi & Hw) _. split; [exact Hq|].
      split; [congruence|]. intros _. auto.
    + split; [apply quiet_refl|]. split; [|congruence].
      unfold isEOF in E. apply Z.leb_gt in E. lia.
Qed.

Lemma holds_reportError (msg : string) (p : Parser) :
  holds (fun _ p' => keeps p p') (reportError msg) p.
Proof. apply (keeps_reported msg p). Qed.

Lemma holds_consume (c : ascii) (msg : string) (p : Parser) :
  holds (fun _ p' => keeps p p') (consume c msg) p.
Proof.
  unfold consume. apply holds_bind_gets; cbv beta. destruct (negb _).
  - eapply holds_bind; [apply holds_reportError|].
    intros ? p' H. apply holds_ret. exact H.
  - apply holds_bind_modify; cbv beta. apply holds_ret. apply quiet_keeps, advance_facts.
Qed.

Lemma holds_substr {A} (Q : A -> Parser -> Prop) (text : string)
    (start len : Z) (k : string -> M A) (p : Parser) :
  start <= Z.of_nat (String.length text) ->
  (forall s, holds Q (k s) p) ->
  holds Q (bind (lift (substr text start len)) k) p.
Proof.
  intros Hs Hk. unfold holds, bind, lift, substr.
  replace (_ <? start) with false by (symmetry; apply Z.ltb_ge; lia).
  simpl. apply Hk.
Qed.

Lemma holds_parseString (p : Parser) :
  currIdx p <= size p ->
  (currChar p = dquote -> isEOF p = false) ->
  holds (fun _ p' => keeps p p') parseString p.
Proof.
  intros Hi Hq. unfold parseString.
  apply holds_bind_gets; cbv beta.
  eapply (holds_bind (fun _ p1 => quiet p p1 /\ currIdx p1 <= size p1)).
  { destruct (Ascii.eqb (currChar p) dquote) eqn:E; simpl.
    - apply holds_modify. destruct (advance_facts p) as (Ha & Hia & _).
      split; [exact Ha|]. apply Ascii.eqb_eq in E. specialize (Hq E).
      unfold isEOF in Hq. apply Z.leb_gt in Hq.
      unfold size in *. destruct Ha as (-> & _). lia.
    - apply holds_ret. split; [apply quiet_refl | exact Hi]. }
  intros ? p1 (Hq1 & Hi1).
  apply holds_bind_gets; cbv beta.
  apply holds_bind_gets; cbv beta.
  eapply (holds_bind (fun _ q => quiet p1 q)).
  { apply (holds_while (fun _ q => quiet p1 q)).
    - intros len q Hqq _.
      apply holds_bind_modify; cbv beta. apply holds_ret.
      exact (quiet_trans _ _ _ Hqq (proj1 (advance_facts q))).
    - auto.
    - apply quiet_refl. }
  intros len q Hqq.
  eapply holds_bind; [apply holds_consume|].
  intros ? q' Hk.
  apply holds_bind_gets; cbv beta.
  assert (Hc : content q' = content p).
  { destruct Hk as (-> & _), Hqq as (-> & _), Hq1 as (-> & _). reflexivity. }
  unfold holds, lift, substr. rewrite Hc.
  replace (_ <? currIdx p1) with false.
  - simpl.
    exact (keeps_trans _ _ _ (quiet_keeps _ _ (quiet_trans _ _ _ Hq1 Hqq)) Hk).
  - symmetry. apply Z.ltb_ge. unfold size in Hi1.
    destruct Hq1 as (Hc1 & _). rewrite Hc1 in Hi1. exact Hi1.
Qed.

Lemma holds_validateIdentifier (identifier : string) (p : Parser) :
  currIdx p <= size p ->
  holds (fun _ p' => keeps p p') (validateIdentifier identifier) p.
Proof.
  intros Hi. unfold validateIdentifier.
  apply holds_bind_gets; cbv beta.
  apply holds_bind_gets; cbv beta.
  eapply (holds_bind (fun _ q => quiet p q)).
  { apply (holds_while (fun _ q => quiet p q)).
    - intros len q Hqq _.
      apply holds_bind_modify; cbv beta. apply holds_ret.
      exact (quiet_trans _ _ _ Hqq (proj1 (advance_facts q))).
    - auto.
    - apply quiet_refl. }
  intros len q Hqq.
  apply holds_bind_gets; cbv beta.
  unfold holds, bind, lift, substr. destruct Hqq as (Hc & Hk & Hw).
  rewrite Hc. replace (_ <? currIdx p) with false
    by (symmetry; apply Z.ltb_ge; exact Hi).
  simpl. apply quiet_keeps. repeat split; assumption.
Qed.

Lemma stod_outcomes (s : string) :
  (exists x, stod s = Return x)
  \/ stod s = Throw std_out_of_range
  \/ stod s = Throw std_invalid_argument.
Proof.
  unfold stod. destruct (strtod_decimal s) as [[[neg [|m]] e]|]; eauto.
  destruct (round_binary64 neg m e); eauto.
  destruct (_ && _); eauto.
Qed.

Lemma holds_parseNumber (p : Parser) :
  holds (fun _ p' => keeps p p') parseNumber p.
Proof.
  unfold parseNumber.
  apply holds_bind_gets; cbv beta.
  apply holds_bind_gets; cbv beta.
  eapply (holds_bind (fun _ q => keeps p q)).
  { apply (holds_while (fun _ q => keeps p q)).
    - intros sc q Hqq _.
      apply holds_bind_gets; cbv beta.
      destruct (_ && _).
      + eapply holds_bind; [apply holds_reportError|].
        intros ? q' Hk. apply holds_ret. exact (keeps_trans _ _ _ Hqq Hk).
      + cbv zeta. destruct (_ && _).
        * eapply holds_bind; [apply holds_reportError|].
          intros ? q' Hk. apply holds_ret. exact (keeps_trans _ _ _ Hqq Hk).
        * apply holds_bind_modify; cbv beta. apply holds_ret.
          exact (keeps_trans _ _ _ Hqq
                   (quiet_keeps _ _ (proj1 (advance_facts q)))).
    - auto.
    - apply keeps_refl. }
  intros sc q Hqq.
  apply holds_bind_gets; cbv beta.
  unfold holds. unfold substr.
  destruct (_ <? _); simpl.
  - exact (keeps_trans _ _ _ Hqq (keeps_warning q)).
  - destruct (stod_outcomes
                (substring (Z.to_nat (currIdx p)) (Z.to_nat (scan_len sc))
                   (content q))) as [(x & ->) | [-> | ->]].
    + exact Hqq.
    + exact (keeps_trans _ _ _ Hqq (keeps_warning q)).
    + reflexivity.
Qed.

Lemma ready_after_skip (q q1 : Parser) :
  isEOF q = false ->
  (isEOF q1 = true -> isWhitespace (currChar q1) = true) ->
  ready q1.
Proof.
  intros _ H He. unfold idle. now rewrite (H He).
Qed.

Lemma holds_parseArray (element : M Value) (p : Parser) :
  (forall q, ready q -> holds (fun _ q' => keeps q q') element q) ->
  holds (fun _ p' => keeps p p') (parseArray element) p.
Proof.
  intros Hel. unfold parseArray.
  apply holds_bind_gets; cbv beta.
  eapply (holds_bind (fun _ p1 => keeps p p1)).
  { destruct (Ascii.eqb _ _); simpl.
    - apply holds_modify. apply quiet_keeps, advance_facts.
    - apply holds_ret, keeps_refl. }
  intros ? p1 H1.
  eapply holds_bind; [apply holds_skipWhitespace|].
  intros ? p2 (H2 & _).
  apply holds_bind_gets; cbv beta.
  pose proof (keeps_trans _ _ _ H1 (quiet_keeps _ _ H2)) as H12.
  eapply (holds_bind (fun _ q => keeps p q)).
  { apply (holds_while (fun _ q => keeps p q)).
    - intros acc q Hq Hc. apply andb_prop in Hc as [He _].
      apply negb_true_iff in He.
      eapply holds_bind; [apply holds_skipWhitespace|].
      intros ? q1 (Hq1 & _ & Hr1). specialize (Hr1 He).
      eapply holds_bind;
        [apply Hel; exact (ready_after_skip q q1 He (proj2 Hr1))|].
      intros x q2 Hq2.
      eapply holds_bind; [apply holds_skipWhitespace|].
      intros ? q3 (Hq3 & _).
      apply holds_bind_gets; cbv beta.
      pose proof (keeps_trans _ _ _ Hq
                    (keeps_trans _ _ _ (quiet_keeps _ _ Hq1)
                       (keeps_trans _ _ _ Hq2 (quiet_keeps _ _ Hq3)))) as Hk.
      destruct (negb _).
      + apply holds_ret. exact Hk.
      + apply holds_bind_modify; cbv beta. apply holds_ret.
        exact (keeps_trans _ _ _ Hk
                 (quiet_keeps _ _ (proj1 (advance_facts q3)))).
    - auto.
    - exact H12. }
  intros acc q Hq.
  eapply holds_bind; [apply holds_consume|].
  intros ? q' Hk. apply holds_ret. exact (keeps_trans _ _ _ Hq Hk).
Qed.

Lemma holds_parseObject (element : M Value) (p : Parser) :
  (forall q, ready q -> holds (fun _ q' => keeps q q') element q) ->
  holds (fun _ p' => keeps p p') (parseObject element) p.
Proof.
  intros Hel. unfold parseObject.
  apply holds_bind_gets; cbv beta.
  eapply (holds_bind (fun _ p1 => keeps p p1)).
  { destruct (Ascii.eqb _ _); simpl.
    - apply holds_modify. apply quiet_keeps, advance_facts.
    - apply holds_ret, keeps_refl. }
  intros ? p1 H1.
  eapply holds_bind; [apply holds_skipWhitespace|].
  intros ? p2 (H2 & _).
  apply holds_bind_gets; cbv beta.
  pose proof (keeps_trans _ _ _ H1 (quiet_keeps _ _ H2)) as H12.
  eapply (holds_bind (fun _ q => keeps p q)).
  { apply (holds_while (fun _ q => keeps p q)).
    - intros o q Hq Hc. apply andb_prop in Hc as [He _].
      apply negb_true_iff in He.
      eapply holds_bind; [apply holds_skipWhitespace|].
      intros ? q1 (Hq1 & _ & Hr1). destruct (Hr1 He) as (Hi1 & Hw1).
      eapply holds_bind.
      { apply holds_parseString; [exact Hi1|].
        intros Hd. destruct (isEOF q1) eqn:E1; [|reflexivity].
        specialize (Hw1 eq_refl). rewrite Hd in Hw1. discriminate Hw1. }
      intros name q2 Hq2.
      eapply holds_bind; [apply holds_skipWhitespace|].
      intros ? q3 (Hq3 & _).
      apply holds_bind_gets; cbv beta.
      pose proof (keeps_trans _ _ _ Hq
                    (keeps_trans _ _ _ (quiet_keeps _ _ Hq1)
                       (keeps_trans _ _ _ Hq2 (quiet_keeps _ _ Hq3)))) as Hk3.
      destruct (Ascii.eqb (currChar q3) ":") eqn:Ecolon; simpl.
      + apply holds_bind_modify; cbv beta.
        destruct (advance_facts q3) as (Ha & _ & Hca).
        eapply holds_bind; [apply holds_skipWhitespace|].
        intros ? q5 (Hq5 & Hsame & Hr5).
        assert (Hready : ready q5).
        { intros E5. destruct (isEOF (advance_state q3)) eqn:E4.
          - rewrite (Hsame eq_refl) in *. rewrite (Hca eq_refl).
            apply Ascii.eqb_eq in Ecolon. rewrite Ecolon. reflexivity.
          - destruct (Hr5 eq_refl) as (_ & Hw5). unfold idle.
            now rewrite (Hw5 E5). }
        eapply holds_bind; [apply Hel; exact Hready|].
        intros x q6 Hq6.
        eapply holds_bind; [apply holds_skipWhitespace|].
        intros ? q7 (Hq7 & _). cbv zeta.
        apply holds_bind_gets; cbv beta.
        pose proof (keeps_trans _ _ _ Hk3
                      (keeps_trans _ _ _ (quiet_keeps _ _ Ha)
                         (keeps_trans _ _ _ (quiet_keeps _ _ Hq5)
                            (keeps_trans _ _ _ Hq6 (quiet_keeps _ _ Hq7)))))
          as Hk7.
        destruct (negb _).
        * apply holds_ret. exact Hk7.
        * apply holds_bind_modify; cbv beta. apply holds_ret.
          exact (keeps_trans _ _ _ Hk7
                   (quiet_keeps _ _ (proj1 (advance_facts q7)))).
      + eapply holds_bind; [apply holds_reportError|].
        intros ? q4 Hq4. apply holds_ret. exact (keeps_trans _ _ _ Hk3 Hq4).
    - auto.
    - exact H12. }
  intros o q Hq.
  eapply holds_bind; [apply holds_consume|].
  intros ? q' Hk. apply holds_ret. exact (keeps_trans _ _ _ Hq Hk).
Qed.

Lemma ready_not_eof (p : Parser) (c : ascii) :
  ready p -> currChar p = c -> idle c = false ->
  isEOF p = false /\ currIdx p <= size p.
Proof.
  intros Hr Hc Hi. destruct (isEOF p) eqn:E.
  - specialize (Hr E). rewrite Hc, Hi in Hr. discriminate Hr.
  - split; [reflexivity|]. unfold isEOF in E. apply Z.leb_gt in E. lia.
Qed.

Lemma holds_parseElement (fuel : nat) :
  forall p, ready p -> holds (fun _ p' => keeps p p') (parseElement fuel) p.
Proof.
  induction fuel as [|fuel IH]; intros p Hr; [exact I|].
  cbn [parseElement].
  apply holds_bind_gets; cbv beta.
  eapply (holds_bind (fun _ q => keeps p q)).
  { destruct (Ascii.eqb (currChar p) "{").
    { eapply holds_bind; [apply holds_parseObject; exact IH|].
      intros v q Hq. apply holds_ret. exact Hq. }
    destruct (Ascii.eqb (currChar p) "[").
    { eapply holds_bind; [apply holds_parseArray; exact IH|].
      intros v q Hq. apply holds_ret. exact Hq. }
    destruct (Ascii.eqb (currChar p) dquote) eqn:Eq.
    { apply Ascii.eqb_eq in Eq.
      destruct (ready_not_eof p _ Hr Eq eq_refl) as (He & Hi).
      eapply holds_bind; [apply holds_parseString; auto|].
      intros s q Hq. apply holds_ret. exact Hq. }
    destruct (Ascii.eqb (currChar p) "t") eqn:Et.
    { apply Ascii.eqb_eq in Et.
      destruct (ready_not_eof p _ Hr Et eq_refl) as (He & Hi).
      eapply holds_bind; [apply holds_validateIdentifier; auto|].
      intros b q Hq. apply holds_ret. exact Hq. }
    destruct (Ascii.eqb (currChar p) "f") eqn:Ef.
    { apply Ascii.eqb_eq in Ef.
      destruct (ready_not_eof p _ Hr Ef eq_refl) as (He & Hi).
      eapply holds_bind; [apply holds_validateIdentifier; auto|].
      intros b q Hq. apply holds_ret. exact Hq. }
    destruct (Ascii.eqb (currChar p) "n") eqn:En.
    { apply Ascii.eqb_eq in En.
      destruct (ready_not_eof p _ Hr En eq_refl) as (He & Hi).
      eapply holds_bind; [apply holds_validateIdentifier; auto|].
      intros b q Hq. apply holds_ret. exact Hq. }
    destruct (_ || _).
    { eapply holds_bind; [apply holds_parseNumber|].
      intros v q Hq. apply holds_ret. exact Hq. }
    destruct (isWhitespace (currChar p)).
    { eapply holds_bind; [apply holds_skipWhitespace|].
      intros ? q (Hq & _). apply holds_ret. apply quiet_keeps, Hq. }
    apply holds_ret, keeps_refl. }
  intros [v|] q Hq.
  - apply holds_ret. exact Hq.
  - apply holds_bind_gets; cbv beta.
    eapply holds_bind; [apply holds_reportError|].
    intros ? q' Hq'. apply holds_ret. exact (keeps_trans _ _ _ Hq Hq').
Qed.

Lemma ready_Parser_new (text : string) : ready (Parser_new text).
Proof.
  unfold ready, Parser_new, advance_state, isEOF, size; simpl.
  destruct text as [|c text]; simpl; [reflexivity|].
  replace (0 <? Z.pos (Pos.of_succ_nat (String.length text))) with true
    by (symmetry; apply Z.ltb_lt; lia).
  simpl. intros H. apply Z.leb_le in H. lia.
Qed.

Lemma parse_outcomes (text : string) :
  (exists v p,
      parse (Parser_new text) = Return (v, p)
      /\ content p = text
      /\ (isOK p = true
          <-> Forall (fun l => is_error_line l = false) (cout p)))
  \/ parse (Parser_new text) = Throw std_invalid_argument.
Proof.
  pose proof (parse_terminates text) as Hfuel.
  rewrite parse_unfold, set_isOk_Parser_new in *.
  destruct (Parser_new_fields text) as (Hc & _ & Hk & Hw).
  pose proof (holds_parseElement
                (S (String.length (content (Parser_new text))))
                (Parser_new text) (ready_Parser_new text)) as H.
  unfold holds in H.
  destruct (parseElement _ _) as [[v p]|e| |]; try contradiction.
  - left. exists v, p. split; [reflexivity|]. destruct H as (H1 & H2).
    split; [congruence|]. apply H2. unfold flag_tells_reports.
    rewrite Hk, Hw. split; auto.
  - right. now subst e.
Qed.

(* ===================================================================== *)
(** * The scan of parseNumber and what std::stod reads of it *)
(* ===================================================================== *)

Lemma scan_digits_stop (s : string) (c : ascii) (r : string) :
  String_forallb isdigit s = true -> isdigit c = false ->
  forall acc cnt m k,
    scan_digits s acc cnt = (m, k, EmptyString) ->
    scan_digits (s +:+ String c r) acc cnt = (m, k, String c r).
Proof.
  intros Hs Hc. induction s as [|a s IH]; intros acc cnt m k H.
  - simpl in *. rewrite Hc. now injection H as -> ->.
  - simpl in Hs. apply andb_prop in Hs as [Ha Hs]. simpl in *.
    rewrite Ha in *. now apply IH.
Qed.

Lemma stod_exact_integer (neg : bool) (q : positive) (s : string) :
  Zpos q < 2 ^ 53 ->
  strtod_decimal s = Some (neg, Npos q, 0) ->
  stod s = Return (ld_make (if neg then Zneg q else Zpos q) 0).
Proof.
  intros Hq Hs. unfold stod. rewrite Hs. unfold round_binary64.
  simpl. rewrite Pos.mul_1_r.
  destruct (binary_round_integer neg q Hq) as (mr & er & -> & _ & Hz).
  unfold tiny. simpl. destruct neg; unfold ld_make; now rewrite Hz.
Qed.

Lemma strtod_decimal_digits_sign (s : string) (c : ascii) (t : string)
    (m : N) (k : nat) (sgn : ascii) (tail : string) :
  s = String c t -> String_forallb isdigit s = true ->
  scan_digits s 0 0 = (m, k, EmptyString) -> (0 < k)%nat ->
  sgn = "+"%char \/ sgn = "-"%char ->
  strtod_decimal (s +:+ String sgn tail) = Some (false, m, 0)
  /\ strtod_decimal (String "-" (s +:+ String sgn tail)) = Some (true, m, 0).
Proof.
  intros -> Hd Hs Hk Hsgn.
  assert (Hc : isdigit c = true) by (simpl in Hd; now apply andb_prop in Hd).
  destruct (isdigit_facts c Hc) as (Hsp & _ & _ & _ & _ & _ & _ & Hsg).
  assert (Hk0 : (k + 0 =? 0)%nat = false) by (apply Nat.eqb_neq; lia).
  assert (Hs' : scan_digits (String c t +:+ String sgn tail) 0 0
                = (m, k, String sgn tail)).
  { apply scan_digits_stop; [exact Hd | | exact Hs].
    now destruct Hsgn as [-> | ->]. }
  split; unfold strtod_decimal.
  - change (skip_space (String c t +:+ String sgn tail))
      with (if isspace c then skip_space (t +:+ String sgn tail)
            else String c t +:+ String sgn tail).
    rewrite Hsp.
    change (String c t +:+ String sgn tail)
      with (String c (t +:+ String sgn tail)) at 1.
    rewrite Hsg.
    change (String c (t +:+ String sgn tail))
      with (String c t +:+ String sgn tail).
    rewrite Hs'. destruct Hsgn as [-> | ->]; simpl; now rewrite Hk0.
  - change (skip_space (String "-" (String c t +:+ String sgn tail)))
      with (String "-" (String c t +:+ String sgn tail)).
    change (scan_sign (String "-" (String c t +:+ String sgn tail)))
      with (true, String c t +:+ String sgn tail).
    cbv beta iota. rewrite Hs'.
    destruct Hsgn as [-> | ->]; simpl; now rewrite Hk0.
Qed.

Lemma stod_integer_then_sign (n : Z) (sgn : ascii) (tail : string) :
  - 2 ^ 53 < n < 2 ^ 53 ->
  sgn = "+"%char \/ sgn = "-"%char ->
  stod (to_string_long n +:+ String sgn tail) = Return (ld_of_Z n).
Proof.
  intros Hn Hsgn. destruct n as [|p|p].
  - destruct Hsgn as [-> | ->]; reflexivity.
  - unfold to_string_long. simpl Z.to_N.
    destruct (string_of_N_head (Npos p)) as (c & t & Hs & Hc).
    destruct (strtod_decimal_digits_sign _ c t _ _ sgn tail Hs
                (string_of_uint_digits _) (scan_string_of_N _)
                (nb_digits_N_to_uint _) Hsgn) as [H _].
    apply (stod_exact_integer false p _ ltac:(lia) H).
  - unfold to_string_long.
    destruct (string_of_N_head (Npos p)) as (c & t & Hs & Hc).
    destruct (strtod_decimal_digits_sign _ c t _ _ sgn tail Hs
                (string_of_uint_digits _) (scan_string_of_N _)
                (nb_digits_N_to_uint _) Hsgn) as [_ H].
    apply (stod_exact_integer true p _ ltac:(lia) H).
Qed.

Lemma scans_signed_digits_append (s rest : string) (fp ex : bool) :
  String_forallb (fun c => isdigit c || Ascii.eqb c "-") s = true ->
  scans (s +:+ rest) fp ex = scans rest fp ex.
Proof.
  revert fp ex. induction s as [|c s IH]; intros fp ex H; simpl;
    [reflexivity|].
  simpl in H. apply andb_prop in H as [Hc Hs]. rewrite (IH _ _ Hs).
  apply orb_prop in Hc as [Hc | Hc].
  - destruct (isdigit_facts c Hc) as (_ & -> & _ & _ & -> & -> & _).
    reflexivity.
  - apply Ascii.eqb_eq in Hc as ->. reflexivity.
Qed.

(** [parse()] on a text that begins with a token of [parseNumber]. *)
Lemma parse_number_token (tok rest : string) :
  starts_number (head_or tok NUL) = true ->
  tok <> EmptyString ->
  scans tok false false = true ->
  ends_number rest ->
  parse (Parser_new (tok +:+ rest))
  = number_result (stod tok) (after (Parser_new (tok +:+ rest)) tok rest).
Proof.
  intros Hh Hne Hs Hr. pose proof (at_pos_start (tok +:+ rest)) as Hp.
  rewrite parse_unfold, set_isOk_Parser_new.
  destruct tok as [|c t]; [congruence|]. simpl in Hh.
  rewrite parseElement_number.
  - now apply (parseNumber_token _ EmptyString).
  - apply (currChar_at _ EmptyString c (t +:+ rest)) in Hp. now rewrite Hp.
Qed.

Lemma parseNumber_duplicate (d : duplicate) (p : Parser)
    (pre tok rest : string) :
  at_pos p pre (tok +:+ String (duplicate_char d) rest) ->
  scans tok false false = true ->
  holds_char (duplicate_char d) tok = true ->
  parseNumber p
  = number_result (stod tok)
      (reported (duplicate_msg d)
         (after p tok (String (duplicate_char d) rest))).
Proof.
  intros Hp Hs Hd. unfold parseNumber. unfold bind at 1, gets; simpl.
  unfold turns. unfold bind at 1, gets; simpl.
  match goal with
  | |- context [while _ ?c ?b _] => set (cond := c); set (body := b)
  end.
  set (suffix := String (duplicate_char d) rest) in *.
  set (flag := fun sc => match d with
                         | second_point => floatingPoint sc
                         | second_exponent => exponent sc
                         end).
  assert (Hloop : forall tok n sc q pre0,
             at_pos q pre0 (tok +:+ suffix) ->
             scans tok (floatingPoint sc) (exponent sc) = true ->
             flag sc || holds_char (duplicate_char d) tok = true ->
             (String.length tok < n)%nat ->
             exists sc',
               while n cond body sc q
               = Return (sc', reported (duplicate_msg d) (after q tok suffix))
               /\ scan_len sc' = scan_len sc + Z.of_nat (String.length tok)).
  { clear Hp Hs Hd. intros tok0.
    induction tok0 as [|c t IH]; intros n sc q pre0 Hq Hs Hf Hn.
    - destruct n as [|n]; [simpl in Hn; lia|]. simpl in Hq, Hf.
      rewrite orb_false_r in Hf.
      exists sc. rewrite (after_nil _ _ _ Hq). split; [|simpl; lia].
      apply while_break.
      + unfold cond. rewrite (isEOF_at _ _ _ Hq). unfold suffix.
        unfold suffix in Hq. rewrite (currChar_at _ _ _ _ Hq).
        now destruct d.
      + unfold body. unfold bind at 1, gets; simpl.
        unfold suffix in Hq. rewrite (currChar_at _ _ _ _ Hq).
        unfold flag in Hf. destruct d; simpl in *; rewrite Hf; simpl.
        * reflexivity.
        * destruct sc as [l fp ex]; simpl in *; subst ex. reflexivity.
    - destruct n as [|n]; [simpl in Hn; lia|]. simpl in Hq, Hs, Hn, Hf.
      apply andb_prop in Hs as [Hs Hs4]. apply andb_prop in Hs as [Hs Hs3].
      apply andb_prop in Hs as [Hs1 Hs2].
      apply negb_true_iff in Hs2, Hs3.
      set (sc1 := mkScan (scan_len sc + 1)
                    (if Ascii.eqb c "." then true else floatingPoint sc)
                    (if Ascii.eqb c "e" then true else exponent sc)).
      destruct (IH n sc1 (after q (str1 c) (t +:+ suffix)) (pre0 +:+ str1 c))
        as (sc' & Hw & Hl).
      + now apply (at_pos_after q pre0 (str1 c) (t +:+ suffix)).
      + exact Hs4.
      + unfold flag, sc1 in *. simpl.
        destruct d; simpl in *;
          destruct (Ascii.eqb c "."), (Ascii.eqb c "e");
          simpl in *; try reflexivity; try exact Hf; try discriminate.
      + lia.
      + exists sc'. split.
        * rewrite (while_continue _ _ _ _ sc1 q
                     (after q (str1 c) (t +:+ suffix))).
          -- rewrite Hw, after_after. reflexivity.
          -- unfold cond.
             rewrite (isEOF_at _ _ _ Hq), (currChar_at _ _ _ _ Hq).
             exact Hs1.
          -- unfold body. unfold bind at 1, gets; simpl.
             rewrite (currChar_at _ _ _ _ Hq), Hs2.
             assert (E : Ascii.eqb c "e"
                         && exponent (if Ascii.eqb c "."
                                      then mkScan (scan_len sc) true (exponent sc)
                                      else sc) = false)
               by (destruct (Ascii.eqb c "."); exact Hs3).
             rewrite E.
             unfold bind, advance, modify, ret; simpl.
             rewrite (advance_at _ _ _ _ Hq). unfold sc1.
             destruct (Ascii.eqb c "."), (Ascii.eqb c "e"); reflexivity.
        * rewrite Hl. unfold sc1; simpl. lia. }
  destruct (Hloop tok (S (remaining p)) (mkScan 0 false false) p pre Hp Hs)
    as (sc' & Hw & Hl).
  { unfold flag. destruct d; exact Hd. }
  { rewrite (remaining_at _ _ _ Hp), length_append. lia. }
  rewrite (bind_Return _ _ _ _ _ Hw).
  unfold bind, gets; simpl.
  destruct Hp as (Ht & Hi & _). rewrite Ht, Hi, Hl. simpl.
  rewrite (substr_at _ pre tok suffix) by reflexivity. simpl.
  unfold number_result, overflow_warning.
  destruct (stod tok) as [x|[]| |]; reflexivity.
Qed.

(* ===================================================================== *)
(** * validateIdentifier on a text that is not the identifier *)
(* ===================================================================== *)

(** [validateIdentifier] compares with the identifier the characters it
    went over: as many as the identifier has, or those left when the
    input ends before. *)
Lemma validateIdentifier_window (p : Parser)
    (pre w rest identifier : string) :
  at_pos p pre (w +:+ rest) ->
  String.length w = String.length identifier
  \/ (rest = EmptyString
      /\ (String.length w <= String.length identifier)%nat) ->
  validateIdentifier identifier p
  = Return (String.eqb w identifier, after p w rest).
Proof.
  intros Hp Hlen. unfold validateIdentifier. unfold bind at 1, gets; simpl.
  unfold turns. unfold bind at 1, gets; simpl.
  match goal with
  | |- context [while _ ?c ?b _] => set (cond := c); set (body := b)
  end.
  assert (Hloop : forall s n len q pre0,
             at_pos q pre0 (s +:+ rest) ->
             0 <= len ->
             len + Z.of_nat (String.length s)
             = Z.of_nat (String.length identifier)
             \/ (rest = EmptyString
                 /\ len + Z.of_nat (String.length s)
                    <= Z.of_nat (String.length identifier)) ->
             (String.length s < n)%nat ->
             while n cond body len q
             = Return (len + Z.of_nat (String.length s), after q s rest)).
  { clear Hp Hlen. intros s.
    induction s as [|c s IH]; intros n len q pre0 Hq H0 Hl Hn.
    - destruct n as [|n]; [simpl in Hn; lia|]. simpl in Hq.
      rewrite while_stop, (after_nil _ _ _ Hq).
      + f_equal. f_equal. simpl. lia.
      + unfold cond. simpl in Hl. destruct Hl as [Hl | [-> Hl]].
        * replace (len =? _) with true
            by (symmetry; apply Z.eqb_eq; lia).
          now rewrite andb_false_r.
        * now rewrite (isEOF_at _ _ _ Hq).
    - destruct n as [|n]; [simpl in Hn; lia|]. simpl in Hq, Hn.
      change (String.length (String c s)) with (S (String.length s)) in *.
      rewrite (while_continue _ _ _ _ (len + 1) q
                 (after q (str1 c) (s +:+ rest))).
      + rewrite (IH n (len + 1) _ (pre0 +:+ str1 c)).
        * rewrite after_after. f_equal. f_equal. lia.
        * now apply (at_pos_after q pre0 (str1 c) (s +:+ rest)).
        * lia.
        * destruct Hl as [Hl | [Hr Hl]]; [left | right; split; [exact Hr|]];
            lia.
        * lia.
      + unfold cond. rewrite (isEOF_at _ _ _ Hq). simpl.
        apply negb_true_iff, Z.eqb_neq. destruct Hl as [Hl | [_ Hl]]; lia.
      + unfold body, bind, advance, modify, ret; simpl.
        now rewrite (advance_at _ _ _ _ Hq). }
  rewrite (bind_Return _ _ _ _ _
             (Hloop w (S (remaining p)) 0 p pre Hp ltac:(lia)
                ltac:(destruct Hlen as [Hl | [Hr Hl]];
                        [left | right; split; [exact Hr|]]; lia)
                ltac:(rewrite (remaining_at _ _ _ Hp), length_append; lia))).
  unfold bind, gets, lift; simpl.
  destruct Hp as (Ht & Hi & _). rewrite Ht, Hi.
  rewrite (substr_at _ pre w rest) by reflexivity. reflexivity.
Qed.

(* ===================================================================== *)
(** * A comma before the closing bracket *)
(* ===================================================================== *)

Lemma each_with_comma_join (texts : list string) :
  texts <> [] -> each_with_comma texts = join_comma texts +:+ ",".
Proof.
  induction texts as [|t texts IH]; intros H; [congruence|].
  destruct texts as [|t' texts].
  - simpl. now rewrite !append_nil_r.
  - change (each_with_comma (t :: t' :: texts))
      with (t +:+ "," +:+ each_with_comma (t' :: texts)).
    rewrite IH by discriminate.
    change (join_comma (t :: t' :: texts))
      with (t +:+ "," +:+ join_comma (t' :: texts)).
    now rewrite !append_assoc.
Qed.

Lemma length_each_with_comma (t : string) (texts : list string) :
  t ∈ texts ->
  (String.length t <= String.length (each_with_comma texts))%nat.
Proof.
  induction texts as [|t' texts IH]; intros H; [inversion H|].
  simpl each_with_comma. rewrite !length_append. cbn [String.length].
  apply elem_of_cons in H as [->|H]; [lia|]. specialize (IH H). lia.
Qed.

Lemma parseArray_comma_elements (f : nat) (xs : list Value)
    (texts : list string) (p : Parser) (pre rest : string) :
  Forall2 (fun x t => value_head t /\ parses_back x t
                      /\ (String.length t < f)%nat) xs texts ->
  at_pos p pre ("[" +:+ each_with_comma texts +:+ "]" +:+ rest) ->
  parseArray (parseElement f) p
  = Return (makeArray xs,
            after p ("[" +:+ each_with_comma texts +:+ "]") rest).
Proof.
  intros Hall Hp. unfold parseArray. unfold bind at 1, gets; simpl.
  simpl in Hp. rewrite (currChar_at _ _ _ _ Hp). simpl.
  unfold bind at 1, advance, modify; simpl. rewrite (advance_at _ _ _ _ Hp).
  pose proof (at_pos_after p pre (str1 "[") _ Hp) as Hp1.
  set (p1 := after p (str1 "[") (each_with_comma texts +:+ String "]" rest))
    in *.
  assert (Hsk : skipWhitespace p1 = Return (tt, p1)).
  { destruct Hall as [|x t xs' texts' (Hh & _) _]; simpl in Hp1.
    - apply (skipWhitespace_at _ _ _ _ Hp1). reflexivity.
    - destruct t as [|c t]; [destruct Hh|]. simpl in Hp1.
      apply (skipWhitespace_at _ _ _ _ Hp1). apply Hh. }
  rewrite (bind_Return _ _ _ _ _ Hsk).
  unfold turns. unfold bind at 1, gets; simpl.
  match goal with
  | |- context [while _ ?c ?b _] => set (cond := c); set (body := b)
  end.
  assert (Hloop : forall xs texts,
             Forall2 (fun x t => value_head t /\ parses_back x t
                                 /\ (String.length t < f)%nat) xs texts ->
             forall n a q pre0,
               at_pos q pre0 (each_with_comma texts +:+ String "]" rest) ->
               (String.length (each_with_comma texts) < n)%nat ->
               while n cond body a q
               = Return ((a ++ xs)%list,
                         after q (each_with_comma texts) (String "]" rest))).
  { clear. induction 1 as [|x t xs texts (Hh & Hx & Hf) Hall IH];
      intros n a q pre0 Hq Hn.
    - destruct n as [|n]; [simpl in Hn; lia|]. simpl in Hq.
      change (each_with_comma []) with EmptyString.
      rewrite while_stop, (after_nil _ _ _ Hq), app_nil_r; [reflexivity|].
      unfold cond. rewrite (isEOF_at _ _ _ Hq), (currChar_at _ _ _ _ Hq).
      reflexivity.
    - destruct n as [|n]; [simpl in Hn; lia|].
      set (tail := each_with_comma texts) in *.
      change (each_with_comma (t :: texts)) with (t +:+ "," +:+ tail) in *.
      assert (Hq0 : at_pos q pre0
                      (t +:+ String "," (tail +:+ String "]" rest))).
      { revert Hq. now rewrite !append_assoc. }
      destruct t as [|c t]; [destruct Hh|]. destruct Hh as (Hws & Hbr).
      assert (Hcond : cond a q = true).
      { unfold cond. simpl in Hq0.
        now rewrite (isEOF_at _ _ _ Hq0), (currChar_at _ _ _ _ Hq0), Hbr. }
      assert (Hsk1 : skipWhitespace q = Return (tt, q)).
      { simpl in Hq0. now apply (skipWhitespace_at _ _ _ _ Hq0). }
      pose proof (Hx f q pre0 (String "," (tail +:+ String "]" rest)) Hf Hq0
                    eq_refl) as He.
      pose proof (at_pos_after q pre0 _ _ Hq0) as Hq2.
      set (q2 := after q (String c t) (String "," (tail +:+ String "]" rest)))
        in *.
      pose proof (at_pos_after q2 _ (str1 ",") _ Hq2) as Hq3.
      rewrite (while_continue _ _ _ _ (a ++ [x])%list q
                 (after q2 (str1 ",") (tail +:+ String "]" rest)) Hcond).
      + rewrite (IH n _ _ _ Hq3).
        * rewrite <- app_assoc.
          rewrite (after_after_eq q2 (str1 ",") _ tail (String "]" rest)
                     eq_refl).
          unfold q2.
          rewrite (after_after_eq q (String c t)
                     (String "," (tail +:+ String "]" rest))
                     (str1 "," +:+ tail) (String "]" rest) eq_refl).
          reflexivity.
        * rewrite !length_append in Hn. simpl in Hn. fold tail. lia.
      + unfold body. rewrite (bind_Return _ _ _ _ _ Hsk1).
        rewrite (bind_Return _ _ _ _ _ He).
        rewrite (bind_Return _ _ _ _ _
                   (skipWhitespace_at _ _ _ _ Hq2 eq_refl)).
        unfold bind at 1, gets; simpl.
        rewrite ?(currChar_at _ _ _ _ Hq2). simpl.
        unfold bind, advance, modify, ret; simpl.
        now rewrite (advance_at _ _ _ _ Hq2). }
  rewrite (bind_Return _ _ _ _ _
             (Hloop xs texts Hall (S (remaining p1)) [] p1 _ Hp1
                ltac:(rewrite (remaining_at _ _ _ Hp1), length_append; lia))).
  pose proof (at_pos_after p1 _ _ _ Hp1) as Hp2.
  rewrite (bind_Return _ _ _ _ _ (consume_match _ _ _ _ _ Hp2)).
  unfold ret. simpl app.
  rewrite (after_after_eq p1 _ _ (str1 "]") rest eq_refl). unfold p1.
  rewrite (after_after_eq p (str1 "[") _ _ rest).
  - reflexivity.
  - now rewrite append_assoc.
Qed.

Lemma parseObject_comma_entries (f : nat)
    (es : list (string * Value * string)) (p : Parser) (pre rest : string) :
  Forall (entry_ok f) es ->
  at_pos p pre
    ("{" +:+ each_with_comma (map entry_text es) +:+ "}" +:+ rest) ->
  parseObject (parseElement f) p
  = Return (makeObject (foldl insert_entry ∅ es),
            after p ("{" +:+ each_with_comma (map entry_text es) +:+ "}")
              rest).
Proof.
  intros Hall Hp. unfold parseObject. unfold bind at 1, gets; simpl.
  simpl in Hp. rewrite (currChar_at _ _ _ _ Hp). simpl.
  unfold bind at 1, advance, modify; simpl. rewrite (advance_at _ _ _ _ Hp).
  pose proof (at_pos_after p pre (str1 "{") _ Hp) as Hp1.
  set (p1 := after p (str1 "{")
               (each_with_comma (map entry_text es) +:+ String "}" rest))
    in *.
  assert (Hsk : skipWhitespace p1 = Return (tt, p1)).
  { destruct es as [|[[k x] t] es]; simpl in Hp1.
    - apply (skipWhitespace_at _ _ _ _ Hp1). reflexivity.
    - apply (skipWhitespace_at _ _ _ _ Hp1). reflexivity. }
  rewrite (bind_Return _ _ _ _ _ Hsk).
  unfold turns. unfold bind at 1, gets; simpl.
  match goal with
  | |- context [while _ ?c ?b _] => set (cond := c); set (body := b)
  end.
  assert (Hloop : forall es,
             Forall (entry_ok f) es ->
             forall n m q pre0,
               at_pos q pre0
                 (each_with_comma (map entry_text es) +:+ String "}" rest) ->
               (String.length (each_with_comma (map entry_text es)) < n)%nat ->
               while n cond body (makeObject m) q
               = Return (makeObject (foldl insert_entry m es),
                         after q (each_with_comma (map entry_text es))
                           (String "}" rest))).
  { clear. induction 1 as [|[[k x] t] es (Hk & Hh & Hx & Hf) Hall IH];
      intros n m q pre0 Hq Hn.
    - destruct n as [|n]; [simpl in Hn; lia|]. simpl in Hq.
      change (each_with_comma (map entry_text [])) with EmptyString.
      rewrite while_stop, (after_nil _ _ _ Hq); [reflexivity|].
      unfold cond. rewrite (isEOF_at _ _ _ Hq), (currChar_at _ _ _ _ Hq).
      reflexivity.
    - destruct n as [|n]; [simpl in Hn; lia|]. simpl in Hk, Hh, Hx, Hf.
      set (tail := each_with_comma (map entry_text es)) in *.
      set (R := String "," (tail +:+ String "}" rest)).
      change (each_with_comma (map entry_text ((k, x, t) :: es)))
        with (entry_text (k, x, t) +:+ "," +:+ tail) in *.
      assert (Hq0 : at_pos q pre0
                      (String dquote
                         (k +:+ String dquote (String ":" (t +:+ R))))).
      { revert Hq. rewrite append_assoc, entry_text_append. unfold R.
        now rewrite ?append_assoc. }
      assert (Hcond : cond (makeObject m) q = true).
      { unfold cond.
        now rewrite (isEOF_at _ _ _ Hq0), (currChar_at _ _ _ _ Hq0). }
      assert (Hsk1 : skipWhitespace q = Return (tt, q))
        by (apply (skipWhitespace_at _ _ _ _ Hq0); reflexivity).
      pose proof (parseString_closed q pre0 k _ Hq0 Hk) as Hs.
      pose proof (at_pos_after q pre0 (String dquote (k +:+ str1 dquote))
                    (String ":" (t +:+ R))) as Hq1.
      simpl in Hq1. rewrite append_assoc in Hq1. specialize (Hq1 Hq0).
      set (q1 := after q (String dquote (k +:+ str1 dquote))
                   (String ":" (t +:+ R))) in *.
      assert (Hsk2 : skipWhitespace q1 = Return (tt, q1))
        by (apply (skipWhitespace_at _ _ _ _ Hq1); reflexivity).
      pose proof (at_pos_after q1 _ (str1 ":") _ Hq1) as Hq2.
      set (q2 := after q1 (str1 ":") (t +:+ R)) in *.
      destruct t as [|c t]; [destruct Hh|]. destruct Hh as (Hws & Hbr).
      assert (Hsk3 : skipWhitespace q2 = Return (tt, q2))
        by (simpl in Hq2; now apply (skipWhitespace_at _ _ _ _ Hq2)).
      pose proof (Hx f q2 _ R Hf Hq2 eq_refl) as He.
      pose proof (at_pos_after q2 _ _ _ Hq2) as Hq3.
      set (q3 := after q2 (String c t) R) in *.
      fold R in Hq3.
      assert (Hstep : forall o,
                 body o q
                 = (c' <- gets currChar;;
                    if negb (Ascii.eqb c' ",")
                    then ret (Break (assign_key o k x))
                    else advance;; ret (Continue (assign_key o k x))) q3).
      { intros o. unfold body. rewrite (bind_Return _ _ _ _ _ Hsk1).
        rewrite (bind_Return _ _ _ _ _ Hs).
        rewrite (bind_Return _ _ _ _ _ Hsk2).
        unfold bind at 1, gets; simpl.
        unfold bind at 1, advance, modify; simpl.
        rewrite (advance_at _ _ _ _ Hq1).
        rewrite (bind_Return _ _ _ _ _ Hsk3).
        rewrite (bind_Return _ _ _ _ _ He).
        now rewrite (bind_Return _ _ _ _ _
                       (skipWhitespace_at _ _ _ _ Hq3 eq_refl)). }
      assert (Hq3eq : q3 = after q (entry_text (k, x, String c t)) R).
      { unfold q3, q2, q1.
        rewrite (after_after_eq q _
                   (String ":" (String c t +:+ R))
                   (str1 ":") (String c t +:+ R) eq_refl).
        rewrite (after_after_eq q _ (String c t +:+ R) (String c t) R
                   eq_refl).
        f_equal. unfold entry_text; simpl. rewrite !append_assoc.
        reflexivity. }
      pose proof (at_pos_after q3 _ (str1 ",") _ Hq3) as Hq4.
      rewrite (while_continue _ _ _ _ (makeObject (<[k := x]> m)) q
                 (after q3 (str1 ",") (tail +:+ String "}" rest)) Hcond).
      + rewrite (IH n _ _ _ Hq4).
        * f_equal. f_equal.
          rewrite (after_after_eq q3 (str1 ",") _ tail (String "}" rest)
                     eq_refl).
          rewrite Hq3eq.
          rewrite (after_after_eq q (entry_text (k, x, String c t)) R
                     (str1 "," +:+ tail) (String "}" rest) eq_refl).
          reflexivity.
        * rewrite !length_append in Hn. cbn [String.length] in Hn.
          fold tail. lia.
      + rewrite Hstep. unfold bind at 1, gets; simpl.
        rewrite ?(currChar_at _ _ _ _ Hq3). simpl.
        unfold bind, advance, modify, ret; simpl.
        now rewrite (advance_at _ _ _ _ Hq3). }
  rewrite (bind_Return _ _ _ _ _
             (Hloop es Hall (S (remaining p1)) ∅ p1 _ Hp1
                ltac:(rewrite (remaining_at _ _ _ Hp1), length_append; lia))).
  pose proof (at_pos_after p1 _ _ _ Hp1) as Hp2.
  rewrite (bind_Return _ _ _ _ _ (consume_match _ _ _ _ _ Hp2)).
  unfold ret.
  rewrite (after_after_eq p1 _ _ (str1 "}") rest eq_refl). unfold p1.
  rewrite (after_after_eq p (str1 "{") _ _ rest).
  - reflexivity.
  - now rewrite append_assoc.
Qed.

(* ===================================================================== *)
(** * Numbers that JSON does not allow *)
(* ===================================================================== *)

Lemma scan_digits_zeros (k : nat) (s : string) :
  forall cnt,
    scan_digits (replicate_char k "0" +:+ s) 0 cnt
    = scan_digits s 0 (cnt + k).
Proof.
  induction k as [|k IH]; intros cnt; simpl.
  - now rewrite Nat.add_0_r.
  - rewrite IH. f_equal. lia.
Qed.

Lemma strtod_decimal_plus (s : string) (c : ascii) (t : string)
    (m : N) (k : nat) :
  s = String c t -> isdigit c = true ->
  scan_digits s 0 0 = (m, k, EmptyString) -> (0 < k)%nat ->
  strtod_decimal (String "+" s) = Some (false, m, 0).
Proof.
  intros -> Hc Hs Hk.
  assert (Hk0 : (k + 0 =? 0)%nat = false) by (apply Nat.eqb_neq; lia).
  unfold strtod_decimal.
  change (skip_space (String "+" (String c t)))
    with (String "+" (String c t)).
  change (scan_sign (String "+" (String c t))) with (false, String c t).
  cbv beta iota. rewrite Hs. simpl. now rewrite Hk0.
Qed.

Lemma stod_zeros_integer (plus : bool) (k : nat) (n : Z) :
  0 <= n < 2 ^ 53 ->
  stod ((if plus then "+" else EmptyString)
        +:+ replicate_char k "0" +:+ to_string_long n)
  = Return (ld_of_Z n).
Proof.
  intros Hn.
  set (s := replicate_char k "0" +:+ to_string_long n).
  assert (Hto : to_string_long n = string_of_N (Z.to_N n))
    by (destruct n; [reflexivity | reflexivity | lia]).
  assert (Hh : exists c t, s = String c t /\ isdigit c = true).
  { unfold s. destruct k as [|k]; simpl.
    - rewrite Hto. apply string_of_N_head.
    - eexists _, _. split; reflexivity. }
  destruct Hh as (c & t & Hs & Hc).
  assert (Hsc : scan_digits s 0 0
                = (Z.to_N n, (k + Decimal.nb_digits (N.to_uint (Z.to_N n)))%nat,
                   EmptyString)).
  { unfold s. rewrite scan_digits_zeros, Hto. simpl Nat.add.
    unfold string_of_N. rewrite scan_digits_uint, uint_horner_0.
    change (Pos.of_uint (N.to_uint (Z.to_N n)))
      with (N.of_uint (N.to_uint (Z.to_N n))).
    now rewrite DecimalN.Unsigned.of_to. }
  assert (Hk : (0 < k + Decimal.nb_digits (N.to_uint (Z.to_N n)))%nat)
    by (pose proof (nb_digits_N_to_uint (Z.to_N n)); lia).
  assert (Hd : strtod_decimal ((if plus then "+" else EmptyString) +:+ s)
               = Some (false, Z.to_N n, 0)).
  { destruct plus.
    - apply (strtod_decimal_plus s c t _ _ Hs Hc Hsc Hk).
    - apply (strtod_decimal_digits s c t _ _ Hs Hc Hsc Hk). }
  destruct n as [|q|q]; [| |lia].
  - unfold stod. fold s. now rewrite Hd.
  - fold s. apply (stod_exact_integer false q _ ltac:(lia) Hd).
Qed.

Lemma scans_plus_digits (s : string) (fp ex : bool) :
  String_forallb (fun c => isdigit c || Ascii.eqb c "+") s = true ->
  scans s fp ex = true.
Proof.
  revert fp ex. induction s as [|c s IH]; intros fp ex H; simpl;
    [reflexivity|].
  simpl in H. apply andb_prop in H as [Hc Hs]. rewrite (IH _ _ Hs).
  apply orb_prop in Hc as [Hc | Hc].
  - destruct (isdigit_facts c Hc) as (_ & -> & _ & _ & -> & -> & _).
    reflexivity.
  - apply Ascii.eqb_eq in Hc as ->. reflexivity.
Qed.

(* ===================================================================== *)
(** * The serializer returns *)
(* ===================================================================== *)

Lemma indentation_returns (indent depth : Z) :
  0 <= indent * depth <= INT_MAX ->
  exists sp, indentation indent depth = Return sp.
Proof.
  intros H. unfold indentation, int_mul, string_of_spaces.
  replace ((INT_MIN <=? indent * depth) && (indent * depth <=? INT_MAX))
    with true
    by (symmetry; apply andb_true_intro; split; apply Z.leb_le;
        unfold INT_MIN; lia).
  simpl. replace (indent * depth <? 0) with false
    by (symmetry; apply Z.ltb_ge; lia).
  eauto.
Qed.

Lemma for_each_returns {A} (indent depth : Z) (g : A -> outcome string)
    (l : list A) :
  (0 < indent -> 0 <= indent * (depth + 1) <= INT_MAX) ->
  Forall (fun x => exists t, g x = Return t) l ->
  forall repr,
    exists r,
      for_each (fun repr x last => for_body indent depth repr (g x) last)
        l repr = Return r.
Proof.
  intros Hi. induction 1 as [|x l (t & Ht) _ IH]; intros repr; simpl.
  - eauto.
  - unfold for_body at 1. rewrite Ht.
    destruct (0 <? indent) eqn:E.
    + apply Z.ltb_lt in E.
      destruct (indentation_returns indent (depth + 1) (Hi E)) as (sp & ->).
      simpl. apply IH.
    + simpl. apply IH.
Qed.

Lemma close_container_returns (indent depth : Z) (repr closer : string) :
  0 <= indent * depth <= INT_MAX ->
  exists text, close_container indent depth repr closer = Return text.
Proof.
  intros H. unfold close_container.
  destruct (indentation_returns indent depth H) as (sp & ->). simpl. eauto.
Qed.

Lemma Forall_map_indexed {A B} (f : nat -> A -> B) (P : B -> Prop)
    (l : list A) :
  (forall i x, x ∈ l -> P (f i x)) ->
  forall i, Forall P (map_indexed f i l).
Proof.
  induction l as [|x l IH]; intros H i; simpl; constructor.
  - apply H. left.
  - apply IH. intros j y Hy. apply H. now right.
Qed.

Lemma rendering_returns (v : Value) :
  round_trippable v ->
  forall (order : walk),
    walks_every_entry order ->
    forall (indent depth : Z) (n : nat),
      nested_within n v ->
      0 <= indent -> 0 <= depth ->
      indent * (depth + Z.of_nat n) <= INT_MAX ->
      exists text, getRepresentation order v indent depth = Return text.
Proof.
  induction 1 as [|b|s Hs|x (t & Ht & Hx)|l _ IH|m Hk _ IH];
    intros order order_walks indent depth n Hn Hi Hd Hb.
  - eexists; reflexivity.
  - eexists; reflexivity.
  - eexists; reflexivity.
  - exists t. exact Ht.
  - destruct n as [|k]; [destruct Hn|]. simpl in Hn.
    simpl. unfold toArray; simpl.
    destruct (for_each_returns indent depth (fun o => o)
                (map_indexed
                   (fun i x =>
                      getRepresentation (inside (at_index i) order) x indent
                        (depth + 1)) 0 l)
                ltac:(nia)
                ltac:(apply Forall_map_indexed; intros i x Hx;
                      apply (IH x Hx _ (walks_inside _ _ order_walks)
                               indent (depth + 1) k (Hn x Hx));
                      nia)
                "[") as (r & ->).
    simpl. apply close_container_returns. nia.
  - destruct n as [|k]; [destruct Hn|]. simpl in Hn.
    simpl. unfold toObject; simpl.
    set (rendered :=
           map_with_key
             (fun key x =>
                getRepresentation (inside (at_key key) order) x indent
                  (depth + 1))
             m).
    assert (Hfe : exists r,
               for_each
                 (fun repr kv last =>
                    for_body indent depth repr
                      (let! r := kv.2 in
                       Return (str1 dquote +:+ kv.1 +:+ str1 dquote +:+ ":"
                               +:+ (if 0 <? indent then " " else EmptyString)
                               +:+ r))
                      last)
                 (order [] rendered) "{" = Return r);
      [apply (for_each_returns indent depth
                (fun kv : string * outcome string =>
                   let! r := kv.2 in
                   Return (str1 dquote +:+ kv.1 +:+ str1 dquote +:+ ":"
                           +:+ (if 0 <? indent then " " else EmptyString)
                           +:+ r))
                (order [] rendered) ltac:(nia))
      | destruct Hfe as (r & Hr);
        match goal with
        | |- context [for_each ?b ?l0 ?s] =>
            replace (for_each b l0 s) with (Return r : outcome string)
              by (symmetry; exact Hr)
        end].
    + apply Forall_forall. intros [key o] Hin.
      rewrite (order_walks [] rendered) in Hin.
      apply elem_of_map_to_list in Hin. unfold rendered in Hin.
      rewrite lookup_map_with_key in Hin.
      destruct (m !! key) as [x|] eqn:Hm; [|discriminate Hin].
      injection Hin as <-.
      destruct (IH key x Hm _ (walks_inside (at_key key) _ order_walks)
                  indent (depth + 1) k (Hn key x Hm) Hi ltac:(lia)
                  ltac:(nia)) as (t & ->).
      simpl. eauto.
    + simpl. apply close_container_returns. nia.
Qed.

(* ===================================================================== *)
(** * A negative indent *)
(* ===================================================================== *)

Lemma map_indexed_ext {A B} (f g : nat -> A -> B) (l : list A) :
  (forall i x, x ∈ l -> f i x = g i x) ->
  forall i, map_indexed f i l = map_indexed g i l.
Proof.
  induction l as [|x l IH]; intros H i; simpl; [reflexivity|].
  rewrite (H i x) by left. f_equal. apply IH. intros j y Hy. apply H.
  now right.
Qed.

Lemma map_with_key_ext {A B} (f g : string -> A -> B) (m : gmap string A) :
  (forall k x, m !! k = Some x -> f k x = g k x) ->
  map_with_key f m = map_with_key g m.
Proof.
  intros H. apply map_eq. intros k. rewrite !lookup_map_with_key.
  destruct (m !! k) as [x|] eqn:E; simpl; [|reflexivity].
  now rewrite (H k x E).
Qed.

(** The text of a value that is no container depends on the value only. *)
Lemma getRepresentation_scalar (v : Value) (o o' : walk)
    (indent indent' depth depth' : Z) :
  nested_within 0 v ->
  getRepresentation o v indent depth = getRepresentation o' v indent' depth'.
Proof.
  unfold nested_within, getType. destruct v as [ty ob ar st nu].
  simpl. destruct ty; intros H; try reflexivity; destruct H.
Qed.

Lemma for_body_not_positive (indent depth : Z) (repr : string)
    (item : outcome string) (last : bool) :
  indent <= 0 ->
  for_body indent depth repr item last = for_body 0 depth repr item last.
Proof.
  intros H. unfold for_body.
  replace (0 <? indent) with false by (symmetry; apply Z.ltb_ge; lia).
  reflexivity.
Qed.

Lemma for_each_ext {A} (b b' : string -> A -> bool -> outcome string)
    (l : list A) :
  (forall repr x last, b repr x last = b' repr x last) ->
  forall repr, for_each b l repr = for_each b' l repr.
Proof.
  intros H. induction l as [|x l IH]; intros repr; simpl; [reflexivity|].
  rewrite H. destruct (b' repr x _); simpl; auto.
Qed.

Lemma close_container_top (indent : Z) (repr closer : string) :
  indent <= 0 ->
  close_container indent 0 repr closer = Return (repr +:+ closer).
Proof.
  intros H. unfold close_container, indentation, int_mul.
  replace (0 <? indent) with false by (symmetry; apply Z.ltb_ge; lia).
  rewrite Z.mul_0_r. reflexivity.
Qed.

Lemma close_container_negative (indent depth : Z) (repr closer : string) :
  indent < 0 -> 0 < depth -> INT_MIN <= indent * depth ->
  close_container indent depth repr closer = Throw std_length_error.
Proof.
  intros Hi Hd Hb. unfold close_container, indentation, int_mul.
  replace ((INT_MIN <=? indent * depth) && (indent * depth <=? INT_MAX))
    with true
    by (symmetry; apply andb_true_intro; split; apply Z.leb_le;
        unfold INT_MAX; nia).
  simpl. unfold string_of_spaces.
  replace (indent * depth <? 0) with true
    by (symmetry; apply Z.ltb_lt; nia).
  reflexivity.
Qed.

(* ===================================================================== *)
(** * Properties *)
(* ===================================================================== *)

(** ** The error flag on two inputs *)

(** C4. [parse("{}")] returns an empty Object and [isOK()] is true;
    [parse("[1 2]")], where the comma is missing, returns with [isOK()]
    false, and the loop over the elements has stopped after the first one:
    the Array holds Number 1 and nothing else. The one report is that of the
    missing [']']. *)
Theorem parse_error_flag :
  (exists p, parse (Parser_new "{}") = Return (makeObject ∅, p)
             /\ isOK p = true)
  /\ (exists p, parse (Parser_new "[1 2]")
                = Return (makeArray [makeNumber (ld_of_Z 1)], p)
                /\ isOK p = false
                /\ cout p = ["[ERROR] At line 1: Expected ']' for array end"
                             +:+ str1 LF]).
Proof.
  split; eexists; (split; [vm_compute; reflexivity|]);
    vm_compute; auto.
Qed.

(** ** The empty input *)

(** C10. On the empty string the constructor's [advance()] leaves
    [currChar] at ['\0']; [parse()] falls through the [switch] of
    [parseElement] to the report of an unexpected character, [isOK()] is
    false and the value returned is in the Unknown variant. *)
Theorem parse_empty_input :
  exists p, parse (Parser_new EmptyString) = Return (Value_default, p)
            /\ getType Value_default = ValueType_Unknown
            /\ isOK p = false
            /\ currChar p = NUL
            /\ cout p = ["[ERROR] At line 1: Unexpected character: '"
                         +:+ str1 NUL +:+ "'" +:+ str1 LF].
Proof.
  eexists; split; [vm_compute; reflexivity|]. vm_compute; auto.
Qed.

(** ** An exception that leaves [parse()] *)

(** C9, at the input ["-"]. The scanner of [parseNumber] accepts the
    token ["-"]; [std::stod] finds no digit in it and throws
    [std::invalid_argument]; the handler of [parseNumber] catches
    [std::out_of_range] only, and the exception leaves [parse()]. *)
Theorem parse_lone_minus_throws :
  parse (Parser_new "-") = Throw std_invalid_argument.
Proof. vm_compute; reflexivity. Qed.

(** ** A string without its closing quote *)

(** C6, at the input that is one double quote. [parseString] reads the
    opening quote with [advance()], which reaches the end of the input and
    leaves [currChar] on that quote; the scanning loop does not run, and
    [consume] takes the same quote for the closing one. The result is the
    empty String, nothing is reported and [isOK()] is true. *)
Theorem parse_lone_quote_accepted :
  exists p, parse (Parser_new (str1 dquote))
            = Return (makeString EmptyString, p)
            /\ isOK p = true
            /\ cout p = [].
Proof.
  eexists; split; [vm_compute; reflexivity|]. vm_compute; auto.
Qed.

(** ** Numeric overflow *)

(** C5. Let the input begin with a token [tok] that the scanner of
    [parseNumber] reads whole and without a report, and let [std::stod]
    find [tok] out of range. Then, wherever the parser stands,
    [parseNumber] returns Number 0, writes the overflow warning and leaves
    the failure flag as it was; and [parse()] on such an input returns
    Number 0 with [isOK()] true, the warning being all that was written. *)
Theorem number_overflow_is_not_an_error (tok rest : string) :
  scans tok false false = true ->
  ends_number rest ->
  stod tok = Throw std_out_of_range ->
  (forall (p : Parser) (pre : string),
      at_pos p pre (tok +:+ rest) ->
      exists p', parseNumber p = Return (makeNumber (ld_of_Z 0), p')
                 /\ isOk p' = isOk p
                 /\ cout p' = (cout p ++ [overflow_warning p])%list)
  /\ (starts_number (head_or tok " ") = true ->
      exists p', parse (Parser_new (tok +:+ rest))
                 = Return (makeNumber (ld_of_Z 0), p')
                 /\ isOK p' = true
                 /\ cout p' = ["[WARNING] At line 1: number overflow"
                               +:+ str1 LF]).
Proof.
  intros Hs Hr Ho. split.
  - intros p pre Hp. rewrite (parseNumber_token _ _ _ _ Hp Hs Hr), Ho.
    simpl. eexists; split; [reflexivity|]. split; reflexivity.
  - intros Hc. rewrite parse_unfold, set_isOk_Parser_new.
    pose proof (at_pos_start (tok +:+ rest)) as Hp.
    rewrite parseElement_number.
    + rewrite (parseNumber_token _ _ _ _ Hp Hs Hr), Ho. simpl.
      destruct (Parser_new_fields (tok +:+ rest)) as (_ & Hl & Hk & Hw).
      eexists; split; [reflexivity|]. unfold isOK, overflow_warning; simpl.
      now rewrite Hl, Hk, Hw.
    + destruct tok as [|c tok]; [discriminate Hc|].
      now rewrite (currChar_at _ _ _ _ Hp).
Qed.

Lemma number_overflow_witness :
  exists p', parse (Parser_new "1e999") = Return (makeNumber (ld_of_Z 0), p')
             /\ isOK p' = true
             /\ cout p' = ["[WARNING] At line 1: number overflow" +:+ str1 LF].
Proof.
  apply (proj2 (number_overflow_is_not_an_error "1e999" EmptyString
                  eq_refl I eq_refl)).
  reflexivity.
Defined.

(** ** Empty containers *)

(** C2, as the specification states it, fails at indent 4: the empty
    Array renders with a line break before its bracket. *)
Lemma empty_array_pretty_has_newline :
  getRepresentation key_order (makeArray []) 4 0
  = Return ("[" +:+ str1 LF +:+ "]")
  /\ getRepresentation key_order (makeArray []) 4 0 <> Return "[]"
  /\ getRepresentation key_order (makeObject ∅) 4 0 <> Return "{}".
Proof. vm_compute. repeat split; discriminate. Qed.

(** C2, amended. An empty Array or Object renders as its two brackets with
    nothing between them when [indent] is not positive; when [indent] is
    positive, the line break and the indentation of the closing bracket
    ([indent * depth] spaces) stand between them, so that at depth 0 the
    texts are a bracket, a line break and a bracket. *)
Theorem empty_containers_rendering
    (order : walk)
    (indent depth : Z) :
  walks_every_entry order ->
  0 <= indent * depth <= INT_MAX ->
  let between :=
    (if 0 <? indent then str1 LF else EmptyString)
    +:+ replicate_char (Z.to_nat (indent * depth)) " " in
  getRepresentation order (makeArray []) indent depth
  = Return ("[" +:+ between +:+ "]")
  /\ getRepresentation order (makeObject ∅) indent depth
     = Return ("{" +:+ between +:+ "}").
Proof.
  intros Ho Hr between. unfold between; clear between.
  assert (Hi : indentation indent depth
               = Return (replicate_char (Z.to_nat (indent * depth)) " ")).
  { unfold indentation, int_mul, string_of_spaces.
    replace (INT_MIN <=? indent * depth) with true
      by (symmetry; apply Z.leb_le; unfold INT_MIN; lia).
    replace (indent * depth <=? INT_MAX) with true
      by (symmetry; apply Z.leb_le; lia).
    simpl. now replace (indent * depth <? 0) with false
      by (symmetry; apply Z.ltb_ge; lia). }
  split.
  - simpl. unfold close_container. rewrite Hi. simpl.
    destruct (0 <? indent); reflexivity.
  - simpl. unfold toObject; simpl. rewrite map_with_key_empty.
    assert (E : order [] ∅ = []).
    { apply Permutation_nil_r. rewrite (Ho [] ∅).
      now rewrite map_to_list_empty. }
    rewrite E. simpl. unfold close_container. rewrite Hi. simpl.
    destruct (0 <? indent); reflexivity.
Qed.

Lemma empty_containers_rendering_witness :
  getRepresentation key_order (makeArray []) 4 0
  = Return ("[" +:+ str1 LF +:+ "]")
  /\ getRepresentation key_order (makeObject ∅) 4 0
     = Return ("{" +:+ str1 LF +:+ "}").
Proof.
  apply (empty_containers_rendering key_order 4 0).
  - intros path m. reflexivity.
  - unfold INT_MAX. lia.
Defined.

(** ** Indexed access *)

(** C7, as the specification states it, fails on the empty Array at
    index 0: the access is not a failure of any kind, it is undefined. *)
Lemma subscript_out_of_bounds_unchecked :
  subscript_idx (makeArray []) 0 = Undefined
  /\ forall e, subscript_idx (makeArray []) 0 <> Throw e.
Proof. split; [reflexivity | discriminate]. Qed.

(** C7, amended. For an index within the bounds, [arr[i]] is a reference
    to element [i]: there is such an element, reading through the reference
    yields it, and writing through it replaces that element and no other.
    No index outside the bounds is checked, whether it is at or beyond the
    size or negative (a vector holds at most [PTRDIFF_MAX] elements, so
    that a negative [int], converted to [size_t], is beyond the size): the
    access is undefined, and nothing is thrown. *)
Theorem subscript_idx_spec (v : Value) (idx : Z) :
  INT_MIN <= idx <= INT_MAX ->
  (0 <= idx < Z.of_nat (length (arr v)) ->
   subscript_idx v idx = Return (Z.to_nat idx)
   /\ (exists x, deref v (Z.to_nat idx) = Some x)
   /\ (forall y, deref (assign_idx v (Z.to_nat idx) y) (Z.to_nat idx) = Some y)
   /\ (forall y j, j <> Z.to_nat idx ->
                   deref (assign_idx v (Z.to_nat idx) y) j = deref v j))
  /\ (Z.of_nat (length (arr v)) <= idx ->
      subscript_idx v idx = Undefined
      /\ forall e, subscript_idx v idx <> Throw e)
  /\ (idx < 0 ->
      Z.of_nat (length (arr v)) <= PTRDIFF_MAX ->
      subscript_idx v idx = Undefined
      /\ forall e, subscript_idx v idx <> Throw e).
Proof.
  intros Hr. unfold INT_MIN, INT_MAX in Hr. unfold subscript_idx.
  split; [|split].
  - intros Hb.
    assert (Hs : to_size_t idx = idx)
      by (unfold to_size_t; apply Z.mod_small; lia).
    rewrite Hs.
    replace (idx <? _) with true by (symmetry; apply Z.ltb_lt; lia).
    split; [reflexivity|]. unfold deref, assign_idx; simpl. repeat split.
    + apply lookup_lt_is_Some. lia.
    + intros y. apply list_lookup_insert_eq. lia.
    + intros y j Hj. now apply list_lookup_insert_ne.
  - intros Hb.
    assert (Hs : to_size_t idx = idx)
      by (unfold to_size_t; apply Z.mod_small; lia).
    rewrite Hs.
    replace (idx <? _) with false by (symmetry; apply Z.ltb_ge; lia).
    split; [reflexivity | discriminate].
  - intros Hn Hsize. unfold PTRDIFF_MAX in Hsize.
    assert (Hs : to_size_t idx = idx + 2 ^ 64).
    { unfold to_size_t. symmetry. apply (Z.mod_unique _ _ (-1)); lia. }
    rewrite Hs.
    replace (_ <? _) with false by (symmetry; apply Z.ltb_ge; lia).
    split; [reflexivity | discriminate].
Qed.

Lemma subscript_idx_spec_witness :
  subscript_idx (makeArray [makeNull; makeBoolean true]) 1 = Return 1%nat
  /\ subscript_idx (makeArray [makeNull; makeBoolean true]) 2 = Undefined
  /\ subscript_idx (makeArray [makeNull; makeBoolean true]) (-1) = Undefined.
Proof.
  pose proof (subscript_idx_spec (makeArray [makeNull; makeBoolean true]) 1
                ltac:(unfold INT_MIN, INT_MAX; lia)) as (H1 & _ & _).
  pose proof (subscript_idx_spec (makeArray [makeNull; makeBoolean true]) 2
                ltac:(unfold INT_MIN, INT_MAX; lia)) as (_ & H2 & _).
  pose proof (subscript_idx_spec (makeArray [makeNull; makeBoolean true]) (-1)
                ltac:(unfold INT_MIN, INT_MAX; lia)) as (_ & _ & H3).
  split; [|split].
  - apply H1. simpl. lia.
  - apply H2. simpl. lia.
  - apply H3; [lia | unfold PTRDIFF_MAX; simpl; lia].
Defined.

(** ** Numbers in the rendered text *)

(** C3, as the specification states it, fails on 3.5: [std::to_string] of a
    [long double] writes six digits after the point. *)
Lemma number_3_5_renders_six_digits :
  getRepresentation key_order (makeNumber (LD 7 (-1))) 0 0
  = Return "3.500000"
  /\ getRepresentation key_order (makeNumber (LD 7 (-1))) 0 0
     <> Return "3.5".
Proof. vm_compute. split; [reflexivity | discriminate]. Qed.

(** C3, amended. A Number whose value is an integer that [long] can hold
    renders as that integer in decimal: digits after an optional minus
    sign, no point, no padding (3.0 renders as "3"). A Number whose value
    is not an integer, and whose integer part [long] can hold, renders as
    [std::to_string] prints a [long double]: fixed notation with six digits
    after the point (3.5 renders as "3.500000"). *)
Theorem number_rendering
    (order : walk)
    (indent depth : Z) :
  (forall n, LONG_MIN <= n <= LONG_MAX ->
             getRepresentation order (makeNumber (ld_of_Z n)) indent depth
             = Return (to_string_long n)
             /\ String_forallb (fun c => isdigit c || Ascii.eqb c "-")
                  (to_string_long n) = true)
  /\ (forall x, ld_canonical x -> expo x < 0 ->
                LONG_MIN <= ld_trunc x <= LONG_MAX ->
                getRepresentation order (makeNumber x) indent depth
                = Return (to_string_ldouble x))
  /\ getRepresentation order (makeNumber (ld_of_Z 3)) indent depth
     = Return "3"
  /\ getRepresentation order (makeNumber (LD 7 (-1))) indent depth
     = Return "3.500000".
Proof.
  split; [|split; [|split]].
  - intros n Hn. split; [now apply render_integral|].
    apply to_string_long_chars.
  - intros x Hc He Hn. now apply render_fractional.
  - reflexivity.
  - reflexivity.
Qed.

Lemma number_rendering_witness :
  getRepresentation key_order (makeNumber (ld_of_Z (-42))) 4 0
  = Return "-42"
  /\ getRepresentation key_order (makeNumber (LD (-5) (-2))) 4 0
     = Return "-1.250000".
Proof.
  destruct (number_rendering key_order 4 0) as (Hi & Hf & _).
  split.
  - apply (Hi (-42)). unfold LONG_MIN, LONG_MAX. lia.
  - apply (Hf (LD (-5) (-2))).
    + reflexivity.
    + simpl. lia.
    + vm_compute. split; discriminate.
Defined.

(** ** Round trip *)

(** C1, as the specification states it, fails on a Number that is not an
    integer: the value 1/128 renders with six digits after the point, as
    "0.007812", and that text parses to another number. *)
Lemma round_trip_fails_on_fraction :
  getRepresentation key_order (makeNumber (LD 1 (-7))) 0 0
  = Return "0.007812"
  /\ forall p, parse (Parser_new "0.007812")
               <> Return (makeNumber (LD 1 (-7)), p).
Proof.
  split; [vm_compute; reflexivity|].
  intros p H. vm_compute in H. discriminate H.
Qed.

(** C1, amended. Take a tree built by the factories from Null, Boolean,
    String, Number, Array and Object in which no String and no key of an
    Object holds a double quote and every Number is one that [std::stod]
    reads back from the text the serializer writes for it
    ([round_trippable]): every integer of magnitude below 2^53 is such a
    number ([reads_back_integer]), and so is 3.5, while 1/128 is not.
    Whatever the order in which each Object of the tree is walked, and it
    may differ from one Object to the next, also between two Objects of
    equal content, the compact rendering of the tree is a text that
    [parse()] turns back into an equal tree, with [isOK()] true and
    nothing reported. *)
Theorem parse_getRepresentation_round_trip (order : walk) (v : Value) :
  walks_every_entry order ->
  round_trippable v ->
  exists text,
    getRepresentation order v 0 0 = Return text
    /\ exists p, parse (Parser_new text) = Return (v, p)
                 /\ isOK p = true
                 /\ cout p = [].
Proof.
  intros Ho Hv.
  destruct (round_trip_element v Hv order Ho 0) as (text & Hr & _ & Hp).
  exists text. split; [exact Hr|].
  destruct (Parser_new_fields text) as (Hc & _ & Hk & Hw).
  rewrite parse_unfold, set_isOk_Parser_new, Hc.
  rewrite (Hp (S (String.length text)) (Parser_new text) EmptyString
              EmptyString).
  - eexists. split; [reflexivity|]. unfold isOK; simpl. now rewrite Hk, Hw.
  - lia.
  - rewrite append_nil_r. apply at_pos_start.
  - exact I.
Qed.

Lemma parse_getRepresentation_round_trip_witness :
  let o := makeObject (<["a" := makeNumber (ld_of_Z (-12))]>
                         (<["b" := makeNumber (LD 7 (-1))]> ∅)) in
  let v := makeArray
             [o; o; makeString "x\y"; makeBoolean true; makeNull;
              makeArray []] in
  walks_every_entry second_reversed
  /\ getRepresentation second_reversed v 0 0
     = Return ("[{" +:+ str1 dquote +:+ "a" +:+ str1 dquote +:+ ":-12,"
               +:+ str1 dquote +:+ "b" +:+ str1 dquote +:+ ":3.500000},{"
               +:+ str1 dquote +:+ "b" +:+ str1 dquote +:+ ":3.500000,"
               +:+ str1 dquote +:+ "a" +:+ str1 dquote +:+ ":-12},"
               +:+ str1 dquote +:+ "x\y" +:+ str1 dquote
               +:+ ",true,null,[]]")
  /\ exists text,
       getRepresentation second_reversed v 0 0 = Return text
       /\ exists p, parse (Parser_new text) = Return (v, p)
                    /\ isOK p = true
                    /\ cout p = [].
Proof.
  intros o v.
  assert (Hw : walks_every_entry second_reversed).
  { intros path m. unfold second_reversed.
    destruct path as [|[[|[|i]]|k] [|s path]]; try reflexivity.
    apply reverse_Permutation. }
  split; [exact Hw|]. split; [vm_compute; reflexivity|].
  apply (parse_getRepresentation_round_trip second_reversed v Hw).
  assert (Ho : round_trippable o).
  { apply rt_object; intros k x Hm;
      apply lookup_insert_Some in Hm as [[<- <-]|[_ Hm]];
      try (apply lookup_insert_Some in Hm as [[<- <-]|[_ Hm]]);
      try (rewrite lookup_empty in Hm; discriminate Hm);
      try reflexivity.
    - apply rt_number, reads_back_integer. lia.
    - apply rt_number. exists "3.500000". split; vm_compute; reflexivity. }
  apply rt_array. intros x Hx.
  repeat (apply elem_of_cons in Hx as [-> | Hx]).
  - exact Ho.
  - exact Ho.
  - apply rt_string. reflexivity.
  - apply rt_boolean.
  - apply rt_null.
  - apply rt_array. intros y Hy. inversion Hy.
  - inversion Hx.
Defined.

(** ** Keys without their opening quote *)

(** C8, as the specification states it, fails on the object text made of an
    opening brace, [a], a double quote, [:1] and a closing brace: the key
    position holds [a], not a quote, and yet nothing is reported; the
    object maps [a] to 1 and [isOK()] is true. *)
Lemma bare_key_accepted :
  exists p, parse (Parser_new ("{a" +:+ str1 dquote +:+ ":1}"))
            = Return (makeObject (<["a" := makeNumber (ld_of_Z 1)]> ∅), p)
            /\ isOK p = true
            /\ cout p = [].
Proof.
  eexists. split; [vm_compute; reflexivity|]. vm_compute. auto.
Qed.

(** C8, amended. [parseString] does not require the opening quote: when
    the character at a key position is not a quote, the key is what stands
    from that character up to the next quote, and nothing is reported. The
    string lexer reports an error only when no quote follows at all: on an
    object whose body holds no quote and begins with a character that is
    neither white space nor the closing brace, [parse()] returns with
    [isOK()] false, the missing end of the string being among the
    reports. *)
Theorem bare_key_diagnosis :
  (forall (p : Parser) (pre key rest : string),
      at_pos p pre (key +:+ String dquote rest) ->
      key <> EmptyString ->
      no_quote key = true ->
      parseString p = Return (key, after p (key +:+ str1 dquote) rest))
  /\ (forall (c : ascii) (t : string),
         no_quote (String c t) = true ->
         isWhitespace c = false ->
         c <> "}"%char ->
         exists v p,
           parse (Parser_new (String "{" (String c t))) = Return (v, p)
           /\ isOK p = false
           /\ error_line string_end_msg ∈ cout p).
Proof.
  split.
  - intros p pre key rest Hp Hne Hq.
    destruct key as [|c key]; [congruence|].
    assert (Hc : currChar p <> dquote).
    { simpl in Hp. rewrite (currChar_at _ _ _ _ Hp). simpl in Hq.
      apply andb_prop in Hq as [Hq _].
      now apply negb_true_iff, Ascii.eqb_neq in Hq. }
    rewrite (parseString_bare p Hc).
    destruct Hp as (Ht & Hi & Hh). rewrite Hi.
    now apply parseString_from_closed.
  - intros c t Hq Hws Hbr.
    set (text := String "{" (String c t)).
    pose proof (at_pos_start text) as Hp.
    destruct (Parser_new_fields text) as (Hc & Hl & _ & _).
    destruct (parseObject_bare_key (S (String.length t)) (Parser_new text)
                EmptyString c t Hp Hl Hq Hws Hbr) as (o & p' & Ho & Hk & Hw).
    exists o, p'. rewrite parse_unfold, set_isOk_Parser_new, Hc.
    split; [|split; assumption].
    apply parseElement_object; [|exact Ho].
    now rewrite (currChar_at _ _ _ _ Hp).
Qed.

Lemma bare_key_diagnosis_witness :
  parseString (Parser_new ("ab" +:+ str1 dquote +:+ "c"))
  = Return ("ab", after (Parser_new ("ab" +:+ str1 dquote +:+ "c"))
                    ("ab" +:+ str1 dquote) "c")
  /\ exists v p, parse (Parser_new "{abc:1}") = Return (v, p)
                 /\ isOK p = false
                 /\ error_line string_end_msg ∈ cout p.
Proof.
  destruct bare_key_diagnosis as [H1 H2]. split.
  - apply (H1 _ EmptyString "ab" "c").
    + apply at_pos_start.
    + discriminate.
    + reflexivity.
  - apply (H2 "a"%char "bc:1}").
    + reflexivity.
    + reflexivity.
    + discriminate.
Defined.

(* ===================================================================== *)
(** * Further properties: the members of [Value] *)
(* ===================================================================== *)

(** X1. [operator[](std::string)] inserts on a miss: applied to a key the
    object does not hold, it adds the key with a [Value()] (type Unknown)
    and the object has one entry more; applied to a key it holds, it
    changes nothing. The other keys, the type and the array are left as
    they are, whatever the type of the value: the operator does not look at
    it. Writing through the reference it returns is [assign_key]. *)
Theorem subscript_key_inserts_default (v : Value) (key : string) :
  (forall x, deref_key v key = Some x -> subscript_key v key = v)
  /\ (deref_key v key = None ->
      deref_key (subscript_key v key) key = Some Value_default
      /\ base.size (toObject (subscript_key v key))
         = S (base.size (toObject v)))
  /\ (forall k, k <> key ->
                deref_key (subscript_key v key) k = deref_key v k)
  /\ getType (subscript_key v key) = getType v
  /\ toArray (subscript_key v key) = toArray v
  /\ (forall x, assign_key (subscript_key v key) key x = assign_key v key x).
Proof.
  unfold subscript_key, deref_key, assign_key, getType, toArray, toObject.
  destruct (obj v !! key) as [y|] eqn:E.
  - repeat split; try congruence; auto.
  - repeat split; try congruence; simpl.
    + apply lookup_insert_eq.
    + now apply map_size_insert_None.
    + intros k Hk. now apply lookup_insert_ne.
    + intros x. f_equal. apply insert_insert_eq.
Qed.

Lemma subscript_key_inserts_default_witness :
  let v := makeObject {["a" := makeNull]} in
  subscript_key v "a" = v
  /\ deref_key (subscript_key v "b") "b" = Some Value_default
  /\ base.size (toObject (subscript_key v "b")) = 2%nat.
Proof.
  intros v.
  destruct (subscript_key_inserts_default v "a") as (Ha & _).
  destruct (subscript_key_inserts_default v "b") as (_ & Hb & _).
  split; [apply (Ha makeNull); reflexivity|].
  destruct (Hb eq_refl) as (H1 & H2). split; [exact H1|].
  rewrite H2. reflexivity.
Defined.

(** X2. Looking up a key that an empty Object does not hold makes the
    serializer write a member without a value, a text the parser rejects:
    after [v[k]] the object renders as the braces around the quoted key
    and a colon; [parse()] on that text reports the closing brace as an
    unexpected character and [isOK()] is false. *)
Theorem lookup_of_missing_key_is_rendered
    (order : walk)
    (k : string) :
  walks_every_entry order ->
  no_quote k = true ->
  let v := subscript_key (makeObject ∅) k in
  let text := "{" +:+ str1 dquote +:+ k +:+ str1 dquote +:+ ":}" in
  deref_key v k = Some Value_default
  /\ getRepresentation order v 0 0 = Return text
  /\ exists p, parse (Parser_new text) = Return (v, p)
               /\ isOK p = false
               /\ cout p = ["[ERROR] At line 1: Unexpected character: '}'"
                            +:+ str1 LF].
Proof.
  intros Ho Hq v text.
  assert (Hv : v = assign_key (makeObject ∅) k Value_default).
  { unfold v, subscript_key. simpl. now rewrite lookup_empty. }
  split; [rewrite Hv; apply lookup_insert_eq|]. split.
  - rewrite Hv. simpl. unfold toObject; simpl.
    rewrite insert_empty, map_with_key_singleton.
    assert (E : order []
                  {[k := getRepresentation (inside (at_key k) order)
                           Value_default 0 (0 + 1)]}
                = [(k, Return EmptyString)]).
    { apply Permutation_singleton_r. rewrite (Ho _ _).
      now rewrite map_to_list_singleton. }
    rewrite E. simpl. rewrite close_container_compact. unfold text. simpl.
    now rewrite !append_assoc.
  - pose proof (at_pos_start text) as Hp.
    destruct (Parser_new_fields text) as (Hc & Hl & Hk & Hw).
    assert (Hp' : at_pos (Parser_new text) EmptyString
                    (String "{" (String dquote
                       (k +:+ String dquote (":}" +:+ EmptyString))))).
    { revert Hp. unfold text. simpl. now rewrite ?append_assoc. }
    assert (Hlen : exists f, String.length (content (Parser_new text)) = S f).
    { rewrite Hc. unfold text. simpl. eauto. }
    destruct Hlen as (f & Hlen).
    destruct (parseObject_empty_member f _ _ k _ Hp' Hq)
      as (p' & Hobj & Hk' & Hw').
    exists p'. rewrite parse_unfold, set_isOk_Parser_new, Hlen, Hv.
    split; [|split].
    + apply parseElement_object; [|exact Hobj].
      unfold text in Hp. simpl in Hp. exact (currChar_at _ _ _ _ Hp).
    + exact Hk'.
    + rewrite Hw', Hw, Hl. reflexivity.
Qed.

Lemma lookup_of_missing_key_is_rendered_witness :
  getRepresentation key_order (subscript_key (makeObject ∅) "id") 0 0
  = Return ("{" +:+ str1 dquote +:+ "id" +:+ str1 dquote +:+ ":}")
  /\ exists p,
       parse (Parser_new ("{" +:+ str1 dquote +:+ "id" +:+ str1 dquote
                          +:+ ":}"))
       = Return (subscript_key (makeObject ∅) "id", p)
       /\ isOK p = false
       /\ cout p = ["[ERROR] At line 1: Unexpected character: '}'"
                    +:+ str1 LF].
Proof.
  apply (lookup_of_missing_key_is_rendered key_order "id").
  - intros path m. reflexivity.
  - reflexivity.
Defined.

(** X3. [v[k] = x] and the lookups after it: the key reads as [x], every
    other key reads as before, a second assignment to the key replaces the
    first, assignments to two keys can be made in either order, and
    assigning to a key the value it has changes nothing. *)
Theorem assign_key_laws (v : Value) (k : string) (x : Value) :
  deref_key (assign_key v k x) k = Some x
  /\ (forall k', k' <> k ->
                 deref_key (assign_key v k x) k' = deref_key v k')
  /\ (forall y, assign_key (assign_key v k x) k y = assign_key v k y)
  /\ (forall k' y, k' <> k ->
        assign_key (assign_key v k x) k' y
        = assign_key (assign_key v k' y) k x)
  /\ (deref_key v k = Some x -> assign_key v k x = v).
Proof.
  unfold deref_key, assign_key; simpl. split; [apply lookup_insert_eq|].
  split; [intros k' Hk; now apply lookup_insert_ne|].
  split; [intros y; f_equal; apply insert_insert_eq|].
  split.
  - intros k' y Hk. f_equal. now apply insert_insert_ne.
  - intros H. rewrite insert_id by exact H. apply Value_eta.
Qed.

Lemma assign_key_laws_witness :
  let v := makeObject {["a" := makeNull]} in
  assign_key v "a" makeNull = v
  /\ deref_key (assign_key v "b" (makeBoolean true)) "a" = Some makeNull.
Proof.
  intros v.
  destruct (assign_key_laws v "a" makeNull) as (_ & _ & _ & _ & Hsame).
  destruct (assign_key_laws v "b" (makeBoolean true)) as (_ & Hother & _).
  split; [apply Hsame; reflexivity|].
  rewrite (Hother "a") by discriminate. reflexivity.
Defined.

(** X4. [pushToArray] on an Array appends: the elements are the former
    ones followed by the new one, which [operator[](int)] finds at the
    former size. On a value of any other type the call does nothing. *)
Theorem pushToArray_spec (v x : Value) :
  (getType v = ValueType_Array ->
   toArray (pushToArray v x) = (toArray v ++ [x])%list
   /\ deref (pushToArray v x) (length (toArray v)) = Some x
   /\ (forall i y, deref v i = Some y -> deref (pushToArray v x) i = Some y)
   /\ (Z.of_nat (length (toArray v)) <= INT_MAX ->
       subscript_idx (pushToArray v x) (Z.of_nat (length (toArray v)))
       = Return (length (toArray v))))
  /\ (getType v <> ValueType_Array -> pushToArray v x = v).
Proof.
  unfold pushToArray. split; intros H.
  - destruct (decide _) as [_|N]; [|contradiction]. unfold toArray, deref; simpl.
    split; [reflexivity|]. split; [|split].
    + rewrite lookup_app_r by lia. now rewrite Nat.sub_diag.
    + intros i y Hi. now apply lookup_app_l_Some.
    + intros Hb. unfold subscript_idx; simpl. unfold to_size_t.
      rewrite Z.mod_small by (unfold INT_MAX in Hb; lia).
      rewrite length_app; simpl.
      replace (_ <? _) with true by (symmetry; apply Z.ltb_lt; lia).
      now rewrite Nat2Z.id.
  - destruct (decide _) as [E|_]; [contradiction | reflexivity].
Qed.

Lemma pushToArray_spec_witness :
  toArray (pushToArray (makeArray [makeNull]) (makeBoolean true))
  = [makeNull; makeBoolean true]
  /\ subscript_idx (pushToArray (makeArray [makeNull]) (makeBoolean true)) 1
     = Return 1%nat
  /\ pushToArray (makeString "s") makeNull = makeString "s".
Proof.
  destruct (pushToArray_spec (makeArray [makeNull]) (makeBoolean true))
    as [Harr _].
  destruct (Harr eq_refl) as (H1 & _ & _ & H4).
  destruct (pushToArray_spec (makeString "s") makeNull) as [_ Hstr].
  split; [exact H1|]. split; [apply H4; unfold INT_MAX; simpl; lia|].
  apply Hstr. discriminate.
Defined.

(** X5. [operator[](std::string)] does not test the type of the value: on
    a value that is no Object the assignment is stored and can be read
    back, the type stays what it was, and the serializer, which looks at
    the map of an Object only, writes the same text as before. *)
Theorem key_on_non_object_is_not_rendered
    (order : walk)
    (v : Value) (k : string) (x : Value) (indent depth : Z) :
  getType v <> ValueType_Object ->
  getType (assign_key v k x) = getType v
  /\ deref_key (assign_key v k x) k = Some x
  /\ getRepresentation order (assign_key v k x) indent depth
     = getRepresentation order v indent depth.
Proof.
  intros H. split; [reflexivity|]. split; [apply lookup_insert_eq|].
  destruct v as [t o a s n]. unfold getType in H; simpl in H.
  destruct t; try reflexivity. contradiction.
Qed.

Lemma key_on_non_object_is_not_rendered_witness :
  deref_key (assign_key (makeArray [makeNull]) "a" (makeBoolean true)) "a"
  = Some (makeBoolean true)
  /\ getRepresentation key_order
       (assign_key (makeArray [makeNull]) "a" (makeBoolean true)) 0 0
     = getRepresentation key_order (makeArray [makeNull]) 0 0.
Proof.
  apply (key_on_non_object_is_not_rendered key_order
           (makeArray [makeNull]) "a" (makeBoolean true) 0 0).
  discriminate.
Defined.

(* ===================================================================== *)
(** * Further properties: the lexers *)
(* ===================================================================== *)

(** X6. [skipWhitespace] goes over all the white space ahead (space, line
    feed, carriage return, tab), stops before the first character that is
    none or at the end of the input, and adds to [currLine] the number of
    line feeds it went over. It reports nothing. *)
Theorem skipWhitespace_counts_lines (p : Parser) (pre ws rest : string) :
  at_pos p pre (ws +:+ rest) ->
  all_whitespace ws = true ->
  no_space_ahead rest ->
  exists p',
    skipWhitespace p = Return (tt, p')
    /\ at_pos p' (pre +:+ ws) rest
    /\ currLine p' = currLine p + count_LF ws
    /\ isOk p' = isOk p
    /\ cout p' = cout p.
Proof.
  intros Hp Hw Hr. exists (skipped p ws rest).
  split; [now apply (skipWhitespace_over p pre)|].
  split; [apply (lands_skipped p pre ws rest Hp)|].
  repeat split.
Qed.

Lemma skipWhitespace_counts_lines_witness :
  exists p',
    skipWhitespace (Parser_new (" " +:+ str1 LF +:+ str1 LF +:+ " x"))
    = Return (tt, p')
    /\ at_pos p' (EmptyString +:+ (" " +:+ str1 LF +:+ str1 LF +:+ " ")) "x"
    /\ currLine p'
       = currLine (Parser_new (" " +:+ str1 LF +:+ str1 LF +:+ " x"))
         + count_LF (" " +:+ str1 LF +:+ str1 LF +:+ " ")
    /\ isOk p' = isOk (Parser_new (" " +:+ str1 LF +:+ str1 LF +:+ " x"))
    /\ cout p' = cout (Parser_new (" " +:+ str1 LF +:+ str1 LF +:+ " x")).
Proof.
  apply (skipWhitespace_counts_lines
           (Parser_new (" " +:+ str1 LF +:+ str1 LF +:+ " x"))
           EmptyString (" " +:+ str1 LF +:+ str1 LF +:+ " ") "x").
  - apply (at_pos_start (" " +:+ str1 LF +:+ str1 LF +:+ " x")).
  - reflexivity.
  - reflexivity.
Defined.

(** X7. [parse()] rejects an input that begins with white space, even when
    a value follows: [parseElement] skips the white space and then falls
    through to the report of an unexpected character. The character named
    is the one after the white space (the last white space when the input
    ends there), the line is 1 plus the line feeds skipped, the value
    returned is in the Unknown variant and [isOK()] is false. *)
Theorem leading_whitespace_is_rejected (c : ascii) (ws rest : string) :
  all_whitespace (String c ws) = true ->
  no_space_ahead rest ->
  exists p,
    parse (Parser_new (String c ws +:+ rest)) = Return (Value_default, p)
    /\ isOK p = false
    /\ cout p = ["[ERROR] At line "
                 +:+ to_string_long (1 + count_LF (String c ws))
                 +:+ ": Unexpected character: '"
                 +:+ str1 (head_or rest (last_char ws c)) +:+ "'"
                 +:+ str1 LF].
Proof.
  intros Hw Hr. set (text := String c ws +:+ rest).
  pose proof (at_pos_start text) as Hp.
  rewrite parse_unfold, set_isOk_Parser_new.
  rewrite parseElement_whitespace.
  - unfold bind at 1.
    rewrite (skipWhitespace_over _ _ _ _ Hp Hw Hr).
    eexists. split; [reflexivity|]. unfold isOK. simpl.
    split; reflexivity.
  - unfold text in *. simpl in Hp. simpl String.append.
    rewrite (currChar_at _ _ _ _ Hp).
    simpl in Hw. now apply andb_prop in Hw as [-> _].
Qed.

Lemma leading_whitespace_is_rejected_witness :
  exists p,
    parse (Parser_new (String LF " " +:+ "[1]")) = Return (Value_default, p)
    /\ isOK p = false
    /\ cout p = ["[ERROR] At line "
                 +:+ to_string_long (1 + count_LF (String LF " "))
                 +:+ ": Unexpected character: '"
                 +:+ str1 (head_or "[1]" (last_char " " LF)) +:+ "'"
                 +:+ str1 LF].
Proof.
  apply (leading_whitespace_is_rejected LF " " "[1]"); reflexivity.
Defined.

(** X8. [parseString] interprets no escape: standing on an opening quote,
    it returns the characters up to the next quote as they are, a
    backslash before that quote included, and stops after that quote. It
    reports nothing, and it does not count the line feeds inside the
    string. *)
Theorem parseString_returns_raw_slice (p : Parser) (pre s rest : string) :
  at_pos p pre (String dquote (s +:+ String dquote rest)) ->
  no_quote s = true ->
  exists p',
    parseString p = Return (s, p')
    /\ at_pos p' (pre +:+ String dquote (s +:+ str1 dquote)) rest
    /\ currLine p' = currLine p
    /\ isOk p' = isOk p
    /\ cout p' = cout p.
Proof.
  intros Hp Hs. exists (after p (String dquote (s +:+ str1 dquote)) rest).
  split; [exact (parseString_closed p pre s rest Hp Hs)|].
  split; [|repeat split].
  apply at_pos_after. revert Hp. simpl. now rewrite append_assoc.
Qed.

Lemma parseString_returns_raw_slice_witness :
  exists p',
    parseString (Parser_new (String dquote ("a\" +:+ String dquote "b")))
    = Return ("a\", p')
    /\ at_pos p' (EmptyString +:+ String dquote ("a\" +:+ str1 dquote)) "b"
    /\ currLine p'
       = currLine (Parser_new (String dquote ("a\" +:+ String dquote "b")))
    /\ isOk p'
       = isOk (Parser_new (String dquote ("a\" +:+ String dquote "b")))
    /\ cout p'
       = cout (Parser_new (String dquote ("a\" +:+ String dquote "b"))).
Proof.
  apply (parseString_returns_raw_slice
           (Parser_new (String dquote ("a\" +:+ String dquote "b")))
           EmptyString "a\" "b").
  - apply (at_pos_start (String dquote ("a\" +:+ String dquote "b"))).
  - reflexivity.
Defined.

(** X9. A string that the input ends before closing is reported, as long
    as a character follows the opening quote: [parse()] returns the String
    of the characters after the quote, the one report is that of the
    missing quote, and [isOK()] is false. *)
Theorem unterminated_string_is_reported (c : ascii) (s : string) :
  no_quote (String c s) = true ->
  exists p,
    parse (Parser_new (String dquote (String c s)))
    = Return (makeString (String c s), p)
    /\ isOK p = false
    /\ cout p = [error_line string_end_msg].
Proof.
  intros Hq. set (text := String dquote (String c s)).
  pose proof (at_pos_start text) as Hp.
  destruct (Parser_new_fields text) as (Hc & Hl & Hk & Hw).
  rewrite parse_unfold, set_isOk_Parser_new.
  cbn [parseElement]. unfold bind at 1, gets. cbn [obind fst snd].
  pose proof (currChar_at _ _ _ _ Hp) as Hcc. rewrite Hcc.
  cbn [Ascii.eqb Bool.eqb dquote]. unfold bind at 1. unfold bind at 1.
  rewrite (parseString_unterminated _ _ _ _ Hp Hq).
  eexists. split; [reflexivity|]. unfold isOK, reported, error_line.
  simpl. rewrite ?Hl. split; reflexivity.
Qed.

Lemma unterminated_string_is_reported_witness :
  exists p,
    parse (Parser_new (String dquote "abc")) = Return (makeString "abc", p)
    /\ isOK p = false
    /\ cout p = [error_line string_end_msg].
Proof.
  apply (unterminated_string_is_reported "a" "bc"). reflexivity.
Defined.

(* ===================================================================== *)
(** * Further properties: arrays and objects *)
(* ===================================================================== *)

(** X10. Closing brackets missing at the end of the input are not
    noticed when the input ends with a closing bracket. Take the compact
    text of an Array and put [n + 1] opening brackets before it, with no
    bracket to close them: [advance()] has left [currChar] on the last
    bracket of the input, and each [consume(']')] takes it again.
    [parse()] returns the Array inside [n + 1] arrays of one element,
    reports nothing, and [isOK()] is true. *)
Theorem missing_closing_brackets_accepted
    (order : walk)
    (l : list Value) (n : nat) :
  walks_every_entry order ->
  (forall x, x ∈ l -> round_trippable x) ->
  exists text,
    getRepresentation order (makeArray l) 0 0 = Return text
    /\ exists p, parse (Parser_new (replicate_char (S n) "[" +:+ text))
                 = Return (nest (S n) (makeArray l), p)
                 /\ isOK p = true
                 /\ cout p = [].
Proof.
  intros Ho Hl.
  destruct (round_trip_element (makeArray l) (rt_array l Hl) order Ho 0)
    as (text & Ht & _ & Hb).
  exists text. split; [exact Ht|].
  destruct (array_text_shape _ _ _ _ _ Ht) as (s & Hs).
  set (input := replicate_char (S n) "[" +:+ text).
  destruct (Parser_new_fields input) as (Hc & _ & Hk & Hw).
  rewrite parse_unfold, set_isOk_Parser_new, Hc.
  destruct (parseElement_missing_brackets l text s Hs Hb (S n)
              (S (String.length input)) (Parser_new input) EmptyString)
    as (q & Hq & _ & _ & Hqk & Hqw).
  - apply at_pos_start.
  - unfold input. rewrite length_append.
    assert (String.length (replicate_char (S n) "[") = S n)
      by (clear; induction n; simpl in *; auto).
    lia.
  - exists q. split; [exact Hq|]. unfold isOK. now rewrite Hqk, Hqw, Hk, Hw.
Qed.

Lemma missing_closing_brackets_accepted_witness :
  exists text,
    getRepresentation key_order (makeArray [makeNumber (ld_of_Z 1)]) 0 0
    = Return text
    /\ exists p, parse (Parser_new (replicate_char 2 "[" +:+ text))
                 = Return (nest 2 (makeArray [makeNumber (ld_of_Z 1)]), p)
                 /\ isOK p = true
                 /\ cout p = [].
Proof.
  apply (missing_closing_brackets_accepted key_order
           [makeNumber (ld_of_Z 1)] 1).
  - intros path m. reflexivity.
  - intros x Hx. apply elem_of_cons in Hx as [-> | Hx]; [|inversion Hx].
    apply rt_number, reads_back_integer. lia.
Defined.

(** X11. A key that occurs more than once in an object text keeps the
    value of its last occurrence. Let the members be given by their keys
    (without a quote), their values and the compact texts of the values:
    [parse()] on the braces around the members, separated by commas,
    returns the Object that maps each key to the value of the last member
    with that key, and [isOK()] is true. *)
Theorem duplicate_key_last_wins
    (order : walk)
    (es : list (string * Value * string)) :
  walks_every_entry order ->
  Forall (fun e => no_quote e.1.1 = true
                   /\ round_trippable e.1.2
                   /\ getRepresentation order e.1.2 0 1 = Return e.2) es ->
  exists m p,
    parse (Parser_new ("{" +:+ join_comma (map entry_text es) +:+ "}"))
    = Return (makeObject m, p)
    /\ isOK p = true
    /\ cout p = []
    /\ m = list_to_map (reverse es.*1)
    /\ forall es1 k x t es2,
         es = (es1 ++ (k, x, t) :: es2)%list ->
         k ∉ es2.*1.*1 ->
         m !! k = Some x.
Proof.
  intros Ho Hall.
  set (text := "{" +:+ join_comma (map entry_text es) +:+ "}").
  exists (list_to_map (reverse es.*1)).
  destruct (Parser_new_fields text) as (Hc & _ & Hk & Hw).
  assert (Hok : Forall (entry_ok (String.length text)) es).
  { assert (Hb : forall e, e ∈ es ->
                           (String.length e.2 < String.length text)%nat).
    { intros e He.
      pose proof (length_join_comma (entry_text e) (map entry_text es)
                    ltac:(now apply list_elem_of_fmap_2)).
      pose proof (length_entry_text e). unfold text. simpl.
      rewrite length_append. simpl. lia. }
    revert Hb. generalize (String.length text) as f. intros f Hb.
    clear -Hall Hb Ho. induction Hall as [|e es (Hq & Hv & Ht) _ IHes];
      constructor.
    - destruct (round_trip_element _ Hv order Ho 1) as (t' & Ht' & Hh & Hp).
      rewrite Ht in Ht'. injection Ht' as <-.
      repeat split; auto. apply Hb. left.
    - apply IHes. intros e' He'. apply Hb. now right. }
  pose proof (at_pos_start text) as Hp.
  assert (Hp' : at_pos (Parser_new text) EmptyString
                  ("{" +:+ join_comma (map entry_text es) +:+ "}"
                   +:+ EmptyString))
    by (rewrite append_nil_r; exact Hp).
  pose proof (parseObject_entries _ es _ _ _ Hok Hp') as Hobj.
  rewrite foldl_insert_entry_list_to_map in Hobj.
  eexists. split; [|split; [|split; [|split; [reflexivity|]]]].
  - rewrite parse_unfold, set_isOk_Parser_new, Hc.
    apply parseElement_object; [|exact Hobj].
    unfold text in Hp. simpl in Hp. exact (currChar_at _ _ _ _ Hp).
  - unfold isOK; simpl. exact Hk.
  - simpl. exact Hw.
  - intros es1 k x t es2 -> Hn.
    rewrite !fmap_app, reverse_app. simpl. rewrite reverse_cons.
    rewrite <- app_assoc. simpl. rewrite list_to_map_app.
    rewrite lookup_union_r.
    + simpl. apply lookup_insert_eq.
    + apply not_elem_of_list_to_map_1. rewrite fmap_reverse.
      rewrite elem_of_reverse. exact Hn.
Qed.

Lemma duplicate_key_last_wins_witness :
  exists m p,
    parse (Parser_new
             ("{" +:+ join_comma
                        (map entry_text
                           [("a", makeNumber (ld_of_Z 1), "1");
                            ("a", makeNumber (ld_of_Z 2), "2")])
              +:+ "}"))
    = Return (makeObject m, p)
    /\ isOK p = true
    /\ cout p = []
    /\ m = list_to_map
             (reverse [("a", makeNumber (ld_of_Z 1), "1");
                       ("a", makeNumber (ld_of_Z 2), "2")].*1)
    /\ forall es1 k x t es2,
         [("a", makeNumber (ld_of_Z 1), "1");
          ("a", makeNumber (ld_of_Z 2), "2")]
         = (es1 ++ (k, x, t) :: es2)%list ->
         k ∉ es2.*1.*1 ->
         m !! k = Some x.
Proof.
  apply (duplicate_key_last_wins key_order
           [("a", makeNumber (ld_of_Z 1), "1");
            ("a", makeNumber (ld_of_Z 2), "2")]).
  - intros path m. reflexivity.
  - constructor; [|constructor; [|constructor]];
      (split; [reflexivity|]);
      (split; [apply rt_number, reads_back_integer; lia | reflexivity]).
Defined.

(** X12. Whatever [getRepresentation] writes for a tree is read back, for
    every indent and depth. Take a tree built by the factories in which no
    String and no key holds a double quote and every Number is one that
    [std::stod] reads back from its text. If [getRepresentation(indent,
    depth)] returns a text, then [parse()] on that text, and on that text
    followed by anything that cannot continue a number, returns an equal
    tree with [isOK()] true and nothing reported; the cursor stops right
    after the text, and what follows is not looked at. *)
Theorem rendered_text_parses_back
    (order : walk)
    (v : Value) (indent depth : Z) (text rest : string) :
  walks_every_entry order ->
  round_trippable v ->
  getRepresentation order v indent depth = Return text ->
  ends_number rest ->
  exists p, parse (Parser_new (text +:+ rest)) = Return (v, p)
            /\ isOK p = true
            /\ cout p = []
            /\ currIdx p = Z.of_nat (String.length text).
Proof. apply rendered_parses. Qed.

Lemma rendered_text_parses_back_witness :
  let v := makeObject
             (<["a" := makeArray [makeNumber (ld_of_Z 1); makeBoolean true;
                                  makeArray []]]>
                (<["b" := makeString "x y"]> ∅)) in
  exists text,
    getRepresentation key_order v 4 0 = Return text
    /\ exists p, parse (Parser_new (text +:+ " trailing")) = Return (v, p)
                 /\ isOK p = true
                 /\ cout p = []
                 /\ currIdx p = Z.of_nat (String.length text).
Proof.
  intros v. eexists. split; [vm_compute; reflexivity|].
  apply (rendered_text_parses_back key_order v 4 0).
  - intros path m. reflexivity.
  - apply rt_object; intros k x Hm;
      repeat (apply lookup_insert_Some in Hm as [[<- <-]|[_ Hm]]);
      try (rewrite lookup_empty in Hm; discriminate Hm);
      try reflexivity.
    + apply rt_array. intros y Hy.
      repeat (apply elem_of_cons in Hy as [-> | Hy]).
      * apply rt_number, reads_back_integer. lia.
      * apply rt_boolean.
      * apply rt_array. intros z Hz. inversion Hz.
      * inversion Hy.
    + apply rt_string. reflexivity.
  - vm_compute. reflexivity.
  - reflexivity.
Defined.

(* ===================================================================== *)
(** * Further properties: files *)
(* ===================================================================== *)

(** X13. [Parser::fromFile] on a file that can be opened returns the
    parser of the whole content of the file, whatever its length: the
    pieces of [readSize] characters that the loop appends and the shorter
    piece appended after it (empty when the length is a multiple of
    [readSize]) make up the content, and the loop ends. *)
Theorem fromFile_reads_whole_file (fs : FileSystem) (filename data : string) :
  files fs !! filename = Some data ->
  fromFile fs filename = Return (Parser_new data).
Proof. apply fromFile_content. Qed.

Lemma fromFile_reads_whole_file_witness :
  fromFile
    (mkFileSystem
       {["big.json" := replicate_char (Z.to_nat 9000) "7"]} (fun _ => false))
    "big.json"
  = Return (Parser_new (replicate_char (Z.to_nat 9000) "7")).
Proof.
  apply (fromFile_reads_whole_file
           (mkFileSystem
              {["big.json" := replicate_char (Z.to_nat 9000) "7"]}
              (fun _ => false))
           "big.json" (replicate_char (Z.to_nat 9000) "7")).
  apply lookup_singleton_eq.
Defined.





(* ===================================================================== *)
(** * Further properties: what [parse()] never does *)
(* ===================================================================== *)




(* ===================================================================== *)
(** * Further properties: numbers *)
(* ===================================================================== *)

(** X18. A sign inside a number is not an error. [parseNumber] takes
    every run of digits, signs, points and [e] as one token, and
    [std::stod] reads the longest prefix of it that is a number. So an
    integer followed by a sign and anything the scan accepts (at most one
    point and one [e]) is the integer: [12-34-56] is 12 and [1+1] is 1,
    with [isOK()] true, nothing reported, and the cursor after the whole
    token. *)
Theorem sign_inside_number_is_accepted
    (n : Z) (sgn : ascii) (tail rest : string) :
  - 2 ^ 53 < n < 2 ^ 53 ->
  sgn = "+"%char \/ sgn = "-"%char ->
  scans (String sgn tail) false false = true ->
  ends_number rest ->
  exists p,
    parse (Parser_new (to_string_long n +:+ String sgn tail +:+ rest))
    = Return (makeNumber (ld_of_Z n), p)
    /\ isOK p = true
    /\ cout p = []
    /\ currIdx p
       = Z.of_nat (String.length (to_string_long n +:+ String sgn tail)).
Proof.
  intros Hn Hsgn Hs Hr.
  set (tok := to_string_long n +:+ String sgn tail).
  replace (to_string_long n +:+ String sgn tail +:+ rest) with (tok +:+ rest)
    by (unfold tok; now rewrite append_assoc).
  destruct (to_string_long_token n) as (_ & c & t & Ht & Hc & _).
  rewrite parse_number_token.
  - unfold tok at 1. rewrite (stod_integer_then_sign n sgn tail Hn Hsgn).
    eexists. split; [reflexivity|].
    destruct (Parser_new_fields (tok +:+ rest)) as (_ & _ & Hk & Hw).
    pose proof (at_pos_start (tok +:+ rest)) as (_ & Hi & _).
    unfold isOK, after; simpl. rewrite Hk, Hw, Hi. simpl.
    repeat split; lia.
  - unfold tok. rewrite Ht. exact Hc.
  - unfold tok. rewrite Ht. discriminate.
  - unfold tok. rewrite scans_signed_digits_append; [exact Hs|].
    apply to_string_long_chars.
  - exact Hr.
Qed.

Lemma sign_inside_number_is_accepted_witness :
  exists p,
    parse (Parser_new "2024-01-15, 7") = Return (makeNumber (ld_of_Z 2024), p)
    /\ isOK p = true
    /\ cout p = []
    /\ currIdx p = 10.
Proof.
  apply (sign_inside_number_is_accepted 2024 "-" "01-15" ", 7");
    [lia | now right | reflexivity | reflexivity].
Defined.

(** X19. A second point, or a second [e], ends the number and is
    reported. When the token scanned so far holds a point and the next
    character is a point ([1.5.7]), or holds an [e] and the next is an [e],
    [parseNumber] reports the duplicate and stops before it; the Number
    returned is what [std::stod] reads from the token before the
    duplicate, [isOK()] is false, and what follows is not read. *)
Theorem duplicate_point_or_exponent_is_reported
    (d : duplicate) (tok rest : string) (x : ldouble) :
  starts_number (head_or tok NUL) = true ->
  scans tok false false = true ->
  holds_char (duplicate_char d) tok = true ->
  stod tok = Return x ->
  exists p,
    parse (Parser_new (tok +:+ String (duplicate_char d) rest))
    = Return (makeNumber x, p)
    /\ isOK p = false
    /\ cout p = [error_line (duplicate_msg d)]
    /\ currIdx p = Z.of_nat (String.length tok).
Proof.
  intros Hh Hs Hd Hx.
  set (text := tok +:+ String (duplicate_char d) rest).
  pose proof (at_pos_start text) as Hp.
  destruct (Parser_new_fields text) as (_ & Hl & Hk & Hw).
  rewrite parse_unfold, set_isOk_Parser_new.
  destruct tok as [|c t]; [discriminate Hd|]. simpl in Hh.
  rewrite parseElement_number.
  - rewrite (parseNumber_duplicate d _ EmptyString (String c t) rest Hp Hs Hd).
    rewrite Hx. eexists. split; [reflexivity|].
    destruct Hp as (_ & Hi & _).
    unfold isOK, reported, error_line, after; simpl. rewrite ?Hl, ?Hw, ?Hi.
    repeat split; lia.
  - apply (currChar_at _ EmptyString c
             (t +:+ String (duplicate_char d) rest)) in Hp.
    now rewrite Hp.
Qed.

Lemma duplicate_point_or_exponent_is_reported_witness :
  (exists p,
     parse (Parser_new "1.5.7") = Return (makeNumber (LD 3 (-1)), p)
     /\ isOK p = false
     /\ cout p = [error_line "invalid number: duplicate floating point"]
     /\ currIdx p = 3)
  /\ (exists p,
        parse (Parser_new "-2e1e9]") = Return (makeNumber (LD (-5) 2), p)
        /\ isOK p = false
        /\ cout p = [error_line "invalid number: duplicate exponent symbol"]
        /\ currIdx p = 4).
Proof.
  split.
  - apply (duplicate_point_or_exponent_is_reported second_point "1.5" "7");
      vm_compute; reflexivity.
  - apply (duplicate_point_or_exponent_is_reported second_exponent "-2e1" "9]");
      vm_compute; reflexivity.
Defined.

(** X20. Numbers that JSON does not allow are read. [parseElement]
    enters [parseNumber] on a plus sign as on a minus sign, and the scan
    and [std::stod] take zeros at the head of a number: a plus sign, then
    any number of zeros, then an integer are read as that integer, with
    [isOK()] true and nothing reported ([+5] is 5 and [007] is 7). *)
Theorem plus_sign_and_leading_zeros_are_accepted
    (plus : bool) (k : nat) (n : Z) (rest : string) :
  0 <= n < 2 ^ 53 ->
  ends_number rest ->
  exists p,
    parse (Parser_new ((if plus then "+" else EmptyString)
                       +:+ replicate_char k "0" +:+ to_string_long n
                       +:+ rest))
    = Return (makeNumber (ld_of_Z n), p)
    /\ isOK p = true
    /\ cout p = [].
Proof.
  intros Hn Hr.
  set (tok := (if plus then "+" else EmptyString)
              +:+ replicate_char k "0" +:+ to_string_long n).
  replace ((if plus then "+" else EmptyString)
           +:+ replicate_char k "0" +:+ to_string_long n +:+ rest)
    with (tok +:+ rest)
    by (unfold tok; now rewrite !append_assoc).
  destruct (to_string_long_token n) as (_ & c & t & Ht & Hc & _).
  assert (Hchars : String_forallb (fun c => isdigit c || Ascii.eqb c "+") tok
                   = true).
  { unfold tok. apply String_forallb_append; [now destruct plus|].
    apply String_forallb_append.
    - apply (String_forallb_impl isdigit); [now intros ? ->|].
      apply replicate_char_digits.
    - apply (String_forallb_impl isdigit); [now intros ? ->|].
      destruct n; [apply string_of_uint_digits ..|lia]. }
  rewrite parse_number_token.
  - unfold tok at 1. rewrite (stod_zeros_integer plus k n Hn).
    eexists. split; [reflexivity|].
    destruct (Parser_new_fields (tok +:+ rest)) as (_ & _ & Hk & Hw).
    unfold isOK, after; simpl. now rewrite Hk, Hw.
  - unfold tok. destruct plus; [reflexivity|]. simpl.
    destruct k; [|reflexivity]. simpl. rewrite Ht. exact Hc.
  - unfold tok. destruct plus; [discriminate|]. simpl.
    destruct k; [|discriminate]. simpl. rewrite Ht. discriminate.
  - now apply scans_plus_digits.
  - exact Hr.
Qed.

Lemma plus_sign_and_leading_zeros_are_accepted_witness :
  exists p,
    parse (Parser_new "+007]") = Return (makeNumber (ld_of_Z 7), p)
    /\ isOK p = true
    /\ cout p = [].
Proof.
  apply (plus_sign_and_leading_zeros_are_accepted true 2 7 "]");
    [lia | reflexivity].
Defined.

(* ===================================================================== *)
(** * Further properties: identifiers *)
(* ===================================================================== *)

(** X21. A text that begins like [true], [false] or [null] and is not
    that identifier is rejected, and the character named in the report is
    not where the text differs: [validateIdentifier] has gone over as many
    characters as the identifier has (or over the rest of the input when
    it is shorter), and the report names the character after them, or the
    last character of the input when it ended there. [parse()] returns a
    value of type Unknown and [isOK()] is false. *)
Theorem misspelt_identifier_is_rejected
    (identifier w rest : string) (c : ascii) (t t' : string) :
  identifier = "true" \/ identifier = "false" \/ identifier = "null" ->
  identifier = String c t ->
  w = String c t' ->
  w <> identifier ->
  String.length w = String.length identifier
  \/ (rest = EmptyString
      /\ (String.length w <= String.length identifier)%nat) ->
  exists p,
    parse (Parser_new (w +:+ rest)) = Return (Value_default, p)
    /\ isOK p = false
    /\ cout p = [error_line ("Unexpected character: '"
                             +:+ str1 (head_or rest (last_char w c))
                             +:+ "'")]
    /\ currIdx p = Z.of_nat (String.length w).
Proof.
  intros Hid Hi Hw Hne Hlen.
  pose proof (at_pos_start (w +:+ rest)) as Hp.
  destruct (Parser_new_fields (w +:+ rest)) as (_ & Hl & Hk & Hc).
  assert (Hcc : currChar (Parser_new (w +:+ rest)) = c).
  { subst w. now apply (currChar_at _ EmptyString c (t' +:+ rest)). }
  assert (He : String.eqb w identifier = false)
    by now apply String.eqb_neq.
  pose proof (validateIdentifier_window _ _ _ _ identifier Hp Hlen) as Hv.
  rewrite He in Hv.
  rewrite parse_unfold, set_isOk_Parser_new.
  cbn [parseElement]. unfold bind at 1, gets. cbn [obind fst snd].
  rewrite Hcc.
  assert (Hr : forall (x : Value) (k : option Value -> M Value),
             bind (bind (validateIdentifier identifier)
                        (fun b => ret (if b then Some x else None))) k
                  (Parser_new (w +:+ rest))
             = k None (after (Parser_new (w +:+ rest)) w rest)).
  { intros x k. unfold bind at 1. unfold bind at 1. now rewrite Hv. }
  destruct Hp as (_ & Hidx & _).
  destruct Hid as [E | [E | E]]; rewrite E in Hi; injection Hi as <- <-;
    subst identifier; cbn [Ascii.eqb Bool.eqb dquote];
    rewrite Hr; unfold bind, gets, reportError, modify, ret; simpl;
    (eexists; split; [reflexivity|]);
    unfold isOK, error_line; simpl; rewrite ?Hl, ?Hc, ?Hidx, ?Hcc;
    repeat split; lia.
Qed.

Lemma misspelt_identifier_is_rejected_witness :
  (exists p,
     parse (Parser_new "nulL, 1]") = Return (Value_default, p)
     /\ isOK p = false
     /\ cout p = [error_line "Unexpected character: ','"]
     /\ currIdx p = 4)
  /\ (exists p,
        parse (Parser_new "tru") = Return (Value_default, p)
        /\ isOK p = false
        /\ cout p = [error_line "Unexpected character: 'u'"]
        /\ currIdx p = 3).
Proof.
  split.
  - apply (misspelt_identifier_is_rejected "null" "nulL" ", 1]" "n" "ull" "ulL");
      [auto | reflexivity | reflexivity | discriminate | now left].
  - apply (misspelt_identifier_is_rejected "true" "tru" "" "t" "rue" "ru");
      [auto | reflexivity | reflexivity | discriminate
      | right; split; [reflexivity | simpl; lia]].
Defined.

(* ===================================================================== *)
(** * Further properties: commas *)
(* ===================================================================== *)

(** X22. A comma before the closing bracket is accepted. After a comma
    the loops of [parseArray] and [parseObject] test for the closing
    bracket before they read on, so that [[1,2,]] is read as [[1,2]] and
    an object text with a comma after its last member as the object
    without it. Let the elements and the members be given with their
    compact texts (and keys without a quote): [parse()] on the brackets
    around the texts, each followed by a comma, returns the Array of the
    elements, resp. the Object of the members, with [isOK()] true and
    nothing reported. *)
Theorem comma_before_closing_bracket_is_accepted
    (order : walk)
    (l : list (Value * string)) (es : list (string * Value * string)) :
  walks_every_entry order ->
  Forall (fun e => round_trippable e.1
                   /\ getRepresentation order e.1 0 1 = Return e.2) l ->
  Forall (fun e => no_quote e.1.1 = true
                   /\ round_trippable e.1.2
                   /\ getRepresentation order e.1.2 0 1 = Return e.2) es ->
  (exists p,
     parse (Parser_new ("[" +:+ each_with_comma l.*2 +:+ "]"))
     = Return (makeArray l.*1, p)
     /\ isOK p = true
     /\ cout p = [])
  /\ (exists p,
        parse (Parser_new ("{" +:+ each_with_comma (map entry_text es)
                           +:+ "}"))
        = Return (makeObject (list_to_map (reverse es.*1)), p)
        /\ isOK p = true
        /\ cout p = []).
Proof.
  intros Ho Hl Hes. split.
  - set (text := "[" +:+ each_with_comma l.*2 +:+ "]").
    destruct (Parser_new_fields text) as (Hc & _ & Hk & Hw).
    assert (Hok : Forall2 (fun x t => value_head t /\ parses_back x t
                                      /\ (String.length t
                                          < String.length text)%nat)
                    l.*1 l.*2).
    { assert (Hb : forall t, t ∈ l.*2 ->
                             (String.length t < String.length text)%nat).
      { intros t Ht. pose proof (length_each_with_comma t _ Ht).
        unfold text. simpl. rewrite length_append. simpl. lia. }
      revert Hb. generalize (String.length text) as f. intros f Hb.
      clear -Hl Hb Ho. induction Hl as [|e l (Hv & Ht) _ IHl]; simpl;
        constructor.
      - destruct (round_trip_element _ Hv order Ho 1) as (t' & Ht' & Hh & Hp).
        rewrite Ht in Ht'. injection Ht' as <-.
        repeat split; auto. apply Hb. left.
      - apply IHl. intros t' Ht'. apply Hb. now right. }
    pose proof (at_pos_start text) as Hp.
    assert (Hp' : at_pos (Parser_new text) EmptyString
                    ("[" +:+ each_with_comma l.*2 +:+ "]" +:+ EmptyString))
      by (rewrite append_nil_r; exact Hp).
    pose proof (parseArray_comma_elements _ _ _ _ _ _ Hok Hp') as Harr.
    eexists. split; [|split].
    + rewrite parse_unfold, set_isOk_Parser_new, Hc.
      rewrite parseElement_array; [exact Harr|].
      unfold text in Hp. simpl in Hp. exact (currChar_at _ _ _ _ Hp).
    + unfold isOK; simpl. exact Hk.
    + simpl. exact Hw.
  - set (text := "{" +:+ each_with_comma (map entry_text es) +:+ "}").
    destruct (Parser_new_fields text) as (Hc & _ & Hk & Hw).
    assert (Hok : Forall (entry_ok (String.length text)) es).
    { assert (Hb : forall e, e ∈ es ->
                             (String.length e.2 < String.length text)%nat).
      { intros e He.
        pose proof (length_each_with_comma (entry_text e) (map entry_text es)
                      ltac:(now apply list_elem_of_fmap_2)).
        pose proof (length_entry_text e). unfold text. simpl.
        rewrite length_append. simpl. lia. }
      revert Hb. generalize (String.length text) as f. intros f Hb.
      clear -Hes Hb Ho. induction Hes as [|e es (Hq & Hv & Ht) _ IHes];
        constructor.
      - destruct (round_trip_element _ Hv order Ho 1) as (t' & Ht' & Hh & Hp).
        rewrite Ht in Ht'. injection Ht' as <-.
        repeat split; auto. apply Hb. left.
      - apply IHes. intros e' He'. apply Hb. now right. }
    pose proof (at_pos_start text) as Hp.
    assert (Hp' : at_pos (Parser_new text) EmptyString
                    ("{" +:+ each_with_comma (map entry_text es) +:+ "}"
                     +:+ EmptyString))
      by (rewrite append_nil_r; exact Hp).
    pose proof (parseObject_comma_entries _ es _ _ _ Hok Hp') as Hobj.
    rewrite foldl_insert_entry_list_to_map in Hobj.
    eexists. split; [|split].
    + rewrite parse_unfold, set_isOk_Parser_new, Hc.
      apply parseElement_object; [|exact Hobj].
      unfold text in Hp. simpl in Hp. exact (currChar_at _ _ _ _ Hp).
    + unfold isOK; simpl. exact Hk.
    + simpl. exact Hw.
Qed.

Lemma comma_before_closing_bracket_is_accepted_witness :
  (exists p,
     parse (Parser_new "[1,true,]")
     = Return (makeArray [makeNumber (ld_of_Z 1); makeBoolean true], p)
     /\ isOK p = true
     /\ cout p = [])
  /\ (exists p,
        parse (Parser_new ("{" +:+ str1 dquote +:+ "a" +:+ str1 dquote
                           +:+ ":null,}"))
        = Return (makeObject {["a" := makeNull]}, p)
        /\ isOK p = true
        /\ cout p = []).
Proof.
  apply (comma_before_closing_bracket_is_accepted key_order
           [(makeNumber (ld_of_Z 1), "1"); (makeBoolean true, "true")]
           [("a", makeNull, "null")]).
  - intros path m. reflexivity.
  - repeat constructor. apply reads_back_integer. lia.
  - repeat constructor.
Defined.

(* ===================================================================== *)
(** * Further properties: the serializer *)
(* ===================================================================== *)

(** X23. The round trip at every indent. For a tree as in X12 with at
    most [n] levels of brackets, an indent that is not negative, and
    [indent * n] within [INT_MAX], [getRepresentation(indent)] returns: no
    product of an indent and a depth overflows and no count of spaces is
    negative. [parse()] on the text returns an equal tree with [isOK()]
    true and nothing reported. *)
Theorem pretty_text_round_trip
    (order : walk) (v : Value) (indent : Z) (n : nat) :
  walks_every_entry order ->
  round_trippable v ->
  nested_within n v ->
  0 <= indent ->
  indent * Z.of_nat n <= INT_MAX ->
  exists text p,
    getRepresentation order v indent 0 = Return text
    /\ parse (Parser_new text) = Return (v, p)
    /\ isOK p = true
    /\ cout p = [].
Proof.
  intros Ho Hv Hn Hi Hb.
  destruct (rendering_returns v Hv order Ho indent 0 n Hn Hi ltac:(lia)
              ltac:(lia)) as (text & Ht).
  destruct (rendered_parses order v indent 0 text EmptyString Ho Hv Ht I)
    as (p & Hp & Hk & Hc & _).
  rewrite append_nil_r in Hp. exists text, p. auto.
Qed.

Lemma pretty_text_round_trip_witness :
  let v := makeArray [makeObject {["a" := makeNumber (ld_of_Z 1)]};
                      makeArray []; makeNull] in
  exists text p,
    getRepresentation key_order v 2 0 = Return text
    /\ parse (Parser_new text) = Return (v, p)
    /\ isOK p = true
    /\ cout p = [].
Proof.
  intros v. apply (pretty_text_round_trip key_order v 2 2).
  - intros path m. reflexivity.
  - apply rt_array. intros y Hy.
    repeat (apply elem_of_cons in Hy as [-> | Hy]).
    + apply rt_object; intros k x Hm;
        apply lookup_singleton_Some in Hm as [<- <-]; [reflexivity|].
      apply rt_number, reads_back_integer. lia.
    + apply rt_array. intros z Hz. inversion Hz.
    + apply rt_null.
    + inversion Hy.
  - simpl. intros y Hy.
    repeat (apply elem_of_cons in Hy as [-> | Hy]); simpl.
    + intros k x Hm. apply lookup_singleton_Some in Hm as [<- <-]. exact I.
    + intros z Hz. inversion Hz.
    + exact I.
    + inversion Hy.
  - lia.
  - unfold INT_MAX. lia.
Defined.



(** X25. A value of type Unknown, which is what [Value()] constructs and
    what [parse()] returns after an error, is written as the empty text.
    An Array that holds one such value is written like the empty Array,
    and what is read back from its text is the empty Array, not the Array
    that was written. *)
Theorem unknown_value_is_written_as_nothing
    (order : walk) (indent depth : Z) :
  getRepresentation order Value_default indent depth = Return EmptyString
  /\ getRepresentation order (makeArray [Value_default]) 0 0 = Return "[]"
  /\ getRepresentation order (makeArray []) 0 0 = Return "[]"
  /\ makeArray [Value_default] <> makeArray []
  /\ exists p, parse (Parser_new "[]") = Return (makeArray [], p)
               /\ isOK p = true.
Proof.
  split; [reflexivity|]. split; [reflexivity|]. split; [reflexivity|].
  split; [discriminate|].
  eexists. split; [vm_compute; reflexivity | reflexivity].
Qed.

(* ===================================================================== *)
(** * Further properties: successive calls *)
(* ===================================================================== *)

(** X26. [parse()] does not go back to the start of the text: a second
    call reads on from where the first stopped. When the text holds the
    texts of two trees as in X12 one after the other, with nothing between
    them (white space would be rejected, X7) and the second text not
    beginning like a number, the first call returns the first tree and the
    second call the second, and [isOK()] is true after both. *)
Theorem parse_again_reads_on
    (order : walk) (v1 v2 : Value) (indent : Z) (text1 text2 : string) :
  walks_every_entry order ->
  round_trippable v1 ->
  round_trippable v2 ->
  getRepresentation order v1 indent 0 = Return text1 ->
  getRepresentation order v2 indent 0 = Return text2 ->
  ends_number text2 ->
  exists p1 p2,
    parse (Parser_new (text1 +:+ text2)) = Return (v1, p1)
    /\ isOK p1 = true
    /\ parse p1 = Return (v2, p2)
    /\ isOK p2 = true
    /\ cout p2 = []
    /\ currIdx p2 = Z.of_nat (String.length (text1 +:+ text2)).
Proof.
  intros Ho Hv1 Hv2 Ht1 Ht2 He.
  destruct (rendered_reads_as v1 Hv1 order Ho _ _ _ Ht1) as (_ & Hr1).
  destruct (rendered_reads_as v2 Hv2 order Ho _ _ _ Ht2) as (_ & Hr2).
  set (text := text1 +:+ text2).
  destruct (Parser_new_fields text) as (Hc & _ & Hk & Hw).
  destruct (Hr1 (S (String.length text)) (Parser_new text)
              EmptyString text2) as (p1 & Hp1 & (Ha1 & Hk1 & Hw1)).
  { unfold text. rewrite length_append. lia. }
  { apply at_pos_start. }
  { exact He. }
  simpl in Ha1.
  assert (Hc1 : content p1 = text) by (destruct Ha1 as (-> & _); reflexivity).
  destruct (Hr2 (S (String.length text)) (set_isOk true p1)
              text1 EmptyString) as (p2 & Hp2 & (Ha2 & Hk2 & Hw2)).
  { unfold text. rewrite length_append. lia. }
  { rewrite append_nil_r. apply at_pos_set_isOk. exact Ha1. }
  { exact I. }
  exists p1, p2.
  split; [now rewrite parse_unfold, set_isOk_Parser_new, Hc|].
  split; [unfold isOK; now rewrite Hk1|].
  split; [now rewrite parse_unfold, Hc1|].
  unfold isOK. rewrite Hk2, Hw2. simpl. rewrite Hw1, Hw.
  repeat split. destruct Ha2 as (_ & Hi & _). exact Hi.
Qed.

Lemma parse_again_reads_on_witness :
  exists p1 p2,
    parse (Parser_new "[1,2]{}") = Return (makeArray [makeNumber (ld_of_Z 1);
                                                     makeNumber (ld_of_Z 2)],
                                           p1)
    /\ isOK p1 = true
    /\ parse p1 = Return (makeObject ∅, p2)
    /\ isOK p2 = true
    /\ cout p2 = []
    /\ currIdx p2 = 7.
Proof.
  apply (parse_again_reads_on key_order
           (makeArray [makeNumber (ld_of_Z 1); makeNumber (ld_of_Z 2)])
           (makeObject ∅) 0 "[1,2]" "{}").
  - intros path m. reflexivity.
  - apply rt_array. intros y Hy.
    repeat (apply elem_of_cons in Hy as [-> | Hy]);
      [apply rt_number, reads_back_integer; lia ..|inversion Hy].
  - apply rt_object; intros k x Hm; rewrite lookup_empty in Hm;
      discriminate Hm.
  - vm_compute. reflexivity.
  - vm_compute. reflexivity.
  - reflexivity.
Defined.
